(** * Creata wallet extension: key vault and session state machine

    A shallow embedding of the vault and session code of the extension:

    - [src/lib/storage/index.js]   (encrypt, decrypt, saveData, getData,
                                    removeData, clearAllData),
    - [src/lib/keyring/index.js]   (generateWallet, importFromMnemonic,
                                    importFromPrivateKey, storeWallet,
                                    loadWallet, getAccounts,
                                    getCurrentAccount, setCurrentAccount,
                                    removeWallet, hasWallet),
    - [src/utils/helpers.js]       (isValidMnemonic, isValidAddress,
                                    truncateAddress,
                                    generateColorFromString, withRetry),
    - [src/popup/components/ImportWallet.js] (validateForm,
                                    handleImportWallet),
    - [src/popup/components/Login.js]        (handleLogin),
    - [src/popup/components/CreateWallet.js] (createWallet,
                                    handleCreateWallet),
    - [src/popup/components/Receive.js]      (loadAddress),
    - [src/popup/App.js]           (checkWallet),
    - [src/background/index.js]    (the session state, its message
                                    listeners and the timeout check),
    - [src/contentscript/index.js] (the messages between the page and the
                                    background, requestAccounts).

    JavaScript strings are lists of UTF-16 code units, byte arrays are
    lists of [byte], [Date.now()] is an integer number of milliseconds,
    a promise is the way it settles (or never does), and
    [chrome.storage.local] is a finite map from keys to stored strings.
    Calls that follow one another work on a browser: the stored items,
    the failures of the storage to come and the random bytes to come.
    The functions of the platform that the code calls ([TextEncoder],
    [TextDecoder], [btoa], [atob], [JSON.parse], [JSON.stringify], PBKDF2
    with HMAC) are written out after their standards; SHA-256, AES-GCM,
    the text of a number, lower case beyond ASCII, and the parts of the
    HD-wallet library that need a hash or the word list, are operations
    of an interface. *)

From Stdlib Require Import NArith ZArith Lia ZifyNat ZifyN List Bool.
From Stdlib Require Import Strings.Byte Strings.String Strings.Ascii.
From stdpp Require Import base option list gmap strings.

Import ListNotations.
Open Scope N_scope.

Ltac Zify.zify_post_hook ::= Z.to_euclidean_division_equations.

(** ** JavaScript values the code handles *)

(** A string is its sequence of UTF-16 code units, each below [65536]. *)
Abbreviation jsstring := (list N).

(** The code units of an ASCII literal of the source. *)
Definition js (s : string) : jsstring :=
  map N_of_ascii (list_ascii_of_string s).

(** What a [catch] clause receives: an [Error] built by the code with its
    message, an exception of the platform by its name, or the
    [chrome.runtime.lastError] of a storage call. *)
Inductive JSError : Type :=
| Error (message : string)
| PlatformError (name : string)
| LastError (message : string).

(** How an [async] call ends: its promise is fulfilled, is rejected, or
    is never settled. *)
Inductive outcome (A : Type) : Type :=
| Resolved (value : A)
| Rejected (reason : JSError)
| Pending.

Arguments Resolved {A} value.
Arguments Rejected {A} reason.
Arguments Pending {A}.

(** [await m] followed by [k]. *)
Definition await {A B : Type} (m : outcome A) (k : A -> outcome B) : outcome B :=
  match m with
  | Resolved a => k a
  | Rejected e => Rejected e
  | Pending => Pending
  end.

(** [try { m } catch (error) { h error }] around awaited code. *)
Definition try_catch {A : Type} (m : outcome A) (h : JSError -> outcome A) : outcome A :=
  match m with
  | Resolved a => Resolved a
  | Rejected e => h e
  | Pending => Pending
  end.

(** A call that returns or throws at once; an awaited call of the
    platform that always settles ends the same two ways. *)
Inductive result (A : Type) : Type :=
| Ok (value : A)
| Throw (reason : JSError).

Arguments Ok {A} value.
Arguments Throw {A} reason.

Definition settle {A : Type} (r : result A) : outcome A :=
  match r with
  | Ok a => Resolved a
  | Throw e => Rejected e
  end.

(** ** Encoding: [TextEncoder] and [TextDecoder] (WHATWG Encoding) *)

Module Encoding.

(** [ToUint8]: the byte a number is stored as in a [Uint8Array]. *)
Definition b8 (n : N) : byte :=
  match Byte.of_N (n mod 256) with
  | Some b => b
  | None => x00
  end.

Definition is_lead (u : N) : bool := (0xD800 <=? u) && (u <=? 0xDBFF).
Definition is_trail (u : N) : bool := (0xDC00 <=? u) && (u <=? 0xDFFF).
Definition is_surrogate (u : N) : bool := (0xD800 <=? u) && (u <=? 0xDFFF).

(** A scalar value: a code point that is no surrogate. *)
Definition is_scalar (c : N) : bool := (c <? 0x110000) && negb (is_surrogate c).

(** The conversion of a string to scalar values: a surrogate pair is one
    code point, a surrogate that stands alone becomes U+FFFD. *)
Fixpoint to_scalar_values (s : jsstring) : list N :=
  match s with
  | [] => []
  | u :: rest =>
      if is_lead u then
        match rest with
        | v :: rest' =>
            if is_trail v
            then (0x10000 + (u - 0xD800) * 0x400 + (v - 0xDC00)) :: to_scalar_values rest'
            else 0xFFFD :: to_scalar_values rest
        | [] => [0xFFFD]
        end
      else if is_trail u then 0xFFFD :: to_scalar_values rest
      else u :: to_scalar_values rest
  end.

(** Every code unit of the string has sixteen bits. *)
Definition is_string (s : jsstring) : bool := forallb (fun u => u <? 65536) s.

(** [String.prototype.isWellFormed]: no surrogate stands alone. *)
Fixpoint isWellFormed (s : jsstring) : bool :=
  match s with
  | [] => true
  | u :: rest =>
      if is_lead u then
        match rest with
        | v :: rest' => is_trail v && isWellFormed rest'
        | [] => false
        end
      else negb (is_trail u) && isWellFormed rest
  end.

(** The UTF-8 bytes of one scalar value. *)
Definition utf8_encode_cp (c : N) : list byte :=
  if c <? 0x80 then [b8 c]
  else if c <? 0x800 then [b8 (0xC0 + c / 64); b8 (0x80 + c mod 64)]
  else if c <? 0x10000 then
    [b8 (0xE0 + c / 4096); b8 (0x80 + (c / 64) mod 64); b8 (0x80 + c mod 64)]
  else
    [b8 (0xF0 + c / 262144); b8 (0x80 + (c / 4096) mod 64);
     b8 (0x80 + (c / 64) mod 64); b8 (0x80 + c mod 64)].

(** [new TextEncoder().encode(s)]. *)
Definition TextEncoder_encode (s : jsstring) : list byte :=
  flat_map utf8_encode_cp (to_scalar_values s).

(** The state of the UTF-8 decoder. *)
Record utf8_state : Type := {
  code_point : N;
  bytes_seen : N;
  bytes_needed : N;
  lower_boundary : N;
  upper_boundary : N
}.

Definition utf8_initial : utf8_state :=
  {| code_point := 0; bytes_seen := 0; bytes_needed := 0;
     lower_boundary := 0x80; upper_boundary := 0xBF |}.

(** The decoder on a byte when no byte is needed: what it emits and the
    state it goes to. An ill-placed byte emits U+FFFD. *)
Definition utf8_lead (n : N) : list N * utf8_state :=
  if n <=? 0x7F then ([n], utf8_initial)
  else if (0xC2 <=? n) && (n <=? 0xDF) then
    ([], {| code_point := n mod 32; bytes_seen := 0; bytes_needed := 1;
            lower_boundary := 0x80; upper_boundary := 0xBF |})
  else if (0xE0 <=? n) && (n <=? 0xEF) then
    ([], {| code_point := n mod 16; bytes_seen := 0; bytes_needed := 2;
            lower_boundary := if n =? 0xE0 then 0xA0 else 0x80;
            upper_boundary := if n =? 0xED then 0x9F else 0xBF |})
  else if (0xF0 <=? n) && (n <=? 0xF4) then
    ([], {| code_point := n mod 8; bytes_seen := 0; bytes_needed := 3;
            lower_boundary := if n =? 0xF0 then 0x90 else 0x80;
            upper_boundary := if n =? 0xF4 then 0x8F else 0xBF |})
  else ([0xFFFD], utf8_initial).

(** The UTF-8 decoder with replacement: a byte out of the expected range
    emits U+FFFD and is read again as a first byte; input that ends inside
    a sequence emits U+FFFD. *)
Fixpoint utf8_decode (st : utf8_state) (bs : list byte) : list N :=
  match bs with
  | [] => if bytes_needed st =? 0 then [] else [0xFFFD]
  | b :: rest =>
      let n := Byte.to_N b in
      if bytes_needed st =? 0 then
        let '(out, st') := utf8_lead n in out ++ utf8_decode st' rest
      else if (n <? lower_boundary st) || (upper_boundary st <? n) then
        let '(out, st') := utf8_lead n in 0xFFFD :: out ++ utf8_decode st' rest
      else
        let cp := code_point st * 64 + n mod 64 in
        if bytes_seen st + 1 =? bytes_needed st
        then cp :: utf8_decode utf8_initial rest
        else utf8_decode {| code_point := cp; bytes_seen := bytes_seen st + 1;
                            bytes_needed := bytes_needed st;
                            lower_boundary := 0x80; upper_boundary := 0xBF |} rest
  end.

(** The code units of one code point. *)
Definition utf16_encode_cp (c : N) : jsstring :=
  if c <? 0x10000 then [c]
  else [0xD800 + (c - 0x10000) / 0x400; 0xDC00 + (c - 0x10000) mod 0x400].

(** A decoder made by [new TextDecoder()] drops a byte order mark that
    the output starts with ([ignoreBOM] is false). *)
Definition strip_bom (cps : list N) : list N :=
  match cps with
  | c :: rest => if c =? 0xFEFF then rest else cps
  | [] => []
  end.

(** The string starts with a byte order mark. *)
Definition starts_with_bom (s : jsstring) : bool :=
  match s with
  | u :: _ => u =? 0xFEFF
  | [] => false
  end.

(** [new TextDecoder().decode(bytes)]. *)
Definition TextDecoder_decode (bs : list byte) : jsstring :=
  flat_map utf16_encode_cp (strip_bom (utf8_decode utf8_initial bs)).

(** A string of characters below the surrogates. *)
Definition below_surrogates (s : jsstring) : bool := forallb (fun c => c <? 0xD800) s.

(** A text that [TextEncoder] and [TextDecoder] keep: a well-formed
    string that is not empty and does not start with a byte order mark. *)
Definition is_text (s : jsstring) : bool :=
  is_string s && isWellFormed s && negb (starts_with_bom s) && negb (Nat.eqb (length s) 0).

End Encoding.

(** ** Base64: [btoa] and [atob] (WHATWG HTML, forgiving-base64) *)

Module Base64.

(** The character of a six-bit value. *)
Definition alphabet (i : N) : N :=
  if i <? 26 then 65 + i
  else if i <? 52 then 97 + (i - 26)
  else if i <? 62 then 48 + (i - 52)
  else if i =? 62 then 43
  else 47.

(** The six-bit value of a character of the alphabet. *)
Definition alphabet_index (c : N) : option N :=
  if (65 <=? c) && (c <=? 90) then Some (c - 65)
  else if (97 <=? c) && (c <=? 122) then Some (c - 97 + 26)
  else if (48 <=? c) && (c <=? 57) then Some (c - 48 + 52)
  else if c =? 43 then Some 62
  else if c =? 47 then Some 63
  else None.

(** The six-bit groups of a sequence of bytes: four for three bytes, and
    two or three for the one or two bytes left at the end. *)
Fixpoint sextets_of_bytes (l : list N) : list N :=
  match l with
  | a :: b :: c :: rest =>
      a / 4 :: (a mod 4) * 16 + b / 16 :: (b mod 16) * 4 + c / 64 :: c mod 64
        :: sextets_of_bytes rest
  | [a; b] => [a / 4; (a mod 4) * 16 + b / 16; (b mod 16) * 4]
  | [a] => [a / 4; (a mod 4) * 16]
  | [] => []
  end.

(** The bytes of a sequence of six-bit groups; the bits left over by a
    last group of two or three are dropped. *)
Fixpoint bytes_of_sextets (l : list N) : list N :=
  match l with
  | s1 :: s2 :: s3 :: s4 :: rest =>
      s1 * 4 + s2 / 16 :: (s2 mod 16) * 16 + s3 / 4 :: (s3 mod 4) * 64 + s4
        :: bytes_of_sextets rest
  | [s1; s2; s3] => [s1 * 4 + s2 / 16; (s2 mod 16) * 16 + s3 / 4]
  | [s1; s2] => [s1 * 4 + s2 / 16]
  | _ => []
  end.

Definition equals_sign : N := 61.

(** [btoa(s)]: fails ([InvalidCharacterError]) on a code unit above 255. *)
Definition btoa (s : jsstring) : option jsstring :=
  if forallb (fun u => u <=? 255) s
  then Some (map alphabet (sextets_of_bytes s)
             ++ repeat equals_sign ((3 - length s mod 3) mod 3)%nat)
  else None.

Definition is_ascii_whitespace (c : N) : bool :=
  (c =? 9) || (c =? 10) || (c =? 12) || (c =? 13) || (c =? 32).

(** One or two [=] at the end are removed. *)
Definition strip_padding (data : jsstring) : jsstring :=
  match rev data with
  | 61 :: 61 :: r => rev r
  | 61 :: r => rev r
  | _ => data
  end.

(** [atob(data)]: white space is removed; padding is removed when the
    length is a multiple of four; a length that leaves one character over,
    or a character outside the alphabet, fails ([InvalidCharacterError]). *)
Definition atob (data : jsstring) : option jsstring :=
  let data := filter (fun c => negb (is_ascii_whitespace c) = true) data in
  let data := if (length data mod 4 =? 0)%nat then strip_padding data else data in
  if (length data mod 4 =? 1)%nat then None
  else
    match mapM alphabet_index data with
    | Some sextets => Some (bytes_of_sextets sextets)
    | None => None
    end.

(** [String.fromCharCode(...bytes)]. *)
Definition String_fromCharCode (bs : list byte) : jsstring := map Byte.to_N bs.

(** [Uint8Array.from(s, c => c.charCodeAt(0))]. *)
Definition Uint8Array_from (s : jsstring) : list byte := map Encoding.b8 s.

End Base64.

(** ** [JSON.parse] (ECMA-404) *)

Module JSON.

(** A number as its literal gives it: [mantissa] times ten to the
    [exponent], negated when [negative]. *)
Record number : Type := {
  negative : bool;
  mantissa : N;
  exponent : Z
}.

(** A value of JSON. An object is given by its own properties, in the
    order they are enumerated in. *)
#[warnings="-register-all"]
Inductive JSValue : Type :=
| JNull
| JBool (b : bool)
| JNumber (n : number)
| JString (s : jsstring)
| JArray (elements : list JSValue)
| JObject (members : list (jsstring * JSValue)).

(** The double of a number literal is zero when the mantissa is, or when
    the value is at most [2^-1075], half the least positive double. *)
Definition number_is_zero (n : number) : bool :=
  (mantissa n =? 0) ||
  ((exponent n <? 0)%Z &&
   (Z.of_N (mantissa n) * 2 ^ 1075 <=? 10 ^ (- exponent n))%Z).

(** [ToBoolean]: what [!value] and [!!value] test. *)
Definition truthy (v : JSValue) : bool :=
  match v with
  | JNull => false
  | JBool b => b
  | JNumber n => negb (number_is_zero n)
  | JString s => negb (Nat.eqb (length s) 0)
  | JArray _ => true
  | JObject _ => true
  end.

Definition is_json_whitespace (c : N) : bool :=
  (c =? 32) || (c =? 9) || (c =? 10) || (c =? 13).

Fixpoint skip_whitespace (s : jsstring) : jsstring :=
  match s with
  | c :: rest => if is_json_whitespace c then skip_whitespace rest else s
  | [] => []
  end.

Definition is_digit (c : N) : bool := (48 <=? c) && (c <=? 57).

(** The digits at the start of [s], read onto [acc]; their count; the
    rest of [s]. *)
Fixpoint read_digits (acc : N) (count : nat) (s : jsstring) : N * nat * jsstring :=
  match s with
  | c :: rest =>
      if is_digit c then read_digits (acc * 10 + (c - 48)) (S count) rest
      else (acc, count, s)
  | [] => (acc, count, [])
  end.

(** The value of a hexadecimal digit. *)
Definition hex_digit (c : N) : option N :=
  if is_digit c then Some (c - 48)
  else if (65 <=? c) && (c <=? 70) then Some (c - 55)
  else if (97 <=? c) && (c <=? 102) then Some (c - 87)
  else None.

(** The character an escape stands for ([\u] apart). *)
Definition unescape (e : N) : option N :=
  if e =? 34 then Some 34 else if e =? 92 then Some 92
  else if e =? 47 then Some 47 else if e =? 98 then Some 8
  else if e =? 102 then Some 12 else if e =? 110 then Some 10
  else if e =? 114 then Some 13 else if e =? 116 then Some 9
  else None.

(** The characters of a string literal after its opening quote, up to the
    closing quote; a control character or a wrong escape is refused. *)
Fixpoint parse_string (s : jsstring) : option (jsstring * jsstring) :=
  match s with
  | [] => None
  | c :: rest =>
      if c =? 34 then Some ([], rest)
      else if c =? 92 then
        match rest with
        | e :: rest1 =>
            if e =? 117 then
              match rest1 with
              | h1 :: h2 :: h3 :: h4 :: rest2 =>
                  match hex_digit h1, hex_digit h2, hex_digit h3, hex_digit h4 with
                  | Some d1, Some d2, Some d3, Some d4 =>
                      match parse_string rest2 with
                      | Some (str, rest3) =>
                          Some (d1 * 4096 + d2 * 256 + d3 * 16 + d4 :: str, rest3)
                      | None => None
                      end
                  | _, _, _, _ => None
                  end
              | _ => None
              end
            else
              match unescape e, parse_string rest1 with
              | Some u, Some (str, rest2) => Some (u :: str, rest2)
              | _, _ => None
              end
        | [] => None
        end
      else if c <? 32 then None
      else
        match parse_string rest with
        | Some (str, rest1) => Some (c :: str, rest1)
        | None => None
        end
  end.

(** The sign before a number or an exponent. *)
Definition read_minus (s : jsstring) : bool * jsstring :=
  match s with
  | c :: rest => if c =? 45 then (true, rest) else (false, s)
  | [] => (false, [])
  end.

Definition read_sign (s : jsstring) : bool * jsstring :=
  match s with
  | c :: rest =>
      if c =? 45 then (true, rest) else if c =? 43 then (false, rest) else (false, s)
  | [] => (false, [])
  end.

(** A number literal: an optional minus, [0] or digits that do not start
    with [0], an optional fraction, an optional exponent. *)
Definition parse_number (s : jsstring) : option (number * jsstring) :=
  let '(neg, s1) := read_minus s in
  match s1 with
  | d :: rest1 =>
      if is_digit d then
        let '(int, _, s2) :=
          if d =? 48 then (0, 1%nat, rest1) else read_digits 0 0 s1 in
        let frac :=
          match s2 with
          | p :: rest2 =>
              if p =? 46 then
                let '(m, count, s3) := read_digits int 0 rest2 in
                if Nat.eqb count 0 then None else Some (m, count, s3)
              else Some (int, 0%nat, s2)
          | [] => Some (int, 0%nat, s2)
          end in
        match frac with
        | None => None
        | Some (m, count, s3) =>
            match s3 with
            | e :: rest3 =>
                if (e =? 101) || (e =? 69) then
                  let '(eneg, s4) := read_sign rest3 in
                  let '(ev, ecount, s5) := read_digits 0 0 s4 in
                  if Nat.eqb ecount 0 then None
                  else
                    let ez := if eneg then (- Z.of_N ev)%Z else Z.of_N ev in
                    Some ({| negative := neg; mantissa := m;
                             exponent := (ez - Z.of_nat count)%Z |}, s5)
                else Some ({| negative := neg; mantissa := m;
                              exponent := (- Z.of_nat count)%Z |}, s3)
            | [] => Some ({| negative := neg; mantissa := m;
                             exponent := (- Z.of_nat count)%Z |}, [])
            end
        end
      else None
  | [] => None
  end.

(** [s] starts with the characters of [word]: the rest of [s]. *)
Fixpoint expect (word s : jsstring) : option jsstring :=
  match word, s with
  | [], _ => Some s
  | w :: word', c :: rest => if c =? w then expect word' rest else None
  | _ :: _, [] => None
  end.

Section Values.

(** The parser of a value one level further in. *)
Variable parse_inner : jsstring -> option (JSValue * jsstring).

(** The elements of an array after the first, up to the closing bracket. *)
Fixpoint parse_elements (fuel : nat) (s : jsstring) : option (list JSValue * jsstring) :=
  match fuel with
  | O => None
  | S fuel' =>
      match skip_whitespace s with
      | c :: rest =>
          if c =? 93 then Some ([], rest)
          else if c =? 44 then
            match parse_inner rest with
            | Some (v, rest1) =>
                match parse_elements fuel' rest1 with
                | Some (vs, rest2) => Some (v :: vs, rest2)
                | None => None
                end
            | None => None
            end
          else None
      | [] => None
      end
  end.

(** One member of an object: a string, a colon, a value. *)
Definition parse_member (s : jsstring) : option (jsstring * JSValue * jsstring) :=
  match skip_whitespace s with
  | q :: rest =>
      if q =? 34 then
        match parse_string rest with
        | Some (key, rest1) =>
            match skip_whitespace rest1 with
            | c :: rest2 =>
                if c =? 58 then
                  match parse_inner rest2 with
                  | Some (v, rest3) => Some (key, v, rest3)
                  | None => None
                  end
                else None
            | [] => None
            end
        | None => None
        end
      else None
  | [] => None
  end.

(** The members of an object after the first, up to the closing brace. *)
Fixpoint parse_members (fuel : nat) (s : jsstring)
  : option (list (jsstring * JSValue) * jsstring) :=
  match fuel with
  | O => None
  | S fuel' =>
      match skip_whitespace s with
      | c :: rest =>
          if c =? 125 then Some ([], rest)
          else if c =? 44 then
            match parse_member rest with
            | Some (key, v, rest1) =>
                match parse_members fuel' rest1 with
                | Some (ms, rest2) => Some ((key, v) :: ms, rest2)
                | None => None
                end
            | None => None
            end
          else None
      | [] => None
      end
  end.

End Values.

(** An array index: the decimal digits, without a zero in front, of an
    integer below [2^32 - 1]. An object enumerates the properties with
    such keys first. *)
Definition is_array_index (key : jsstring) : bool :=
  match key with
  | [] => false
  | d :: rest =>
      forallb is_digit key
      && (negb (d =? 48) || Nat.eqb (length rest) 0)
      && (fst (fst (read_digits 0 0 key)) <? 4294967295)
  end.

(** The integer an array index stands for. *)
Definition index_of (key : jsstring) : option N :=
  if is_array_index key then Some (fst (fst (read_digits 0 0 key))) else None.

(** An object that has both keys enumerates [key] before [other]
    whatever the order they were added in: [key] is an array index, and
    [other] is none or a larger one. *)
Definition comes_before (key other : jsstring) : bool :=
  match index_of key, index_of other with
  | Some i, Some j => i <? j
  | Some _, None => true
  | None, _ => false
  end.

(** [CreateDataProperty(object, key, value)], on the properties of the
    object in the order they are enumerated in: the value of a key that
    is there is replaced where it stands; a new array index goes before
    the larger ones and before the other keys; any other new key goes
    last. *)
Fixpoint define_property (members : list (jsstring * JSValue)) (key : jsstring)
    (value : JSValue) : list (jsstring * JSValue) :=
  match members with
  | [] => [(key, value)]
  | (k, w) :: rest =>
      if bool_decide (k = key) then (k, value) :: rest
      else if comes_before key k then (key, value) :: members
      else (k, w) :: define_property rest key value
  end.

(** The object the members of a JSON text make, defined one after the
    other: of two members with one key the second gives the value. *)
Definition object_of (members : list (jsstring * JSValue)) : list (jsstring * JSValue) :=
  fold_left (fun object member => define_property object (fst member) (snd member))
    members [].

(** The next character after white space is [c]: what follows it. *)
Definition closes (c : N) (s : jsstring) : option jsstring :=
  match skip_whitespace s with
  | d :: rest => if d =? c then Some rest else None
  | [] => None
  end.

(** A value, with white space before it; [fuel] bounds the nesting. *)
Fixpoint parse_value (fuel : nat) (s : jsstring) : option (JSValue * jsstring) :=
  match fuel with
  | O => None
  | S fuel' =>
      match skip_whitespace s with
      | [] => None
      | c :: rest =>
          if c =? 123 then
            match closes 125 rest with
            | Some rest1 => Some (JObject [], rest1)
            | None =>
                match parse_member (parse_value fuel') rest with
                | Some (key, v, rest1) =>
                    match parse_members (parse_value fuel') (S (length rest1)) rest1 with
                    | Some (ms, rest2) => Some (JObject (object_of ((key, v) :: ms)), rest2)
                    | None => None
                    end
                | None => None
                end
            end
          else if c =? 91 then
            match closes 93 rest with
            | Some rest1 => Some (JArray [], rest1)
            | None =>
                match parse_value fuel' rest with
                | Some (v, rest1) =>
                    match parse_elements (parse_value fuel') (S (length rest1)) rest1 with
                    | Some (vs, rest2) => Some (JArray (v :: vs), rest2)
                    | None => None
                    end
                | None => None
                end
            end
          else if c =? 34 then
            match parse_string rest with
            | Some (str, rest1) => Some (JString str, rest1)
            | None => None
            end
          else if c =? 116 then
            match expect (js "rue") rest with
            | Some rest1 => Some (JBool true, rest1)
            | None => None
            end
          else if c =? 102 then
            match expect (js "alse") rest with
            | Some rest1 => Some (JBool false, rest1)
            | None => None
            end
          else if c =? 110 then
            match expect (js "ull") rest with
            | Some rest1 => Some (JNull, rest1)
            | None => None
            end
          else
            match parse_number (c :: rest) with
            | Some (n, rest1) => Some (JNumber n, rest1)
            | None => None
            end
      end
  end.

(** [JSON.parse(text)]: one value and nothing but white space after it,
    or a [SyntaxError]. *)
Definition parse (text : jsstring) : result JSValue :=
  match parse_value (S (length text)) text with
  | Some (v, rest) =>
      match skip_whitespace rest with
      | [] => Ok v
      | _ :: _ => Throw (PlatformError "SyntaxError")
      end
  | None => Throw (PlatformError "SyntaxError")
  end.

(** *** [JSON.stringify] (ECMA-262, without replacer and without indent)

    The members of an object are listed in the order its own properties
    are enumerated in. *)

(** The text of a number: [Number::toString] of its double, or [null]
    when the double is not finite. An operation of the platform. *)
Class NumberText : Type := {
  SerializeJSONNumber : number -> jsstring
}.

(** A lower case hexadecimal digit. *)
Definition hex_char (d : N) : N := if d <? 10 then 48 + d else 87 + d.

(** [UnicodeEscape]: a backslash, [u] and four hexadecimal digits. *)
Definition UnicodeEscape (c : N) : jsstring :=
  [92; 117; hex_char (c / 4096); hex_char ((c / 256) mod 16);
   hex_char ((c / 16) mod 16); hex_char (c mod 16)].

(** The letter of the escape of a character that has a short one. *)
Definition escape_of (c : N) : option N :=
  if c =? 8 then Some 98 else if c =? 9 then Some 116
  else if c =? 10 then Some 110 else if c =? 12 then Some 102
  else if c =? 13 then Some 114 else if c =? 34 then Some 34
  else if c =? 92 then Some 92 else None.

(** The characters of [QuoteJSONString] between the quotes: a control
    character and a surrogate that stands alone are escaped, a surrogate
    pair is kept. *)
Fixpoint quote_characters (s : jsstring) : jsstring :=
  match s with
  | [] => []
  | u :: rest =>
      match escape_of u with
      | Some e => 92 :: e :: quote_characters rest
      | None =>
          if u <? 32 then UnicodeEscape u ++ quote_characters rest
          else if Encoding.is_lead u then
            match rest with
            | v :: rest' =>
                if Encoding.is_trail v then u :: v :: quote_characters rest'
                else UnicodeEscape u ++ quote_characters rest
            | [] => UnicodeEscape u
            end
          else if Encoding.is_trail u then UnicodeEscape u ++ quote_characters rest
          else u :: quote_characters rest
      end
  end.

Definition QuoteJSONString (s : jsstring) : jsstring :=
  34 :: quote_characters s ++ [34].

(** The texts of the elements or members, with a comma between two. *)
Fixpoint join_comma (texts : list jsstring) : jsstring :=
  match texts with
  | [] => []
  | [t] => t
  | t :: rest => t ++ 44 :: join_comma rest
  end.

(** [JSON.stringify(value)]. *)
Fixpoint stringify {numbers : NumberText} (value : JSValue) : jsstring :=
  match value with
  | JNull => js "null"
  | JBool true => js "true"
  | JBool false => js "false"
  | JNumber n => SerializeJSONNumber n
  | JString s => QuoteJSONString s
  | JArray elements => 91 :: join_comma (map stringify elements) ++ [93]
  | JObject members =>
      123 :: join_comma
               (map (fun member => QuoteJSONString (fst member) ++ 58 :: stringify (snd member))
                  members)
          ++ [125]
  end.

(** The keys are those of the properties of one object, in the order
    they are enumerated in: no key comes twice, and the array indices come
    first, in ascending order. Every object has its properties in this
    order. *)
Fixpoint keys_in_order (keys : list jsstring) : bool :=
  match keys with
  | [] => true
  | key :: rest =>
      forallb (fun other => negb (bool_decide (other = key))
                            && negb (comes_before other key)) rest
      && keys_in_order rest
  end.

(** A value made of [null], booleans, strings, arrays and objects: no
    number in it, every string of sixteen-bit code units. *)
Fixpoint without_numbers (value : JSValue) : bool :=
  match value with
  | JNull => true
  | JBool _ => true
  | JNumber _ => false
  | JString s => Encoding.is_string s
  | JArray elements => forallb without_numbers elements
  | JObject members =>
      keys_in_order (map fst members)
      && forallb (fun member => Encoding.is_string (fst member) && without_numbers (snd member))
           members
  end.

(** The first character of the text of a value without numbers. *)
Definition opening (c : N) : bool :=
  (c =? 110) || (c =? 116) || (c =? 102) || (c =? 34) || (c =? 91) || (c =? 123).

(** What [parse_string] makes of one more character in front. *)
Definition read_after (c : N) (r : option (jsstring * jsstring))
  : option (jsstring * jsstring) :=
  match r with
  | Some (str, rest) => Some (c :: str, rest)
  | None => None
  end.

(** How deep arrays and objects are nested in a value. *)
Fixpoint depth (value : JSValue) : nat :=
  match value with
  | JArray elements => S (fold_right (fun v d => Nat.max (depth v) d) 0%nat elements)
  | JObject members =>
      S (fold_right (fun member d => Nat.max (depth (snd member)) d) 0%nat members)
  | _ => 0%nat
  end.

End JSON.

(** ** Web Crypto: PBKDF2 with HMAC over SHA-256, and AES-GCM *)

(** The primitives behind [window.crypto.subtle]: the hash function
    SHA-256, and AES-GCM encryption and decryption under a key and an
    initialisation vector. The output of [AES_GCM_encrypt] is the
    ciphertext followed by the authentication tag; [AES_GCM_decrypt]
    yields nothing ([OperationError]) when it rejects its input. *)
Class WebCrypto : Type := {
  SHA256 : list byte -> list byte;
  AES_GCM_encrypt : list byte -> list byte -> list byte -> list byte;
  AES_GCM_decrypt : list byte -> list byte -> list byte -> option (list byte)
}.

(** What the code relies on: decryption under the key and vector of the
    encryption gives the plaintext back. *)
Class WebCryptoCorrect (wc : WebCrypto) : Prop := {
  AES_GCM_decrypt_encrypt :
    forall key iv plaintext,
      AES_GCM_decrypt key iv (AES_GCM_encrypt key iv plaintext) = Some plaintext
}.


(** The values [window.crypto.getRandomValues] will return, one byte
    after the other. *)
Definition RandomSource : Type := nat -> byte.

Module Crypto.

Import Encoding.

(** [getRandomValues(new Uint8Array(n))], from position [pos] on. *)
Definition getRandomValues (rng : RandomSource) (pos n : nat) : list byte :=
  map rng (seq pos n).

Definition xor_byte (a b : byte) : byte :=
  b8 (N.lxor (Byte.to_N a) (Byte.to_N b)).

Fixpoint xor_bytes (x y : list byte) : list byte :=
  match x, y with
  | a :: x', b :: y' => xor_byte a b :: xor_bytes x' y'
  | _, _ => []
  end.

Section Primitives.

Context {wc : WebCrypto}.

(** RFC 2104: the key of HMAC is hashed when it is longer than a block
    of 64 bytes, and then filled with zero bytes up to the block. *)
Definition hmac_block_key (key : list byte) : list byte :=
  let k := if (64 <? length key)%nat then SHA256 key else key in
  k ++ repeat x00 (64 - length k)%nat.

Definition HMAC (key message : list byte) : list byte :=
  let k0 := hmac_block_key key in
  SHA256 (map (xor_byte x5c) k0 ++ SHA256 (map (xor_byte x36) k0 ++ message)).

(** RFC 8018: the first block of PBKDF2, the exclusive or of
    [iterations] chained values of HMAC keyed by the password. *)
Definition PBKDF2_block (password salt : list byte) (iterations : N) : list byte :=
  let u1 := HMAC password (salt ++ [x00; x00; x00; x01]) in
  snd (N.iter (iterations - 1)
         (fun ut : list byte * list byte =>
            let u := HMAC password (fst ut) in (u, xor_bytes (snd ut) u))
         (u1, u1)).

(** [subtle.importKey('raw', passwordBuffer, {name: 'PBKDF2'}, ...)]. *)
Definition importKey (passwordBuffer : list byte) : list byte := passwordBuffer.

(** [subtle.deriveKey({name: 'PBKDF2', salt, iterations, hash: 'SHA-256'},
    keyMaterial, {name: 'AES-GCM', length: 256}, ...)]: the 256 bits of the
    key are the first block of PBKDF2 (a hash value has 256 bits). *)
Definition deriveKey (salt : list byte) (iterations : N) (keyMaterial : list byte)
  : list byte :=
  firstn 32 (PBKDF2_block keyMaterial salt iterations).

End Primitives.

End Crypto.

(** ** [chrome.storage.local] and [chrome.runtime.lastError] *)

Module Chrome.

(** The items stored, and the error the next storage call will report
    in [chrome.runtime.lastError], if it fails. *)
Record env : Type := {
  local : gmap string (list N);
  lastError : option string
}.

(** Storage that holds nothing and reports no error. *)
Definition empty_storage : env :=
  {| local := ∅; lastError := None |}.

(** Storage that holds one record and reports no error. *)
Definition storage_with (key : string) (data : list N) : env :=
  {| local := {[ key := data ]}; lastError := None |}.

End Chrome.

(** ** The browser, as one call after the other finds it *)

Module Browser.

(** The items of [chrome.storage.local]; for each call of the storage
    to come, the error it will leave in [chrome.runtime.lastError] if it
    fails (none is left when the list is used up); and the bytes that
    [getRandomValues] will return. *)
Record browser : Type := {
  items : gmap string (list N);
  reports : list (option string);
  random : RandomSource
}.

(** What the next call of the storage reports. *)
Definition next_report (b : browser) : option string :=
  match reports b with
  | report :: _ => report
  | [] => None
  end.

(** No call of the storage to come fails. *)
Definition no_failure (b : browser) : Prop :=
  Forall (fun report => report = None) (reports b).

(** The storage as the next call finds it. *)
Definition env_of (b : browser) : Chrome.env :=
  {| Chrome.local := items b; Chrome.lastError := next_report b |}.

(** An [async] call: how it ends, and the browser it leaves. *)
Definition task (A : Type) : Type := browser -> outcome A * browser.

Definition ret {A : Type} (a : A) : task A := fun b => (Resolved a, b).

Definition throw {A : Type} (e : JSError) : task A := fun b => (Rejected e, b).

(** An awaited promise that settles without the browser. *)
Definition lift {A : Type} (m : outcome A) : task A := fun b => (m, b).

(** [const x = await m; k x]. *)
Definition bind {A B : Type} (m : task A) (k : A -> task B) : task B :=
  fun b =>
    match m b with
    | (Resolved a, b') => k a b'
    | (Rejected e, b') => (Rejected e, b')
    | (Pending, b') => (Pending, b')
    end.

(** [try { m } catch (error) { h error }]. *)
Definition catch {A : Type} (m : task A) (h : JSError -> task A) : task A :=
  fun b =>
    match m b with
    | (Rejected e, b') => h e b'
    | settled => settled
    end.

(** A call of the storage that asks for a change of the items: what its
    callback finds in [chrome.runtime.lastError], and the browser after
    it. A call that fails changes nothing. *)
Definition storage_call (change : gmap string (list N) -> gmap string (list N))
    (b : browser) : option string * browser :=
  (next_report b,
   {| items := match next_report b with
               | Some _ => items b
               | None => change (items b)
               end;
      reports := tl (reports b);
      random := random b |}).

(** [chrome.storage.local.set({ [key]: data }, callback)]. *)
Definition storage_set (key : string) (data : list N) :=
  storage_call (fun stored => <[key := data]> stored).

(** [chrome.storage.local.remove(key, callback)]. *)
Definition storage_remove (key : string) :=
  storage_call (fun stored => delete key stored).


(** The promise around a call of the storage, whose callback rejects it
    with [chrome.runtime.lastError], if there is one, and else resolves
    it. *)
Definition promise_of_callback (call : browser -> option string * browser)
  : task unit :=
  fun b =>
    let '(lastError, b') := call b in
    match lastError with
    | Some e => (Rejected (LastError e), b')
    | None => (Resolved tt, b')
    end.

(** The browser after a call of the storage has set an item. *)
Definition written (key : string) (data : list N) (b : browser) : browser :=
  {| items := <[key := data]> (items b); reports := tl (reports b);
     random := random b |}.

(** The browser after [n] random bytes were drawn. *)
Definition drawn (n : nat) (b : browser) : browser :=
  {| items := items b; reports := reports b;
     random := fun i => random b (n + i)%nat |}.

End Browser.

Notation "'let*' x ':=' m 'in' k" := (Browser.bind m (fun x => k))
  (at level 10, x name, m at level 100, k at level 200, only parsing).

(** ** [src/lib/storage/index.js]: encryption of the stored records *)

Module Storage.

Import Encoding Base64 Crypto JSON.

Section Cipher.

Context {wc : WebCrypto}.

(** [encrypt(data, password)]: the salt and the vector are drawn from
    [rng]; the result is the Base64 text of salt, vector and encrypted
    data, in this order. (The bound of the engine on the number of
    arguments of [String.fromCharCode(...encryptedArray)], an exhaustion of
    resources on very long data, is left out.) *)
Definition encrypt (rng : RandomSource) (data password : jsstring) : outcome jsstring :=
  try_catch
    (let dataBuffer := TextEncoder_encode data in
     let passwordBuffer := TextEncoder_encode password in
     let keyMaterial := importKey passwordBuffer in
     let salt := getRandomValues rng 0 16 in
     let key := deriveKey salt 100000 keyMaterial in
     let iv := getRandomValues rng 16 12 in
     let encryptedBuffer := AES_GCM_encrypt key iv dataBuffer in
     let encryptedArray := salt ++ iv ++ encryptedBuffer in
     match btoa (String_fromCharCode encryptedArray) with
     | Some text => Resolved text
     | None => Rejected (PlatformError "InvalidCharacterError")
     end)
    (fun _ => Rejected (Error "Failed to encrypt data")).

(** The error of the [catch] clause of [decrypt]. *)
Definition decrypt_error : JSError :=
  Error "Failed to decrypt data. Incorrect password or corrupted data.".

(** The key that [encrypt] and [decrypt] derive from a password and a
    salt. *)
Definition key_of (password : jsstring) (salt : list byte) : list byte :=
  deriveKey salt 100000 (importKey (TextEncoder_encode password)).

(** [decrypt(encryptedData, password)]: whatever fails inside, the error
    thrown is the one of the [catch] clause. *)
Definition decrypt (encryptedData password : jsstring) : outcome jsstring :=
  try_catch
    (match atob encryptedData with
     | None => Rejected (PlatformError "InvalidCharacterError")
     | Some binary =>
         let encryptedArray := Uint8Array_from binary in
         let salt := firstn 16 encryptedArray in
         let iv := firstn 12 (skipn 16 encryptedArray) in
         let encryptedBuffer := skipn 28 encryptedArray in
         let passwordBuffer := TextEncoder_encode password in
         let keyMaterial := importKey passwordBuffer in
         let key := deriveKey salt 100000 keyMaterial in
         match AES_GCM_decrypt key iv encryptedBuffer with
         | None => Rejected (PlatformError "OperationError")
         | Some decryptedBuffer => Resolved (TextDecoder_decode decryptedBuffer)
         end
     end)
    (fun _ => Rejected decrypt_error).

(** [!password] for a parameter that is a string or [null]. *)
Definition no_password (password : option jsstring) : bool :=
  match password with
  | None => true
  | Some pw => Nat.eqb (length pw) 0
  end.

(** [getData(key, secure, password)]. The callback of
    [chrome.storage.local.get] is an [async] function: what is thrown in
    it outside its own [try] rejects the promise of the callback, and
    the promise [getData] returned is left unsettled. *)
Definition getData (chrome : Chrome.env) (key : string) (secure : bool)
    (password : option jsstring) : outcome JSValue :=
  try_catch
    (match Chrome.lastError chrome with
     | Some e => Rejected (LastError e)
     | None =>
         match Chrome.local chrome !! key with
         | None => Resolved JNull
         | Some data =>
             if Nat.eqb (length data) 0 then Resolved JNull
             else if secure then
               if no_password password
               then Rejected (Error "Password is required for secure retrieval")
               else
                 try_catch
                   (await (decrypt data (default [] password))
                      (fun decryptedData => settle (JSON.parse decryptedData)))
                   (fun error => Rejected error)
             else
               match JSON.parse data with
               | Ok value => Resolved value
               | Throw _ => Pending
               end
         end
     end)
    (fun error => Rejected error).

End Cipher.

Section Calls.

Import Browser.

Context {wc : WebCrypto} {numbers : NumberText}.

(** A call of [encrypt]: it draws the 28 bytes of the salt and of the
    vector. *)
Definition encrypt_call (data password : jsstring) : task jsstring :=
  fun b => (encrypt (random b) data password, drawn 28 b).

(** [saveData(key, value, secure = false, password = null)]. *)
Definition saveData (key : string) (value : JSValue) (secure : bool)
    (password : option jsstring) : task unit :=
  catch
    (let dataToStore := stringify value in
     let* dataToStore :=
       (if secure then
          if no_password password
          then throw (Error "Password is required for secure storage")
          else encrypt_call dataToStore (default [] password)
        else ret dataToStore) in
     promise_of_callback (storage_set key dataToStore))
    (fun error => throw error).

(** [removeData(key)]. *)
Definition removeData (key : string) : task unit :=
  promise_of_callback (storage_remove key).


End Calls.

End Storage.

(** ** The HD-wallet library ([@cosmjs/proto-signing], [@cosmjs/crypto])

    The library is a dependency of the extension, not part of its
    sources, and the extension does not fix its version. Its checks of a
    phrase are written out after its [EnglishMnemonic] and
    [DirectSecp256k1HdWallet] as far as its versions agree, which is on
    the phrases of ASCII characters; the word list, the checksum of a
    phrase, the encoding of entropy as a phrase, the derivation of the
    accounts, the reading of a serialized wallet, and what is made of a
    phrase with other characters, are operations of an interface. *)

Module HdWallet.

Import Crypto JSON.

Record Wallet (Account : Type) : Type := {
  mnemonic : jsstring;
  accounts : list Account
}.

Arguments mnemonic {Account} _.
Arguments accounts {Account} _.

Class Library : Type := {
  (** The English word list. *)
  wordlist : list (list N);
  (** [mnemonicToEntropy] accepts the phrase: its checksum is right. *)
  checksum_ok : list N -> bool;
  (** [Bip39.encode]: the phrase of some entropy. *)
  Bip39_encode : list byte -> list N;
  HdPath : Type;
  stringToPath : list N -> HdPath;
  Account : Type;
  (** The accounts of a phrase along the paths, with the address prefix. *)
  derive : list N -> list HdPath -> list N -> list Account;
  (** [DirectSecp256k1HdWallet.deserialize(serialization, password)]. *)
  deserialize : JSValue -> option (list N) -> result (Wallet Account);
  (** What [new EnglishMnemonic(mnemonic)] makes of a phrase that has a
      character beyond ASCII: the phrase it keeps, or what it throws. The
      versions differ here: one that matches the phrase against
      [/^[a-z]+( [a-z]+)*$/] refuses it, one that normalizes the phrase
      (NFKD) before its checks can accept it. *)
  beyond_ascii : list N -> result (list N);
  (** What is thrown for a phrase of ASCII characters that is refused;
      the message depends on the version and on the check that failed. *)
  refusal : list N -> JSError
}.

Section Lib.

Context {lib : Library}.

Record Options : Type := {
  hdPaths : list HdPath;
  prefix : jsstring
}.

Definition is_lower (c : N) : bool := (97 <=? c) && (c <=? 122).

(** The matcher [/^[a-z]+( [a-z]+)*$/], which some versions of the
    library apply to the phrase first: words of lower case letters with
    one space between them; [in_word] tells that a letter was just read. *)
Fixpoint matches_from (in_word : bool) (s : jsstring) : bool :=
  match s with
  | [] => in_word
  | c :: rest =>
      if is_lower c then matches_from true rest
      else if (c =? 32) && in_word then matches_from false rest
      else false
  end.

Definition mnemonicMatcher (s : jsstring) : bool := matches_from false s.

(** [s.split(" ")], with [word] the piece being read. *)
Fixpoint split_space (word s : jsstring) : list jsstring :=
  match s with
  | [] => [word]
  | c :: rest =>
      if c =? 32 then word :: split_space [] rest
      else split_space (word ++ [c]) rest
  end.

Definition allowedWordsLengths : list nat := [12; 15; 18; 21; 24]%nat.

Definition includes (l : list nat) (n : nat) : bool := existsb (Nat.eqb n) l.

(** [wordlist.indexOf(word) !== -1]. *)
Definition in_wordlist (word : jsstring) : bool :=
  existsb (fun w => bool_decide (w = word)) wordlist.

(** A string of ASCII characters. *)
Definition is_ascii (s : jsstring) : bool := forallb (fun c => c <? 128) s.

(** [new EnglishMnemonic(mnemonic)]: the phrase, or what it throws. Of a
    phrase of ASCII characters the pieces between single spaces are
    counted and looked up in the word list, and the checksum is verified.
    (A version that first matches the phrase against [mnemonicMatcher]
    refuses nothing more, the words of the list being made of the letters
    [a] to [z].) *)
Definition EnglishMnemonic (mnemonic : jsstring) : result jsstring :=
  if negb (is_ascii mnemonic) then beyond_ascii mnemonic
  else
    let words := split_space [] mnemonic in
    if negb (includes allowedWordsLengths (length words))
    then Throw (refusal mnemonic)
    else if negb (forallb in_wordlist words)
    then Throw (refusal mnemonic)
    else if negb (checksum_ok mnemonic)
    then Throw (refusal mnemonic)
    else Ok mnemonic.

(** [DirectSecp256k1HdWallet.fromMnemonic(mnemonic, options)]. *)
Definition fromMnemonic (mnemonic : jsstring) (options : Options)
  : result (Wallet Account) :=
  match EnglishMnemonic mnemonic with
  | Ok checked =>
      Ok {| mnemonic := checked;
            accounts := derive checked (hdPaths options) (prefix options) |}
  | Throw e => Throw e
  end.

(** [DirectSecp256k1HdWallet.generate(length, options)]: entropy of
    [4 * floor(11 * length / 33)] random bytes, encoded as a phrase. *)
Definition generate (rng : RandomSource) (length : N) (options : Options)
  : result (Wallet Account) :=
  let entropyLength := 4 * ((11 * length) / 33) in
  let entropy := getRandomValues rng 0 (N.to_nat entropyLength) in
  let mnemonic := Bip39_encode entropy in
  fromMnemonic mnemonic options.

End Lib.

(** What the library promises of the phrases it makes itself: the phrase
    of 16, 20, 24, 28 or 32 bytes of entropy has three words for four
    bytes, is of the form the matcher asks for, and passes the checks of
    the word list and of the checksum. *)
Class LibraryCorrect (lib : Library) : Prop := {
  Bip39_encode_checked :
    forall entropy,
      In (length entropy) [16; 20; 24; 28; 32]%nat ->
      EnglishMnemonic (Bip39_encode entropy) = Ok (Bip39_encode entropy) /\
      length (split_space [] (Bip39_encode entropy)) = (3 * length entropy / 4)%nat
}.


(** What [storeWallet] asks of a wallet of the library: its
    serialization under a password ([wallet.serialize(password)]), and
    the fields of the accounts that [wallet.getAccounts()] lists. *)
Class WalletMethods (lib : Library) : Type := {
  serialize : Wallet Account -> jsstring -> outcome jsstring;
  account_address : Account -> jsstring;
  account_algo : Account -> jsstring;
  account_pubkey : Account -> list byte
}.

(** What the library promises of them: a serialization is a string that
    is not empty, from which [deserialize] makes the wallet again under
    the same password; the address and the algorithm of an account are
    strings. *)
Class WalletMethodsCorrect (lib : Library) (methods : WalletMethods lib) : Prop := {
  deserialize_serialize :
    forall wallet password serialization,
      serialize wallet password = Resolved serialization ->
      Encoding.is_string serialization = true
      /\ serialization <> []
      /\ deserialize (JString serialization) (Some password) = Ok wallet;
  account_strings :
    forall account,
      Encoding.is_string (account_address account) = true
      /\ Encoding.is_string (account_algo account) = true
}.

End HdWallet.

(** ** [src/lib/keyring/index.js] *)

Module Keyring.

Import JSON Storage HdWallet.

Definition WALLET_KEY : string := "creata_wallet".
Definition ACCOUNTS_KEY : string := "creata_accounts".
Definition CURRENT_ACCOUNT_KEY : string := "creata_current_account".

(** The error of the [catch] clause of [loadWallet]. *)
Definition load_error : JSError :=
  Error "Failed to load wallet. Incorrect password or corrupted data.".

(** The error of the [catch] clause of [importFromMnemonic]. *)
Definition import_error : JSError := Error "Invalid mnemonic phrase".

Section Keys.

Context {wc : WebCrypto} {lib : Library}.

(** The paths both [generateWallet] and [importFromMnemonic] give to the
    library. *)
Definition keyring_paths : list HdPath := [stringToPath (js "m/44'/60'/0'/0/0")].

(** [generateWallet(strength = 256)]. *)
Definition generateWallet (rng : RandomSource) (strength : option N)
  : outcome (Wallet Account) :=
  let strength := default 256 strength in
  try_catch
    (await
       (settle (generate rng 24
                  {| prefix := js "creata";
                     hdPaths := [stringToPath (js "m/44'/60'/0'/0/0")] |}))
       (fun wallet => Resolved wallet))
    (fun _ => Rejected (Error "Wallet generation failed")).

(** [importFromMnemonic(mnemonic)]. *)
Definition importFromMnemonic (mnemonic : jsstring) : outcome (Wallet Account) :=
  try_catch
    (await
       (settle (fromMnemonic mnemonic
                  {| prefix := js "creata";
                     hdPaths := [stringToPath (js "m/44'/60'/0'/0/0")] |}))
       (fun wallet => Resolved wallet))
    (fun _ => Rejected import_error).

(** [loadWallet(password)]. *)
Definition loadWallet (chrome : Chrome.env) (password : option jsstring)
  : outcome (Wallet Account) :=
  try_catch
    (await (getData chrome WALLET_KEY true password)
       (fun serialized =>
          if negb (truthy serialized)
          then Rejected (Error "No wallet found in storage")
          else
            await (settle (deserialize serialized password))
              (fun wallet => Resolved wallet)))
    (fun _ => Rejected load_error).

(** [hasWallet()]. *)
Definition hasWallet (chrome : Chrome.env) : outcome bool :=
  try_catch
    (await (getData chrome WALLET_KEY false None)
       (fun serialized => Resolved (truthy serialized)))
    (fun _ => Resolved false).

End Keys.

Section Calls.

Import Browser.

Context {wc : WebCrypto} {numbers : NumberText} {lib : Library}
        {methods : WalletMethods lib}.

(** [importFromPrivateKey(privateKey)]. *)
Definition importFromPrivateKey (privateKey : jsstring) : outcome (Wallet Account) :=
  try_catch
    (Rejected (Error "Import from private key not implemented yet"))
    (fun error => Rejected error).

(** [Buffer.from(bytes).toString('hex')]. *)
Definition hex_of_bytes (bytes : list byte) : jsstring :=
  flat_map (fun b => [hex_char (Byte.to_N b / 16); hex_char (Byte.to_N b mod 16)]) bytes.

(** An element of [accountsInfo]. *)
Definition account_info (acc : Account) : JSValue :=
  JObject [(js "address", JString (account_address acc));
           (js "algo", JString (account_algo acc));
           (js "pubkey", JString (hex_of_bytes (account_pubkey acc)))].

(** [storeWallet(wallet, password)]; [wallet.getAccounts()] lists the
    accounts of the wallet. *)
Definition storeWallet (wallet : Wallet Account) (password : jsstring) : task unit :=
  catch
    (let* serialized := lift (serialize wallet password) in
     let* _ := saveData WALLET_KEY (JString serialized) true (Some password) in
     let accounts := HdWallet.accounts wallet in
     let accountsInfo := map account_info accounts in
     let* _ := saveData ACCOUNTS_KEY (JArray accountsInfo) true (Some password) in
     match accounts with
     | first :: _ =>
         saveData CURRENT_ACCOUNT_KEY (JString (account_address first)) true
           (Some password)
     | [] => ret tt
     end)
    (fun _ => throw (Error "Failed to securely store wallet")).

(** [getAccounts(password)]. *)
Definition getAccounts (chrome : Chrome.env) (password : option jsstring)
  : outcome JSValue :=
  try_catch (getData chrome ACCOUNTS_KEY true password) (fun error => Rejected error).

(** [getCurrentAccount(password)]. *)
Definition getCurrentAccount (chrome : Chrome.env) (password : option jsstring)
  : outcome JSValue :=
  try_catch (getData chrome CURRENT_ACCOUNT_KEY true password)
    (fun error => Rejected error).

(** [setCurrentAccount(address, password)]. *)
Definition setCurrentAccount (address : jsstring) (password : option jsstring)
  : task unit :=
  catch (saveData CURRENT_ACCOUNT_KEY (JString address) true password)
    (fun error => throw error).

(** [removeWallet()]. *)
Definition removeWallet : task unit :=
  catch
    (let* _ := removeData WALLET_KEY in
     let* _ := removeData ACCOUNTS_KEY in
     removeData CURRENT_ACCOUNT_KEY)
    (fun error => throw error).

End Calls.

End Keyring.

(** ** [src/utils/helpers.js] *)

Module Helpers.

(** [s.startsWith(literal)]. *)
Fixpoint startsWith (s literal : jsstring) : bool :=
  match literal, s with
  | [], _ => true
  | l :: literal', c :: rest => (c =? l) && startsWith rest literal'
  | _ :: _, [] => false
  end.

(** [isValidAddress(address)]. *)
Definition isValidAddress (address : jsstring) : bool :=
  if Nat.eqb (length address) 0 then false
  else startsWith address (js "creata") && Nat.eqb (length address) 44.

(** The white space of [String.prototype.trim] and of [\s]. *)
Definition is_whitespace (c : N) : bool :=
  ((9 <=? c) && (c <=? 13)) || (c =? 32) || (c =? 0xA0) || (c =? 0x1680)
  || ((0x2000 <=? c) && (c <=? 0x200A)) || (c =? 0x2028) || (c =? 0x2029)
  || (c =? 0x202F) || (c =? 0x205F) || (c =? 0x3000) || (c =? 0xFEFF).

Fixpoint trimStart (s : jsstring) : jsstring :=
  match s with
  | c :: rest => if is_whitespace c then trimStart rest else s
  | [] => []
  end.

(** [s.trim()]. *)
Definition trim (s : jsstring) : jsstring := rev (trimStart (rev (trimStart s))).

(** [s.split(/\s+/)]: [in_space] tells that the white space before is
    already a separator, [word] is the piece being read. *)
Fixpoint split_whitespace (in_space : bool) (word s : jsstring) : list jsstring :=
  match s with
  | [] => [word]
  | c :: rest =>
      if is_whitespace c then
        if in_space then split_whitespace true word rest
        else word :: split_whitespace true [] rest
      else split_whitespace false (word ++ [c]) rest
  end.

(** [isValidMnemonic(mnemonic)]. *)
Definition isValidMnemonic (mnemonic : jsstring) : bool :=
  if Nat.eqb (length mnemonic) 0 then false
  else
    let words := split_whitespace false [] (trim mnemonic) in
    HdWallet.includes [12; 15; 18; 21; 24]%nat (length words).

(** Whether a string read from the state [in_space] ends in white space. *)
Fixpoint ends_in_space (in_space : bool) (s : jsstring) : bool :=
  match s with
  | [] => in_space
  | c :: rest => ends_in_space (is_whitespace c) rest
  end.

(** The words of a phrase, counted: the runs of characters that are not
    white space; [in_space] tells that no word is being read. *)
Fixpoint count_words (in_space : bool) (s : jsstring) : nat :=
  match s with
  | [] => 0
  | c :: rest =>
      if is_whitespace c then count_words true rest
      else ((if in_space then 1 else 0) + count_words false rest)%nat
  end.

(** *** Addresses *)

(** An index of [slice] or [substr] that counts from the end when it is
    negative, brought into the string. *)
Definition relative_index (len index : Z) : Z :=
  if (index <? 0)%Z then Z.max (len + index) 0 else Z.min index len.

(** [s.slice(start, end)]; [s.slice(start)] when there is no [end]. *)
Definition slice (s : jsstring) (start : Z) (finish : option Z) : jsstring :=
  let len := Z.of_nat (length s) in
  let from := relative_index len start in
  let to := match finish with
            | Some e => relative_index len e
            | None => len
            end in
  firstn (Z.to_nat (to - from)) (skipn (Z.to_nat from) s).

(** [s.substr(start)]. *)
Definition substr (s : jsstring) (start : Z) : jsstring :=
  skipn (Z.to_nat (relative_index (Z.of_nat (length s)) start)) s.

(** [truncateAddress(address, startChars = 6, endChars = 4)], for
    counts that are integers. *)
Definition truncateAddress (address : jsstring) (startChars endChars : Z) : jsstring :=
  if Nat.eqb (length address) 0 then []
  else if (Z.of_nat (length address) <=? startChars + endChars)%Z then address
  else slice address 0 (Some startChars) ++ js "..." ++ slice address (- endChars) None.

(** *** Colours *)

(** [ToInt32]: the integer modulo [2^32], as a signed number. *)
Definition ToInt32 (x : Z) : Z :=
  let m := (x mod 2 ^ 32)%Z in
  if (m >=? 2 ^ 31)%Z then (m - 2 ^ 32)%Z else m.

(** [x << n]. *)
Definition shift_left (x n : Z) : Z := ToInt32 (ToInt32 x * 2 ^ (n mod 32)).

(** [x >> n]. *)
Definition shift_right (x n : Z) : Z := (ToInt32 x / 2 ^ (n mod 32))%Z.

(** [x & y]. *)
Definition bit_and (x y : Z) : Z := Z.land (ToInt32 x) (ToInt32 y).

(** The hexadecimal digits of [n] before [digits]. *)
Fixpoint hex_digits (fuel : nat) (n : N) (digits : jsstring) : jsstring :=
  match fuel with
  | O => digits
  | S fuel' =>
      let digits' := JSON.hex_char (n mod 16) :: digits in
      if n / 16 =? 0 then digits' else hex_digits fuel' (n / 16) digits'
  end.

(** [n.toString(16)] for an integer that is not negative. *)
Definition toString16 (n : N) : jsstring := hex_digits (S (N.size_nat n)) n [].

(** The [hash] of the first loop of [generateColorFromString]. It is a
    Number: the sums below are those of the code as long as they stay
    below [2^53], where the arithmetic of doubles is exact. *)
Definition string_hash (input : jsstring) : Z :=
  fold_left (fun hash c => (Z.of_N c + (shift_left hash 5 - hash))%Z) input 0%Z.

(** [generateColorFromString(input)]. *)
Definition generateColorFromString (input : jsstring) : jsstring :=
  if Nat.eqb (length input) 0 then js "#000000"
  else
    let hash := string_hash input in
    fold_left
      (fun color i =>
         let value := bit_and (shift_right hash (i * 8)) 0xFF in
         color ++ substr (js "00" ++ toString16 (Z.to_N value)) (-2))
      [0; 1; 2]%Z (js "#").

(** The hash of a string with multiplier 31, as an integer. *)
Definition polynomial_hash (input : jsstring) : Z :=
  fold_left (fun hash c => (31 * hash + Z.of_N c)%Z) input 0%Z.

(** The two hexadecimal digits of a byte. *)
Definition hex_byte (value : Z) : jsstring :=
  [JSON.hex_char (Z.to_N (value / 16)); JSON.hex_char (Z.to_N (value mod 16))].

(** *** Retrying *)

(** The delays waited for after [count] failures from [attempt] on, the
    last one first: each is twice the one before. *)
Definition delays_waited (baseDelay : Z) (attempt count : nat) : list Z :=
  map (fun k => (baseDelay * 2 ^ Z.of_nat (attempt + k))%Z) (rev (seq 0 count)).

(** How a call made by [withRetry] ends: with what [fn] returned, with
    the error [fn] threw last ([undefined] when [fn] was not called), or
    never. *)
Inductive retried (A : Type) : Type :=
| Returned (value : A)
| GaveUp (lastError : option JSError)
| Waiting.

Arguments Returned {A} value.
Arguments GaveUp {A} lastError.
Arguments Waiting {A}.

Section Retry.

(** What [fn] works on, and the value it returns. *)
Context {World A : Type}.

(** The loop of [withRetry], from [attempt] on, with [count] rounds to
    go: how it ends, the world it leaves, and the delays it has waited
    for, the last one first. *)
Fixpoint retry_from (fn : World -> outcome A * World) (baseDelay : Z)
    (count attempt : nat) (lastError : option JSError) (world : World)
    (delays : list Z) : retried A * World * list Z :=
  match count with
  | O => (GaveUp lastError, world, delays)
  | S count' =>
      match fn world with
      | (Resolved a, world') => (Returned a, world', delays)
      | (Rejected error, world') =>
          let delay := (baseDelay * 2 ^ Z.of_nat attempt)%Z in
          retry_from fn baseDelay count' (S attempt) (Some error) world'
            (delay :: delays)
      | (Pending, world') => (Waiting, world', delays)
      end
  end.

(** [withRetry(fn, maxRetries = 3, baseDelay = 1000)(...args)], for a
    number of retries that is an integer: [fn] stands for [fn(...args)]. *)
Definition withRetry (fn : World -> outcome A * World) (maxRetries baseDelay : Z)
    (world : World) : retried A * World * list Z :=
  retry_from fn baseDelay (Z.to_nat maxRetries) 0 None world [].

(** [fn] called [count] times in a row, failing each time: the errors
    it threw, and the world it left. *)
Fixpoint failures (fn : World -> outcome A * World) (count : nat) (world : World)
  : option (list JSError * World) :=
  match count with
  | O => Some ([], world)
  | S count' =>
      match fn world with
      | (Rejected error, world') =>
          match failures fn count' world' with
          | Some (errors, world_left) => Some (error :: errors, world_left)
          | None => None
          end
      | _ => None
      end
  end.

End Retry.

End Helpers.

(** ** [src/popup/components/ImportWallet.js]: the phrase the form imports *)

Module ImportWallet.

Import Helpers.

(** [String.prototype.toLowerCase] on a string that is not all ASCII. *)
Class Unicode : Type := {
  lower_case : list N -> list N
}.

Definition ascii_lower (c : N) : N :=
  if (65 <=? c) && (c <=? 90) then c + 32 else c.

(** [s.toLowerCase()]. *)
Definition toLowerCase {unicode : Unicode} (s : jsstring) : jsstring :=
  if forallb (fun c => c <? 128) s then map ascii_lower s else lower_case s.

(** [s.replace(/\s+/g, ' ')]: [in_space] tells that the white space before
    is already replaced. *)
Fixpoint replace_whitespace (in_space : bool) (s : jsstring) : jsstring :=
  match s with
  | [] => []
  | c :: rest =>
      if is_whitespace c then
        if in_space then replace_whitespace true rest
        else 32 :: replace_whitespace true rest
      else c :: replace_whitespace false rest
  end.

(** [cleanedMnemonic] of [handleImportWallet]: what the form passes to
    [importFromMnemonic]. *)
Definition cleanedMnemonic {unicode : Unicode} (mnemonic : jsstring) : jsstring :=
  replace_whitespace false (toLowerCase (trim mnemonic)).

(** [validateForm] sets no error on the phrase. *)
Definition mnemonic_validated (mnemonic : jsstring) : bool :=
  negb (Nat.eqb (length (trim mnemonic)) 0) && isValidMnemonic (trim mnemonic).

(** A character of the phrase in lower case, before its white space is
    replaced: a lower case letter or white space. *)
Definition lowered (c : N) : bool := HdWallet.is_lower c || is_whitespace c.

(** A phrase typed with the letters of ASCII and white space of ASCII. *)
Definition typed_plainly (mnemonic : jsstring) : bool :=
  forallb (fun c => (c <? 128)
                    && (((65 <=? c) && (c <=? 90)) || ((97 <=? c) && (c <=? 122))
                        || is_whitespace c))
          mnemonic.

(** The state of the component. *)
Record Form : Type := {
  form_mnemonic : jsstring;
  form_password : jsstring;
  form_confirmPassword : jsstring;
  form_loading : bool;
  form_error : option string;
  form_mnemonicError : option string;
  form_passwordError : option string
}.

(** The error [validateForm] sets on the phrase, if any. *)
Definition mnemonic_error (mnemonic : jsstring) : option string :=
  if Nat.eqb (length (trim mnemonic)) 0 then Some "Recovery phrase is required"%string
  else if negb (isValidMnemonic (trim mnemonic))
  then Some "Invalid recovery phrase format. Please enter a valid 12/15/18/21/24-word phrase"%string
  else None.

(** The error [validateForm] sets on the password, if any. *)
Definition password_error (password confirmPassword : jsstring) : option string :=
  if Nat.eqb (length password) 0 then Some "Password is required"%string
  else if (length password <? 8)%nat
  then Some "Password must be at least 8 characters long"%string
  else if negb (bool_decide (password = confirmPassword))
  then Some "Passwords do not match"%string
  else None.

(** [validateForm()]: whether the form is valid, and the state with the
    errors it has set. *)
Definition validateForm (st : Form) : bool * Form :=
  let mnemonicError := mnemonic_error (form_mnemonic st) in
  let passwordError := password_error (form_password st) (form_confirmPassword st) in
  (match mnemonicError, passwordError with
   | None, None => true
   | _, _ => false
   end,
   {| form_mnemonic := form_mnemonic st;
      form_password := form_password st;
      form_confirmPassword := form_confirmPassword st;
      form_loading := form_loading st;
      form_error := form_error st;
      form_mnemonicError :=
        match mnemonicError with
        | Some e => Some e
        | None => form_mnemonicError st
        end;
      form_passwordError :=
        match passwordError with
        | Some e => Some e
        | None => form_passwordError st
        end |}).

(** The state with [loading] and [error] set. *)
Definition shown (loading : bool) (error : option string) (st : Form) : Form :=
  {| form_mnemonic := form_mnemonic st;
     form_password := form_password st;
     form_confirmPassword := form_confirmPassword st;
     form_loading := loading;
     form_error := error;
     form_mnemonicError := form_mnemonicError st;
     form_passwordError := form_passwordError st |}.

Section Handler.

Context {wc : WebCrypto} {numbers : JSON.NumberText} {lib : HdWallet.Library}
        {methods : HdWallet.WalletMethods lib} {unicode : Unicode}.

(** [handleImportWallet()]: the state it leaves, whether it has called
    [onSuccess], and the browser after it. While a promise it awaits is
    not settled, the component keeps loading. *)
Definition handleImportWallet (st : Form) (b : Browser.browser)
  : Form * bool * Browser.browser :=
  let '(isValid, st1) := validateForm st in
  if negb isValid then (shown false (form_error st1) st1, false, b)
  else
    let cleaned := cleanedMnemonic (form_mnemonic st) in
    match (let* wallet := Browser.lift (Keyring.importFromMnemonic cleaned) in
           Keyring.storeWallet wallet (form_password st)) b with
    | (Resolved _, b') => (shown false None st1, true, b')
    | (Rejected _, b') =>
        (shown false
           (Some "Failed to import wallet. Please check your recovery phrase and try again."%string)
           st1, false, b')
    | (Pending, b') => (shown true None st1, false, b')
    end.

End Handler.

End ImportWallet.

(** ** [src/popup/components/Login.js] *)

Module Login.

(** The state of the component that [handleLogin] reads and sets. *)
Record LoginState : Type := {
  password : jsstring;
  loading : bool;
  error : option string;
  attempts : nat
}.

Section Handler.

Context {wc : WebCrypto} {lib : HdWallet.Library}.

(** [handleLogin()]: the state it leaves, and whether it has called
    [onLogin]. *)
Definition handleLogin (chrome : Chrome.env) (st : LoginState) : LoginState * bool :=
  if Nat.eqb (length (password st)) 0 then
    ({| password := password st; loading := loading st;
        error := Some "Password is required"%string; attempts := attempts st |},
     false)
  else
    match Keyring.loadWallet chrome (Some (password st)) with
    | Resolved _ =>
        ({| password := password st; loading := false; error := None;
            attempts := attempts st |}, true)
    | Rejected _ =>
        ({| password := password st; loading := false;
            error := if (2 <=? attempts st)%nat
                     then Some "Wrong password. Please try again or reset your wallet."%string
                     else Some "Wrong password. Please try again."%string;
            attempts := S (attempts st) |}, false)
    | Pending =>
        ({| password := password st; loading := true; error := None;
            attempts := attempts st |}, false)
    end.

End Handler.

End Login.

(** ** [src/popup/components/CreateWallet.js] *)

Module CreateWallet.

(** What [handleCreateWallet] and the effect of the first render read
    and set of the state of the component: the phrase it shows, the
    password, and what it tells. *)
Record CreateWalletState : Type := {
  mnemonic : jsstring;
  password : jsstring;
  loading : bool;
  error : option string
}.

Section Handlers.

Context {wc : WebCrypto} {numbers : JSON.NumberText} {lib : HdWallet.Library}
        {methods : HdWallet.WalletMethods lib}.

(** A call of [generateWallet()]: it draws the 32 bytes of the entropy
    of 24 words. *)
Definition generateWallet_call : Browser.task (HdWallet.Wallet HdWallet.Account) :=
  fun b => (Keyring.generateWallet (Browser.random b) None, Browser.drawn 32 b).

(** [createWallet()], the effect of the first render: it shows the
    phrase of a wallet it generates. *)
Definition createWallet (st : CreateWalletState) (b : Browser.browser)
  : CreateWalletState * Browser.browser :=
  match generateWallet_call b with
  | (Resolved wallet, b') =>
      ({| mnemonic := HdWallet.mnemonic wallet; password := password st;
          loading := false; error := error st |}, b')
  | (Rejected _, b') =>
      ({| mnemonic := mnemonic st; password := password st; loading := false;
          error := Some "Failed to generate wallet. Please try again."%string |}, b')
  | (Pending, b') =>
      ({| mnemonic := mnemonic st; password := password st; loading := true;
          error := error st |}, b')
  end.

(** [handleCreateWallet()]: the state it leaves, whether it has called
    [onSuccess], and the browser after it. *)
Definition handleCreateWallet (st : CreateWalletState) (b : Browser.browser)
  : CreateWalletState * bool * Browser.browser :=
  match (let* wallet := generateWallet_call in
         Keyring.storeWallet wallet (password st)) b with
  | (Resolved _, b') =>
      ({| mnemonic := mnemonic st; password := password st; loading := false;
          error := error st |}, true, b')
  | (Rejected _, b') =>
      ({| mnemonic := mnemonic st; password := password st; loading := false;
          error := Some "Failed to create wallet. Please try again."%string |},
       false, b')
  | (Pending, b') =>
      ({| mnemonic := mnemonic st; password := password st; loading := true;
          error := error st |}, false, b')
  end.

End Handlers.

End CreateWallet.

(** ** [src/popup/components/Receive.js] *)

Module Receive.

(** What [loadAddress] sets of the state of the component. *)
Record ReceiveState : Type := {
  address : JSON.JSValue;
  loading : bool;
  error : option string
}.

(** [chrome.storage.local.get([key])] as a promise: the item under the
    key, if there is one. *)
Definition storage_get (key : string) : Browser.task (option (list N)) :=
  fun b =>
    (match Browser.next_report b with
     | Some e => Rejected (LastError e)
     | None => Resolved (Browser.items b !! key)
     end,
     {| Browser.items := Browser.items b; Browser.reports := tl (Browser.reports b);
        Browser.random := Browser.random b |}).

(** A call of [getCurrentAccount(password)]: a call of the storage. *)
Definition getCurrentAccount_call {wc : WebCrypto} (password : jsstring)
  : Browser.task JSON.JSValue :=
  fun b =>
    (Keyring.getCurrentAccount (Browser.env_of b) (Some password),
     {| Browser.items := Browser.items b; Browser.reports := tl (Browser.reports b);
        Browser.random := Browser.random b |}).

(** [loadAddress()], the effect of the first render. The password is
    the item [creata_session] of the storage, or the empty string. *)
Definition loadAddress {wc : WebCrypto} (st : ReceiveState) (b : Browser.browser)
  : ReceiveState * Browser.browser :=
  match (let* sessionData := storage_get "creata_session" in
         let password := match sessionData with
                         | Some session =>
                             if Nat.eqb (length session) 0 then [] else session
                         | None => []
                         end in
         getCurrentAccount_call password) b with
  | (Resolved currentAccount, b') =>
      ({| address := currentAccount; loading := false; error := error st |}, b')
  | (Rejected _, b') =>
      ({| address := address st; loading := false;
          error := Some "Failed to load wallet address. Please try again."%string |}, b')
  | (Pending, b') =>
      ({| address := address st; loading := true; error := error st |}, b')
  end.

End Receive.

(** ** [src/popup/App.js]: the page the popup opens on *)

Module App.

(** The state of the component that [checkWallet] sets. *)
Record AppState : Type := {
  initialized : bool;
  loading : bool;
  currentPage : string;
  error : option string
}.

(** The state of the first render. *)
Definition first_render : AppState :=
  {| initialized := false; loading := true; currentPage := "welcome"; error := None |}.

(** [checkWallet()], the effect of the first render. While the promise
    of [hasWallet] is not settled, the component keeps loading. *)
Definition checkWallet {wc : WebCrypto} {lib : HdWallet.Library} (chrome : Chrome.env)
    (st : AppState) : AppState :=
  match Keyring.hasWallet chrome with
  | Resolved walletExists =>
      {| initialized := walletExists; loading := false;
         currentPage := if walletExists then "login" else "welcome";
         error := error st |}
  | Rejected _ =>
      {| initialized := initialized st; loading := false;
         currentPage := currentPage st;
         error := Some "Failed to initialize wallet"%string |}
  | Pending =>
      {| initialized := initialized st; loading := true;
         currentPage := currentPage st; error := error st |}
  end.

End App.

(** ** [src/background/index.js]: the session state machine *)

Module Background.

Open Scope Z_scope.

(** The [state] object of the background script. *)
Record State : Type := {
  isUnlocked : bool;
  network : string;
  lastActivity : Z
}.

(** [state] at the start of the script, [now] being [Date.now()]. *)
Definition initial (now : Z) : State :=
  {| isUnlocked := false; network := "mainnet"; lastActivity := now |}.

Definition SESSION_TIMEOUT : Z := 30 * 60 * 1000.

(** The delay of [setInterval]. *)
Definition CHECK_INTERVAL : Z := 60000.

(** A message: its [type] and its [network] field, when they are strings. *)
Record Message : Type := {
  type : option string;
  msg_network : option string
}.

(** What the listener passes to [sendResponse]. *)
Record Response : Type := {
  success : bool;
  state : option State;
  error : option string;
  address : option string
}.

Definition respond (ok : bool) : Response :=
  {| success := ok; state := None; error := None; address := None |}.

Definition equals (s : option string) (literal : string) : bool :=
  match s with
  | Some t => String.eqb t literal
  | None => false
  end.

(** The listener of [chrome.runtime.onMessage], called at time [now]. *)
Definition onMessage (now : Z) (message : Message) (st : State) : State * Response :=
  let st := {| isUnlocked := isUnlocked st; network := network st;
               lastActivity := now |} in
  if equals (type message) "GET_STATE" then
    (st, {| success := true; state := Some st; error := None; address := None |})
  else if equals (type message) "UNLOCK_WALLET" then
    ({| isUnlocked := true; network := network st; lastActivity := lastActivity st |},
     respond true)
  else if equals (type message) "LOCK_WALLET" then
    ({| isUnlocked := false; network := network st; lastActivity := lastActivity st |},
     respond true)
  else if equals (type message) "SWITCH_NETWORK" then
    match msg_network message with
    | Some n =>
        if negb (String.eqb n "") && (String.eqb n "mainnet" || String.eqb n "testnet")
        then ({| isUnlocked := isUnlocked st; network := n;
                 lastActivity := lastActivity st |}, respond true)
        else (st, {| success := false; state := None;
                     error := Some "Invalid network"; address := None |})
    | None => (st, {| success := false; state := None;
                      error := Some "Invalid network"; address := None |})
    end
  else if equals (type message) "CONNECT_SITE" then
    (st, {| success := true; state := None; error := None;
            address := Some "creata12345..." |})
  else
    (st, {| success := false; state := None;
            error := Some "Unknown message type"; address := None |}).

(** The callback of [setInterval], called at time [now]. *)
Definition sessionTimeoutCheck (now : Z) (st : State) : State :=
  if isUnlocked st && (now - lastActivity st >? SESSION_TIMEOUT)
  then {| isUnlocked := false; network := network st; lastActivity := lastActivity st |}
  else st.

(** What the background posts on a port. *)
Record PortMessage : Type := {
  port_type : string;
  port_accounts : option (list string);
  port_error : option string
}.

(** The listener of the messages of a port named ['content-script']:
    the state after the message, and what is posted on the port. *)
Definition onPortMessage (message : Message) (st : State) : State * list PortMessage :=
  if equals (type message) "REQUEST_ACCOUNTS" then
    if isUnlocked st
    then (st, [{| port_type := "ACCOUNTS_RESPONSE";
                  port_accounts := Some ["creata12345..."%string];
                  port_error := None |}])
    else (st, [{| port_type := "ERROR"; port_accounts := None;
                  port_error := Some "Wallet is locked" |}])
  else (st, []).

(** The listener of [chrome.runtime.onConnect]: the listener it adds to
    the port, if any. *)
Definition onConnect (port_name : string)
  : option (Message -> State -> State * list PortMessage) :=
  if String.eqb port_name "content-script" then Some onPortMessage else None.

(** What happens to the background script. *)
Inductive Event : Type :=
| RuntimeMessage (now : Z) (message : Message)
| PortRequest (port_name : string) (message : Message)
| TimerTick (now : Z).

Definition step (st : State) (ev : Event) : State :=
  match ev with
  | RuntimeMessage now message => fst (onMessage now message st)
  | PortRequest port_name message =>
      match onConnect port_name with
      | Some listener => fst (listener message st)
      | None => st
      end
  | TimerTick now => sessionTimeoutCheck now st
  end.

Definition run (st : State) (events : list Event) : State := fold_left step events st.

(** The first [n] calls of the timer of a script started at time [start]. *)
Definition timer_ticks (start : Z) (n : nat) : list Event :=
  map (fun k => TimerTick (start + Z.of_nat k * CHECK_INTERVAL)) (seq 1 n).

End Background.

(** ** [src/contentscript/index.js]: the content script and the provider
       it injects into the page *)

Module ContentScript.

Import JSON.

(** [object[key]] in the properties of an object; [None] is
    [undefined]. *)
Fixpoint property (key : jsstring) (members : list (jsstring * JSValue))
  : option JSValue :=
  match members with
  | [] => None
  | (k, v) :: rest => if bool_decide (k = key) then Some v else property key rest
  end.

(** [value[key]] where it does not throw: a value that is no object
    has no such property. *)
Definition get (key : string) (value : JSValue) : option JSValue :=
  match value with
  | JObject members => property (js key) members
  | _ => None
  end.

(** [value === text] for a string [text]. *)
Definition is_the_string (value : option JSValue) (text : jsstring) : bool :=
  match value with
  | Some (JString s) => bool_decide (s = text)
  | _ => false
  end.

(** The object of a message the background posts on the port:
    [{ type, accounts }] or [{ type, error }]. *)
Definition port_object (m : Background.PortMessage) : JSValue :=
  JObject
    ((js "type", JString (js (Background.port_type m)))
     :: match Background.port_accounts m with
        | Some accounts =>
            [(js "accounts", JArray (map (fun a => JString (js a)) accounts))]
        | None => []
        end
     ++ match Background.port_error m with
        | Some e => [(js "error", JString (js e))]
        | None => []
        end).

(** The listener of the port in the content script: the data of the
    message it posts to the page. *)
Definition onBackgroundMessage (message : JSValue) : JSValue :=
  JObject [(js "type", JString (js "CREATA_WALLET_RESPONSE")); (js "message", message)].

(** The data of the message [requestAccounts] posts to the page. *)
Definition request (requestId : jsstring) : JSValue :=
  JObject [(js "type", JString (js "CREATA_WALLET_REQUEST"));
           (js "message",
            JObject [(js "type", JString (js "REQUEST_ACCOUNTS"));
                     (js "requestId", JString requestId)])].

(** How the promise of [requestAccounts] is settled. *)
Inductive settled : Type :=
| Accounts (accounts : option JSValue)
| Refused (error : JSValue)
| TimedOut.

(** [handleResponse] of [requestAccounts] on the data of a message of
    the window: how it settles the promise, if it does. *)
Definition handleResponse (requestId : jsstring) (data : JSValue) : option settled :=
  if is_the_string (get "type" data) (js "CREATA_WALLET_RESPONSE")
     && is_the_string (match get "message" data with
                 | Some message => get "requestId" message
                 | None => None
                 end) requestId
  then
    match get "message" data with
    | Some message =>
        match get "error" message with
        | Some error =>
            if truthy error then Some (Refused error)
            else Some (Accounts (get "accounts" message))
        | None => Some (Accounts (get "accounts" message))
        end
    | None => None
    end
  else None.

(** The promise of [requestAccounts] with the given request id, the
    window receiving the messages [events] in the thirty seconds before
    [Request timeout]: the first message [handleResponse] takes settles
    it. *)
Fixpoint requestAccounts (requestId : jsstring) (events : list JSValue) : settled :=
  match events with
  | [] => TimedOut
  | data :: later =>
      match handleResponse requestId data with
      | Some outcome => outcome
      | None => requestAccounts requestId later
      end
  end.

(** The messages the window receives for a request: the request itself,
    then what the content script makes of each answer of the background
    to the message on the port. *)
Definition window_messages (requestId : jsstring) (message : Background.Message)
    (st : Background.State) : list JSValue :=
  request requestId
    :: map (fun answer => onBackgroundMessage (port_object answer))
         (snd (Background.onPortMessage message st)).

End ContentScript.

(** ** A small instance of the interfaces

    Stand-ins for the primitives and for the library, enough to meet
    [WebCryptoCorrect] and [LibraryCorrect]: they show that what the
    theorems below assume can be had. The tag of the cipher is made of the
    first bytes of the key and of the vector; the phrase of some entropy
    repeats one word. *)

Module Standin.

Definition digest (message : list byte) : list byte :=
  firstn 32 (message ++ repeat x00 32).

Definition tag (key iv : list byte) : list byte :=
  firstn 16 (key ++ iv ++ repeat x00 16).

Definition seal (key iv plaintext : list byte) : list byte :=
  tag key iv ++ plaintext.

Fixpoint same_bytes (x y : list byte) : bool :=
  match x, y with
  | [], [] => true
  | a :: x', b :: y' => Byte.eqb a b && same_bytes x' y'
  | _, _ => false
  end.

Definition unseal (key iv data : list byte) : option (list byte) :=
  if same_bytes (firstn 16 data) (tag key iv) then Some (skipn 16 data) else None.

Definition crypto : WebCrypto :=
  {| SHA256 := digest; AES_GCM_encrypt := seal; AES_GCM_decrypt := unseal |}.

(** A second stand-in, for a cipher that rejects what was encrypted
    under another key: the key is written before the data, a byte one
    before each of its bytes and a byte zero after the last. With its
    hash, the chained values of PBKDF2 get shorter by two bytes at each
    round, and the derived key is the exclusive or of the first sixteen. *)
Definition fading (message : list byte) : list byte :=
  if Nat.eqb (length message) 84 then firstn 32 message
  else skipn 65 message ++ [x00].

Definition frame (key : list byte) : list byte :=
  flat_map (fun b => [x01; b]) key ++ [x00].

Definition seal_keyed (key iv plaintext : list byte) : list byte :=
  frame key ++ plaintext.

Definition unseal_keyed (key iv data : list byte) : option (list byte) :=
  if same_bytes (firstn (length (frame key)) data) (frame key)
  then Some (skipn (length (frame key)) data)
  else None.

Definition keyed : WebCrypto :=
  {| SHA256 := fading; AES_GCM_encrypt := seal_keyed; AES_GCM_decrypt := unseal_keyed |}.

(** [count] times the word [a], with a space between two of them. *)
Fixpoint phrase (count : nat) : jsstring :=
  match count with
  | O => []
  | 1%nat => [97]
  | S n => 97 :: 32 :: phrase n
  end.

Definition library : HdWallet.Library :=
  {| HdWallet.wordlist := [[97]];
     HdWallet.checksum_ok := fun _ => true;
     HdWallet.Bip39_encode := fun entropy => phrase (3 * length entropy / 4);
     HdWallet.HdPath := list N;
     HdWallet.stringToPath := fun path => path;
     HdWallet.Account := list N;
     HdWallet.derive := fun mnemonic paths prefix => [prefix ++ mnemonic];
     HdWallet.deserialize := fun _ _ => Throw (Error "Unsupported serialization");
     HdWallet.beyond_ascii := fun _ => Throw (Error "Invalid mnemonic format");
     HdWallet.refusal := fun _ => Error "Invalid mnemonic" |}.

(** Lower case beyond ASCII: nothing changes. *)
Definition unicode : ImportWallet.Unicode :=
  {| ImportWallet.lower_case := fun s => s |}.

(** Random bytes that are all zero, and random bytes that are all one. *)
Definition zeros : RandomSource := fun _ => x00.
Definition ones : RandomSource := fun _ => x01.

(** A wallet record as it is stored: the Base64 text of 44 bytes. *)
Definition stored_record : jsstring :=
  js "AAECAwQFBgcICQoLDA0ODxAREhMUFRYXGBkaGxwdHh8gISIjJCUmJygpKis=".

(** The text of a number: always the digit zero. *)
Definition numbers : JSON.NumberText :=
  {| JSON.SerializeJSONNumber := fun _ => js "0" |}.

(** A browser with nothing stored, where no call of the storage fails
    and the random bytes are all zero. *)
Definition fresh : Browser.browser :=
  {| Browser.items := ∅; Browser.reports := []; Browser.random := zeros |}.

(** The phrase of some entropy in a library with two words: the first
    word tells whether the first byte is zero, the others are [a]. *)
Definition phrase_of (entropy : list byte) : jsstring :=
  match entropy with
  | first :: _ =>
      (if Byte.eqb first x00 then 97 else 98)
        :: 32 :: phrase (3 * length entropy / 4 - 1)
  | [] => []
  end.

(** The lines of a text, each ended by a line feed; [line] is the line
    being read. *)
Fixpoint lines (line text : jsstring) : list jsstring :=
  match text with
  | [] => []
  | c :: rest =>
      if c =? 10 then line :: lines [] rest else lines (line ++ [c]) rest
  end.

(** A wallet written as lines: the phrase, then the address of each
    account. *)
Definition write_wallet (wallet : HdWallet.Wallet (list byte)) (password : jsstring)
  : outcome jsstring :=
  let texts := HdWallet.mnemonic wallet
               :: map Base64.String_fromCharCode (HdWallet.accounts wallet) in
  if forallb (forallb (fun c => (c <? 65536) && negb (c =? 10))) texts
  then Resolved (flat_map (fun t => t ++ [10]) texts)
  else Rejected (Error "Unsupported wallet").

Definition read_wallet (serialization : JSON.JSValue) (password : option (list N))
  : result (HdWallet.Wallet (list byte)) :=
  match serialization with
  | JSON.JString text =>
      match lines [] text with
      | phrase :: addresses =>
          Ok {| HdWallet.mnemonic := phrase;
                HdWallet.accounts := map Base64.Uint8Array_from addresses |}
      | [] => Throw (Error "Unsupported serialization")
      end
  | _ => Throw (Error "Unsupported serialization")
  end.

(** A library with the words [a] and [b], whose wallets can be written
    and read; the one account of a phrase has the prefix as its address. *)
Definition vault_library : HdWallet.Library :=
  {| HdWallet.wordlist := [[97]; [98]];
     HdWallet.checksum_ok := fun _ => true;
     HdWallet.Bip39_encode := phrase_of;
     HdWallet.HdPath := list N;
     HdWallet.stringToPath := fun path => path;
     HdWallet.Account := list byte;
     HdWallet.derive := fun mnemonic paths prefix => [Base64.Uint8Array_from prefix];
     HdWallet.deserialize := read_wallet;
     HdWallet.beyond_ascii := fun _ => Throw (Error "Invalid mnemonic format");
     HdWallet.refusal := fun _ => Error "Invalid mnemonic" |}.

Definition vault_methods : HdWallet.WalletMethods vault_library :=
  @HdWallet.Build_WalletMethods vault_library
    write_wallet
    Base64.String_fromCharCode
    (fun _ => js "secp256k1")
    (fun account => account).

(** The wallet of twelve times the word [a]. *)
Definition wallet : HdWallet.Wallet (list byte) :=
  {| HdWallet.mnemonic := phrase 12;
     HdWallet.accounts := [Base64.Uint8Array_from (js "creata")] |}.

(** A browser that holds a wallet record. *)
Definition holding : Browser.browser :=
  {| Browser.items := {[ Keyring.WALLET_KEY := stored_record ]};
     Browser.reports := []; Browser.random := zeros |}.

(** The import form with a phrase of twelve words typed with capitals
    and spaces to spare, and a password of nine characters. *)
Definition form : ImportWallet.Form :=
  {| ImportWallet.form_mnemonic := js "  A b  a a a a A a a a a B ";
     ImportWallet.form_password := js "password1";
     ImportWallet.form_confirmPassword := js "password1";
     ImportWallet.form_loading := false;
     ImportWallet.form_error := None;
     ImportWallet.form_mnemonicError := None;
     ImportWallet.form_passwordError := None |}.

(** A function that fails twice and returns at its third call; the
    world is the number of calls made. *)
Definition flaky (calls : nat) : outcome nat * nat :=
  if (calls <? 2)%nat then (Rejected (Error "Network Error"), S calls)
  else (Resolved calls, S calls).

End Standin.

(** * Proofs *)

(** ** Base64: [atob] reads what [btoa] wrote *)

Import Encoding Base64 JSON Crypto Storage Chrome HdWallet Keyring Helpers.

Lemma b8_to_N (b : byte) : b8 (Byte.to_N b) = b.
Proof.
  unfold b8. pose proof (Byte.to_N_bounded b) as Hb.
  rewrite N.mod_small by lia. now rewrite Byte.of_to_N.
Qed.

Lemma to_N_b8 (n : N) : n < 256 -> Byte.to_N (b8 n) = n.
Proof.
  intros Hn. unfold b8. rewrite N.mod_small by lia.
  destruct (Byte.of_N n) as [b|] eqn:E.
  - now apply Byte.to_of_N.
  - apply Byte.of_N_None_iff in E. lia.
Qed.

Ltac cases_N :=
  repeat match goal with
  | |- context [N.ltb ?a ?b] => destruct (N.ltb_spec a b)
  | |- context [N.leb ?a ?b] => destruct (N.leb_spec a b)
  | |- context [N.eqb ?a ?b] => destruct (N.eqb_spec a b)
  | H : context [N.ltb ?a ?b] |- _ => destruct (N.ltb_spec a b)
  | H : context [N.leb ?a ?b] |- _ => destruct (N.leb_spec a b)
  | H : context [N.eqb ?a ?b] |- _ => destruct (N.eqb_spec a b)
  end; simpl in *.

Lemma alphabet_index_alphabet (i : N) : i < 64 -> alphabet_index (alphabet i) = Some i.
Proof.
  intros Hi. unfold alphabet, alphabet_index.
  cases_N; try lia; f_equal; lia.
Qed.

Lemma alphabet_not_whitespace (i : N) : is_ascii_whitespace (alphabet i) = false.
Proof. unfold alphabet, is_ascii_whitespace. cases_N; try lia; reflexivity. Qed.

Lemma alphabet_not_equals (i : N) : alphabet i <> 61.
Proof. unfold alphabet. cases_N; lia. Qed.

Lemma list_ind3 {A : Type} (P : list A -> Prop) :
  P [] -> (forall a, P [a]) -> (forall a b, P [a; b]) ->
  (forall a b c l, P l -> P (a :: b :: c :: l)) ->
  forall l, P l.
Proof.
  intros H0 H1 H2 H3.
  fix IH 1.
  intros [|a [|b [|c l]]]; [apply H0 | apply H1 | apply H2 | apply H3, IH].
Qed.

Lemma sextets_bounded (l : list N) :
  Forall (fun b => b < 256) l -> Forall (fun s => s < 64) (sextets_of_bytes l).
Proof.
  induction l as [|a|a b|a b c l IH] using list_ind3; intros H; simpl.
  - constructor.
  - inversion_clear H. repeat constructor; lia.
  - inversion_clear H as [|? ? Ha H']. inversion_clear H' as [|? ? Hb _].
    repeat constructor; lia.
  - inversion_clear H as [|? ? Ha H']. inversion_clear H' as [|? ? Hb H''].
    inversion_clear H'' as [|? ? Hc Hl].
    repeat (constructor; [lia|]). auto.
Qed.

Lemma bytes_of_sextets_of_bytes (l : list N) :
  Forall (fun b => b < 256) l -> bytes_of_sextets (sextets_of_bytes l) = l.
Proof.
  induction l as [|a|a b|a b c l IH] using list_ind3; intros H.
  - reflexivity.
  - inversion_clear H. simpl. f_equal. lia.
  - inversion_clear H as [|? ? Ha H']. inversion_clear H' as [|? ? Hb _].
    simpl. f_equal; [lia|]. f_equal. lia.
  - inversion_clear H as [|? ? Ha H']. inversion_clear H' as [|? ? Hb H''].
    inversion_clear H'' as [|? ? Hc Hl].
    cbn [sextets_of_bytes bytes_of_sextets]. rewrite (IH Hl).
    f_equal; [lia|]. f_equal; [lia|]. f_equal. lia.
Qed.

Lemma sextets_length (l : list N) :
  ((length (sextets_of_bytes l) + (3 - length l mod 3) mod 3) mod 4 = 0
   /\ length (sextets_of_bytes l) mod 4 <> 1)%nat.
Proof.
  induction l as [|a|a b|a b c l IH] using list_ind3;
    cbn [sextets_of_bytes length]; try (split; [reflexivity | discriminate]).
  destruct IH as [IH1 IH2]. split; lia.
Qed.

Lemma strip_padding_body (body : jsstring) (k : nat) :
  Forall (fun c => c <> 61) body -> (k <= 2)%nat ->
  strip_padding (body ++ repeat equals_sign k) = body.
Proof.
  intros Hbody Hk. unfold strip_padding.
  rewrite rev_app_distr, rev_repeat.
  assert (Hrev : match rev body with
                 | 61 :: _ => False
                 | _ => True
                 end).
  { destruct (rev body) as [|c r] eqn:E; [exact I|].
    assert (Hc : In c body) by (apply in_rev; rewrite E; now left).
    rewrite Forall_forall in Hbody. specialize (Hbody c).
    rewrite <- list_elem_of_In in Hc. specialize (Hbody Hc).
    destruct c as [|p]; [exact I|].
    do 6 (destruct p as [p|p|]; try exact I). exfalso. now apply Hbody. }
  destruct k as [|[|[|k]]]; [| | |lia]; cbn [repeat app equals_sign].
  - rewrite app_nil_r.
    destruct (rev body) as [|c r] eqn:E.
    + apply (f_equal (@rev N)) in E. rewrite rev_involutive in E. now subst.
    + destruct c as [|p]; [reflexivity|].
      do 6 (destruct p as [p|p|]; try reflexivity). contradiction.
  - destruct (rev body) as [|c r] eqn:E.
    + apply (f_equal (@rev N)) in E. rewrite rev_involutive in E. now subst.
    + rewrite <- E. destruct c as [|p]; [now rewrite rev_involutive|].
      do 6 (destruct p as [p|p|]; try now rewrite rev_involutive). contradiction.
  - now rewrite rev_involutive.
Qed.

Lemma filter_no_whitespace (l : jsstring) :
  Forall (fun c => is_ascii_whitespace c = false) l ->
  filter (fun c => negb (is_ascii_whitespace c) = true) l = l.
Proof.
  induction 1 as [|c l Hc _ IH]; [reflexivity|].
  rewrite filter_cons. destruct (decide _) as [_|Hn].
  - now rewrite IH.
  - rewrite Hc in Hn. now destruct Hn.
Qed.

Lemma mapM_alphabet_index (sx : list N) :
  Forall (fun s => s < 64) sx -> mapM alphabet_index (map alphabet sx) = Some sx.
Proof.
  induction 1 as [|s sx Hs _ IH]; [reflexivity|].
  cbn. rewrite (alphabet_index_alphabet s Hs). cbn. now rewrite IH.
Qed.

Lemma atob_btoa (s : jsstring) :
  Forall (fun u => u < 256) s ->
  exists text, btoa s = Some text /\ atob text = Some s.
Proof.
  intros Hs. unfold btoa.
  assert (Hall : forallb (fun u => u <=? 255) s = true).
  { apply forallb_forall. intros u Hu. rewrite Forall_forall in Hs.
    apply list_elem_of_In in Hu. specialize (Hs u Hu). apply N.leb_le. lia. }
  rewrite Hall. eexists; split; [reflexivity|].
  set (body := map alphabet (sextets_of_bytes s)).
  set (k := ((3 - length s mod 3) mod 3)%nat).
  destruct (sextets_length s) as [Hlen Hlen1].
  unfold atob. rewrite filter_no_whitespace.
  2:{ apply Forall_app. split.
      - subst body. apply Forall_forall. intros c Hc.
        apply list_elem_of_In, in_map_iff in Hc. destruct Hc as [i [<- _]].
        apply alphabet_not_whitespace.
      - apply Forall_forall. intros c Hc.
        apply list_elem_of_In, repeat_spec in Hc. now subst c. }
  assert (Hl : (length (body ++ repeat equals_sign k) mod 4 =? 0)%nat = true).
  { apply Nat.eqb_eq. rewrite length_app, repeat_length. subst body.
    rewrite length_map. exact Hlen. }
  rewrite Hl. rewrite strip_padding_body.
  2:{ subst body. apply Forall_forall. intros c Hc.
      apply list_elem_of_In, in_map_iff in Hc. destruct Hc as [i [<- _]].
      apply alphabet_not_equals. }
  2:{ subst k. lia. }
  assert (Hl1 : (length body mod 4 =? 1)%nat = false).
  { apply Nat.eqb_neq. subst body. now rewrite length_map. }
  rewrite Hl1. subst body.
  rewrite mapM_alphabet_index by now apply sextets_bounded.
  now rewrite bytes_of_sextets_of_bytes.
Qed.

Lemma Uint8Array_from_fromCharCode (bs : list byte) :
  Uint8Array_from (String_fromCharCode bs) = bs.
Proof.
  unfold Uint8Array_from, String_fromCharCode.
  induction bs as [|b bs IH]; [reflexivity|].
  cbn [map]. now rewrite b8_to_N, IH.
Qed.

Lemma fromCharCode_bounded (bs : list byte) :
  Forall (fun u => u < 256) (String_fromCharCode bs).
Proof.
  unfold String_fromCharCode. induction bs as [|b bs IH]; constructor; auto.
  pose proof (Byte.to_N_bounded b); lia.
Qed.

(** ** Encoding: [TextDecoder] reads what [TextEncoder] wrote *)

Ltac settle_cmp :=
  repeat match goal with
  | |- context [N.ltb ?a ?b] =>
      (rewrite (proj2 (N.ltb_lt a b)) by lia) || (rewrite (proj2 (N.ltb_ge a b)) by lia)
  | |- context [N.leb ?a ?b] =>
      (rewrite (proj2 (N.leb_le a b)) by lia) || (rewrite (proj2 (N.leb_gt a b)) by lia)
  | |- context [N.eqb ?a ?b] =>
      (rewrite (proj2 (N.eqb_eq a b)) by lia) || (rewrite (proj2 (N.eqb_neq a b)) by lia)
  end.

Lemma utf8_decode_cons (st : utf8_state) (b : byte) (rest : list byte) :
  utf8_decode st (b :: rest) =
  let n := Byte.to_N b in
  if bytes_needed st =? 0 then
    let '(out, st') := utf8_lead n in out ++ utf8_decode st' rest
  else if (n <? lower_boundary st) || (upper_boundary st <? n) then
    let '(out, st') := utf8_lead n in 0xFFFD :: out ++ utf8_decode st' rest
  else
    let cp := code_point st * 64 + n mod 64 in
    if bytes_seen st + 1 =? bytes_needed st
    then cp :: utf8_decode utf8_initial rest
    else utf8_decode {| code_point := cp; bytes_seen := bytes_seen st + 1;
                        bytes_needed := bytes_needed st;
                        lower_boundary := 0x80; upper_boundary := 0xBF |} rest.
Proof. reflexivity. Qed.

Lemma is_scalar_spec (c : N) :
  is_scalar c = true <-> c < 0x110000 /\ (c < 0xD800 \/ 0xDFFF < c).
Proof.
  unfold is_scalar, is_surrogate.
  rewrite andb_true_iff, negb_true_iff, andb_false_iff, N.ltb_lt, !N.leb_gt. lia.
Qed.

Ltac utf8_fields :=
  cbn [bytes_needed bytes_seen code_point lower_boundary upper_boundary utf8_initial].

Ltac utf8_step :=
  rewrite utf8_decode_cons; cbv zeta; rewrite ?to_N_b8 by lia;
  unfold utf8_lead; utf8_fields; settle_cmp; cbn [andb orb app]; utf8_fields.

Lemma utf8_decode_encode_cp (c : N) (rest : list byte) :
  is_scalar c = true ->
  utf8_decode utf8_initial (utf8_encode_cp c ++ rest) = c :: utf8_decode utf8_initial rest.
Proof.
  intros Hc. apply is_scalar_spec in Hc. unfold utf8_encode_cp.
  destruct (N.ltb_spec c 0x80);
    [|destruct (N.ltb_spec c 0x800); [|destruct (N.ltb_spec c 0x10000)]];
    cbn [app].
  - utf8_step. reflexivity.
  - do 2 utf8_step. f_equal. lia.
  - rewrite utf8_decode_cons; cbv zeta; rewrite ?to_N_b8 by lia.
    unfold utf8_lead; utf8_fields; settle_cmp; cbn [andb orb app].
    destruct (N.eqb_spec (224 + c / 4096) 224);
      destruct (N.eqb_spec (224 + c / 4096) 237); try lia;
      do 2 utf8_step; f_equal; lia.
  - rewrite utf8_decode_cons; cbv zeta; rewrite ?to_N_b8 by lia.
    unfold utf8_lead; utf8_fields; settle_cmp; cbn [andb orb app].
    destruct (N.eqb_spec (240 + c / 262144) 240);
      destruct (N.eqb_spec (240 + c / 262144) 244); try lia;
      do 3 utf8_step; f_equal; lia.
Qed.

Lemma utf8_decode_encode (cps : list N) :
  Forall (fun c => is_scalar c = true) cps ->
  utf8_decode utf8_initial (flat_map utf8_encode_cp cps) = cps.
Proof.
  induction 1 as [|c cps Hc _ IH]; [reflexivity|].
  cbn [flat_map]. now rewrite utf8_decode_encode_cp, IH.
Qed.

(** A two-step induction on strings, following the pairing of surrogates. *)
Lemma list_ind2 {A : Type} (P : list A -> Prop) :
  P [] -> (forall a, P [a]) ->
  (forall a b l, P l -> P (b :: l) -> P (a :: b :: l)) ->
  forall l, P l.
Proof.
  intros H0 H1 H2.
  assert (H : forall l, P l /\ forall a, P (a :: l)).
  { induction l as [|b l [IH1 IH2]]; split; auto. }
  intros l. apply H.
Qed.

Ltac surrogate_cases :=
  unfold is_lead, is_trail in *;
  repeat match goal with
  | |- context [N.leb ?a ?b] => destruct (N.leb_spec a b)
  end; cbn [andb negb] in *.

Lemma to_scalar_values_cons (u : N) (rest : jsstring) :
  to_scalar_values (u :: rest) =
  if is_lead u then
    match rest with
    | v :: rest' =>
        if is_trail v
        then (0x10000 + (u - 0xD800) * 0x400 + (v - 0xDC00)) :: to_scalar_values rest'
        else 0xFFFD :: to_scalar_values rest
    | [] => [0xFFFD]
    end
  else if is_trail u then 0xFFFD :: to_scalar_values rest
  else u :: to_scalar_values rest.
Proof. reflexivity. Qed.

Lemma isWellFormed_cons (u : N) (rest : jsstring) :
  isWellFormed (u :: rest) =
  if is_lead u then
    match rest with
    | v :: rest' => is_trail v && isWellFormed rest'
    | [] => false
    end
  else negb (is_trail u) && isWellFormed rest.
Proof. reflexivity. Qed.

Lemma pair_is_scalar (u v : N) :
  is_lead u = true -> is_trail v = true ->
  is_scalar (0x10000 + (u - 0xD800) * 0x400 + (v - 0xDC00)) = true.
Proof.
  intros Hu Hv. apply is_scalar_spec. revert Hu Hv.
  surrogate_cases; intros; try discriminate; lia.
Qed.

Lemma unit_is_scalar (u : N) :
  u < 65536 -> is_lead u = false -> is_trail u = false -> is_scalar u = true.
Proof.
  intros Hr Hu Hv. apply is_scalar_spec. revert Hu Hv.
  surrogate_cases; intros; try discriminate; lia.
Qed.

Lemma to_scalar_values_scalar (s : jsstring) :
  Forall (fun u => u < 65536) s ->
  Forall (fun c => is_scalar c = true) (to_scalar_values s).
Proof.
  induction s as [|u|u v s IH1 IH2] using list_ind2; intros Hs.
  - constructor.
  - inversion_clear Hs. rewrite to_scalar_values_cons.
    destruct (is_lead u) eqn:E1; [|destruct (is_trail u) eqn:E2];
      repeat constructor. now apply unit_is_scalar.
  - inversion_clear Hs as [|? ? Hu Hs']. pose proof Hs' as Hvs.
    inversion_clear Hs' as [|? ? Hv Hs''].
    rewrite to_scalar_values_cons.
    destruct (is_lead u) eqn:E1; [destruct (is_trail v) eqn:E3|destruct (is_trail u) eqn:E2].
    + constructor; [now apply pair_is_scalar|auto].
    + constructor; [reflexivity|auto].
    + constructor; [reflexivity|auto].
    + constructor; [now apply unit_is_scalar|auto].
Qed.

Lemma utf16_of_scalar_values (s : jsstring) :
  Forall (fun u => u < 65536) s -> isWellFormed s = true ->
  flat_map utf16_encode_cp (to_scalar_values s) = s.
Proof.
  induction s as [|u|u v s IH1 IH2] using list_ind2; intros Hs Hwf.
  - reflexivity.
  - inversion_clear Hs. rewrite isWellFormed_cons in Hwf.
    rewrite to_scalar_values_cons.
    destruct (is_lead u) eqn:E1; [discriminate|].
    destruct (is_trail u) eqn:E2; [discriminate|].
    cbn [to_scalar_values flat_map app]. unfold utf16_encode_cp. settle_cmp. reflexivity.
  - inversion_clear Hs as [|? ? Hu Hs']. pose proof Hs' as Hvs.
    inversion_clear Hs' as [|? ? Hv Hs''].
    rewrite isWellFormed_cons in Hwf. rewrite to_scalar_values_cons.
    destruct (is_lead u) eqn:E1.
    + apply andb_true_iff in Hwf. destruct Hwf as [E3 Hwf]. rewrite E3.
      cbn [flat_map]. rewrite (IH1 Hs'' Hwf). unfold utf16_encode_cp.
      revert E1 E3. surrogate_cases; intros; try discriminate.
      settle_cmp. cbn [app]. f_equal; [lia|]. f_equal. lia.
    + apply andb_true_iff in Hwf. destruct Hwf as [E2 Hwf].
      apply negb_true_iff in E2. rewrite E2.
      cbn [flat_map]. rewrite (IH2 Hvs Hwf). unfold utf16_encode_cp.
      settle_cmp. reflexivity.
Qed.

Lemma strip_bom_scalar_values (s : jsstring) :
  starts_with_bom s = false -> strip_bom (to_scalar_values s) = to_scalar_values s.
Proof.
  destruct s as [|u s]; [reflexivity|]. cbn [starts_with_bom]. intros Hu.
  apply N.eqb_neq in Hu. cbn [to_scalar_values].
  destruct (is_lead u) eqn:E1.
  - destruct s as [|v s]; [reflexivity|].
    destruct (is_trail v) eqn:E3; [|reflexivity].
    unfold strip_bom. revert E1 E3. surrogate_cases; intros; try discriminate.
    settle_cmp. reflexivity.
  - destruct (is_trail u); [reflexivity|].
    unfold strip_bom. settle_cmp. reflexivity.
Qed.

Theorem TextDecoder_decode_encode (s : jsstring) :
  Forall (fun u => u < 65536) s -> isWellFormed s = true -> starts_with_bom s = false ->
  TextDecoder_decode (TextEncoder_encode s) = s.
Proof.
  intros Hs Hwf Hbom. unfold TextDecoder_decode, TextEncoder_encode.
  rewrite utf8_decode_encode by now apply to_scalar_values_scalar.
  rewrite strip_bom_scalar_values by assumption.
  now apply utf16_of_scalar_values.
Qed.

(** ** [encrypt] and [decrypt] *)

Lemma getRandomValues_length (rng : RandomSource) (pos n : nat) :
  length (getRandomValues rng pos n) = n.
Proof. unfold getRandomValues. now rewrite length_map, length_seq. Qed.

Lemma slice_layout (salt iv ct : list byte) :
  length salt = 16%nat -> length iv = 12%nat ->
  firstn 16 (salt ++ iv ++ ct) = salt
  /\ firstn 12 (skipn 16 (salt ++ iv ++ ct)) = iv
  /\ skipn 28 (salt ++ iv ++ ct) = ct.
Proof.
  intros Hs Hi. repeat split.
  - now apply take_app_length'.
  - rewrite (drop_app_length' salt _ 16) by done. now apply take_app_length'.
  - rewrite app_assoc. apply drop_app_length'. rewrite length_app. lia.
Qed.

Section CipherFacts.

Context {wc : WebCrypto}.

Lemma decrypt_after_encrypt (rng : RandomSource) (data password password' : jsstring) :
  let salt := getRandomValues rng 0 16 in
  let iv := getRandomValues rng 16 12 in
  await (encrypt rng data password) (fun blob => decrypt blob password') =
  match AES_GCM_decrypt (key_of password' salt) iv
          (AES_GCM_encrypt (key_of password salt) iv (TextEncoder_encode data)) with
  | Some plaintext => Resolved (TextDecoder_decode plaintext)
  | None => Rejected decrypt_error
  end.
Proof.
  intros salt iv. unfold key_of, encrypt. subst salt iv.
  set (salt := getRandomValues rng 0 16).
  set (iv := getRandomValues rng 16 12).
  set (ct := AES_GCM_encrypt _ iv (TextEncoder_encode data)).
  destruct (atob_btoa (String_fromCharCode (salt ++ iv ++ ct))
              (fromCharCode_bounded _)) as [text [Hbtoa Hatob]].
  rewrite Hbtoa. cbn [try_catch await]. unfold decrypt. rewrite Hatob.
  rewrite Uint8Array_from_fromCharCode.
  destruct (slice_layout salt iv ct) as [-> [-> ->]];
    [apply getRandomValues_length | apply getRandomValues_length |].
  now destruct (AES_GCM_decrypt _ iv ct).
Qed.

Lemma decrypt_settles (blob password : jsstring) :
  (exists data, decrypt blob password = Resolved data)
  \/ decrypt blob password = Rejected decrypt_error.
Proof.
  unfold decrypt. destruct (atob blob) as [binary|]; [|now right].
  destruct (AES_GCM_decrypt _ _ _) as [plaintext|]; [left; eauto | now right].
Qed.

Lemma encrypt_resolves (rng : RandomSource) (data password : jsstring) :
  exists blob, encrypt rng data password = Resolved blob.
Proof.
  unfold encrypt.
  match goal with
  | |- context [btoa (String_fromCharCode ?arr)] =>
      destruct (atob_btoa (String_fromCharCode arr) (fromCharCode_bounded _))
        as [text [Hbtoa _]]
  end.
  rewrite Hbtoa. eexists. reflexivity.
Qed.

End CipherFacts.


Section KeyFacts.

Context {wc : WebCrypto}.




End KeyFacts.

(** ** The stand-in for the primitives keeps what is assumed of them *)

Lemma standin_tag_length (key iv : list byte) : length (Standin.tag key iv) = 16%nat.
Proof.
  unfold Standin.tag. rewrite length_take, !length_app, repeat_length. lia.
Qed.

Lemma same_bytes_refl (x : list byte) : Standin.same_bytes x x = true.
Proof.
  induction x as [|a x IH]; [reflexivity|].
  cbn [Standin.same_bytes]. rewrite IH, andb_true_r. now apply Byte.byte_dec_lb.
Qed.

Lemma standin_crypto_correct : WebCryptoCorrect Standin.crypto.
Proof.
  constructor. intros key iv plaintext.
  cbn [AES_GCM_decrypt AES_GCM_encrypt Standin.crypto].
  unfold Standin.unseal, Standin.seal.
  pose proof (standin_tag_length key iv) as Hlen.
  rewrite (take_app_length' _ _ 16) by done.
  rewrite same_bytes_refl.
  now rewrite (drop_app_length' _ _ 16) by done.
Qed.



Lemma standin_keyed_correct : WebCryptoCorrect Standin.keyed.
Proof.
  constructor. intros key iv plaintext.
  cbn [AES_GCM_decrypt AES_GCM_encrypt Standin.keyed].
  unfold Standin.unseal_keyed, Standin.seal_keyed.
  rewrite (take_app_length' _ _ (length (Standin.frame key))) by done.
  rewrite same_bytes_refl.
  now rewrite (drop_app_length' _ _ (length (Standin.frame key))) by done.
Qed.





(** ** Claims on [encrypt] and [decrypt] *)

(** C1 (as amended). For every plaintext that is a well-formed string
    (no surrogate standing alone) and does not start with a byte order
    mark, and every password: decrypting with the password what [encrypt]
    made of the plaintext with it gives the plaintext back. *)
Theorem decrypt_encrypt_roundtrip (wc : WebCrypto) (correct : WebCryptoCorrect wc)
    (rng : RandomSource) (data password : jsstring) :
  is_string data = true -> isWellFormed data = true -> starts_with_bom data = false ->
  await (encrypt rng data password) (fun blob => decrypt blob password) = Resolved data.
Proof.
  intros Hs Hwf Hbom. rewrite decrypt_after_encrypt.
  rewrite AES_GCM_decrypt_encrypt. f_equal.
  apply TextDecoder_decode_encode; [|assumption..].
  apply Forall_forall. intros u Hu. unfold is_string in Hs.
  rewrite forallb_forall in Hs. apply N.ltb_lt, Hs. now apply list_elem_of_In.
Qed.

(** C1, at a seed phrase and the password [p1]. *)
Lemma decrypt_encrypt_roundtrip_witness :
  await (@encrypt Standin.crypto Standin.zeros (js "seed phrase") (js "p1"))
    (fun blob => @decrypt Standin.crypto blob (js "p1"))
  = Resolved (js "seed phrase").
Proof.
  apply (decrypt_encrypt_roundtrip Standin.crypto standin_crypto_correct);
    reflexivity.
Defined.

(** C1 (as stated) fails: a plaintext that starts with a byte order mark
    comes back without it, whatever the cipher and the password, since
    [TextDecoder] drops the mark. (A surrogate standing alone comes back
    as U+FFFD in the same way.) *)
Lemma decrypt_encrypt_drops_byte_order_mark :
  [97] <> [0xFEFF; 97] /\
  forall (wc : WebCrypto), WebCryptoCorrect wc ->
  forall (rng : RandomSource) (password : jsstring),
    await (encrypt rng [0xFEFF; 97] password) (fun blob => decrypt blob password)
    = Resolved [97].
Proof.
  split; [discriminate|]. intros wc correct rng password.
  rewrite decrypt_after_encrypt, AES_GCM_decrypt_encrypt. reflexivity.
Qed.




Lemma fromCharCode_injective (x y : list byte) :
  String_fromCharCode x = String_fromCharCode y -> x = y.
Proof.
  intros H. rewrite <- (Uint8Array_from_fromCharCode x), H.
  apply Uint8Array_from_fromCharCode.
Qed.

Section Blobs.

Context {wc : WebCrypto}.

(** What [atob] reads in the text [encrypt] returns: the salt, the
    vector and the encrypted data. *)
Lemma encrypt_layout (rng : RandomSource) (data password blob : jsstring) :
  encrypt rng data password = Resolved blob ->
  atob blob =
  Some (String_fromCharCode
          (getRandomValues rng 0 16 ++ getRandomValues rng 16 12
           ++ AES_GCM_encrypt (key_of password (getRandomValues rng 0 16))
                (getRandomValues rng 16 12) (TextEncoder_encode data))).
Proof.
  unfold encrypt, key_of.
  set (ct := AES_GCM_encrypt _ _ _).
  destruct (atob_btoa (String_fromCharCode
              (getRandomValues rng 0 16 ++ getRandomValues rng 16 12 ++ ct))
              (fromCharCode_bounded _)) as [text [Hbtoa Hatob]].
  rewrite Hbtoa. cbn [try_catch]. now intros [= <-].
Qed.

(** Two calls of [encrypt] whose salts or whose vectors differ return
    different texts, whatever the plaintexts and the passwords. *)
Theorem encrypt_blobs_differ (rng rng' : RandomSource)
    (data data' password password' blob blob' : jsstring) :
  encrypt rng data password = Resolved blob ->
  encrypt rng' data' password' = Resolved blob' ->
  getRandomValues rng 0 16 <> getRandomValues rng' 0 16
  \/ getRandomValues rng 16 12 <> getRandomValues rng' 16 12 ->
  blob <> blob'.
Proof.
  intros H H' Hdiff Heq. subst blob'.
  apply encrypt_layout in H. apply encrypt_layout in H'.
  rewrite H in H'. apply (inj Some) in H'. apply fromCharCode_injective in H'.
  apply app_inj_1 in H'; [|now rewrite !getRandomValues_length].
  destruct H' as [Hsalt H'].
  apply app_inj_1 in H'; [|now rewrite !getRandomValues_length].
  destruct H' as [Hiv _]. tauto.
Qed.

End Blobs.

(** Random bytes that are all zero and random bytes that are all one
    give different texts. *)
Lemma encrypt_blobs_differ_witness :
  exists blob blob',
    @encrypt Standin.crypto Standin.zeros (js "seed phrase") (js "p1") = Resolved blob
    /\ @encrypt Standin.crypto Standin.ones (js "seed phrase") (js "p1") = Resolved blob'
    /\ blob <> blob'.
Proof.
  destruct (@encrypt_resolves Standin.crypto Standin.zeros (js "seed phrase") (js "p1"))
    as [blob H].
  destruct (@encrypt_resolves Standin.crypto Standin.ones (js "seed phrase") (js "p1"))
    as [blob' H'].
  exists blob, blob'. split; [exact H|]. split; [exact H'|].
  apply (@encrypt_blobs_differ Standin.crypto Standin.zeros Standin.ones
           (js "seed phrase") (js "seed phrase") (js "p1") (js "p1") blob blob' H H').
  left. discriminate.
Defined.

(** ** Claims on the stored wallet: [getData], [loadWallet], [hasWallet] *)

Section StoredWallet.

Context {wc : WebCrypto} {lib : Library}.

Lemma getData_secure_settles (chrome : env) (key : string)
    (password : option jsstring) :
  getData chrome key true password <> Pending.
Proof.
  unfold getData. destruct (Chrome.lastError chrome); [discriminate|].
  destruct (Chrome.local chrome !! key) as [data|]; [|discriminate].
  destruct (Nat.eqb (length data) 0); [discriminate|].
  destruct (no_password password); [discriminate|].
  destruct (decrypt_settles data (default [] password)) as [[text ->] | ->];
    cbn [await try_catch]; [|discriminate].
  now destruct (JSON.parse text).
Qed.

Lemma loadWallet_settles (chrome : env) (password : option jsstring) :
  (exists wallet, loadWallet chrome password = Resolved wallet)
  \/ loadWallet chrome password = Rejected load_error.
Proof.
  unfold loadWallet.
  pose proof (getData_secure_settles chrome WALLET_KEY password) as Hs.
  destruct (getData chrome WALLET_KEY true password) as [serialized|e|];
    [|now right|contradiction].
  cbn [await]. destruct (truthy serialized); cbn [negb]; [|now right].
  destruct (deserialize serialized password) as [wallet|e]; cbn; [left; eauto|now right].
Qed.

(** C4 (what the code does instead). With no wallet in the storage,
    [loadWallet] fails with the error it also throws for a wrong password:
    it ends with a wallet or with that one error, and never otherwise. *)
Theorem loadWallet_without_wallet (chrome : env) (password : option jsstring) :
  loadWallet empty_storage password = Rejected load_error
  /\ ((exists wallet, loadWallet chrome password = Resolved wallet)
      \/ loadWallet chrome password = Rejected load_error).
Proof.
  split; [|apply loadWallet_settles].
  unfold loadWallet, getData, empty_storage. cbn [Chrome.lastError Chrome.local].
  now rewrite lookup_empty.
Qed.

(** A wrong password on a stored wallet: the error of [decrypt] is
    replaced by the same error. *)
Lemma loadWallet_wrong_password (data password : jsstring) :
  data <> [] -> password <> [] ->
  decrypt data password = Rejected decrypt_error ->
  loadWallet (storage_with WALLET_KEY data) (Some password) = Rejected load_error.
Proof.
  intros Hd Hp Hdec. unfold loadWallet, getData, storage_with.
  cbn [Chrome.lastError Chrome.local]. rewrite lookup_singleton_eq.
  destruct data as [|c data]; [contradiction|].
  destruct password as [|p password]; [contradiction|].
  cbn [length Nat.eqb no_password].
  change (default [] (Some (p :: password))) with (p :: password).
  now rewrite Hdec.
Qed.

Lemma hasWallet_outcome (chrome : env) :
  hasWallet chrome =
  match Chrome.lastError chrome with
  | Some _ => Resolved false
  | None =>
      match Chrome.local chrome !! WALLET_KEY with
      | None => Resolved false
      | Some data =>
          if Nat.eqb (length data) 0 then Resolved false
          else
            match JSON.parse data with
            | Ok value => Resolved (truthy value)
            | Throw _ => Pending
            end
      end
  end.
Proof.
  unfold hasWallet, getData. destruct (Chrome.lastError chrome); [reflexivity|].
  destruct (Chrome.local chrome !! WALLET_KEY) as [data|]; [|reflexivity].
  destruct (Nat.eqb (length data) 0); [reflexivity|].
  now destruct (JSON.parse data).
Qed.

(** [hasWallet] never throws, and answers [false] when no wallet is
    stored. *)
Lemma hasWallet_absent (chrome : env) :
  (forall e, hasWallet chrome <> Rejected e)
  /\ (Chrome.local chrome !! WALLET_KEY = None -> hasWallet chrome = Resolved false).
Proof.
  rewrite hasWallet_outcome. split.
  - intros e. destruct (Chrome.lastError chrome); [discriminate|].
    destruct (Chrome.local chrome !! WALLET_KEY) as [data|]; [|discriminate].
    destruct (Nat.eqb (length data) 0); [discriminate|].
    now destruct (JSON.parse data).
  - intros ->. now destruct (Chrome.lastError chrome).
Qed.

End StoredWallet.

(** Text that starts with a capital letter is no JSON text. *)
Lemma parse_capital (c : N) (rest : jsstring) :
  65 <= c <= 90 -> JSON.parse (c :: rest) = Throw (PlatformError "SyntaxError").
Proof.
  intros Hc. unfold JSON.parse. cbn [length parse_value skip_whitespace].
  unfold is_json_whitespace. settle_cmp. cbn [orb].
  unfold parse_number, read_minus. settle_cmp. unfold is_digit. settle_cmp.
  reflexivity.
Qed.

Section StoredBlob.

Context {wc : WebCrypto} {lib : Library}.

(** The first character of what [encrypt] returns is the Base64
    character of the six high bits of the first random byte. *)
Lemma encrypt_first_character (rng : RandomSource) (data password : jsstring) :
  exists rest,
    encrypt rng data password = Resolved (alphabet (Byte.to_N (rng 0%nat) / 4) :: rest).
Proof.
  unfold encrypt.
  set (ct := AES_GCM_encrypt _ _ _).
  destruct (atob_btoa (String_fromCharCode
              (getRandomValues rng 0 16 ++ getRandomValues rng 16 12 ++ ct))
              (fromCharCode_bounded _)) as [text [Hbtoa _]].
  rewrite Hbtoa. cbn [try_catch]. revert Hbtoa. unfold btoa.
  destruct (forallb _ _); [|discriminate]. intros [= <-].
  unfold getRandomValues. cbn [seq map app String_fromCharCode sextets_of_bytes].
  eexists. reflexivity.
Qed.

(** C5 (what the code does instead). With the wallet record that
    [encrypt] writes in the storage, [hasWallet] does not answer [true]:
    when the first random byte of the salt is below 104 the record starts
    with a capital letter, [JSON.parse] throws in the callback of the
    storage, and the promise of [hasWallet] is never settled. *)
Theorem hasWallet_pending_on_stored_wallet (rng : RandomSource)
    (data password blob : jsstring) :
  Byte.to_N (rng 0%nat) < 104 ->
  encrypt rng data password = Resolved blob ->
  hasWallet (storage_with WALLET_KEY blob) = Pending.
Proof.
  intros Hfirst Hblob.
  destruct (encrypt_first_character rng data password) as [rest Hrest].
  rewrite Hrest in Hblob. injection Hblob as <-.
  rewrite hasWallet_outcome. unfold storage_with.
  cbn [Chrome.lastError Chrome.local]. rewrite lookup_singleton_eq.
  cbn [length Nat.eqb]. rewrite parse_capital; [reflexivity|].
  unfold alphabet. settle_cmp. lia.
Qed.

End StoredBlob.

(** C5 at a stored record: [hasWallet] stays pending. *)
Lemma hasWallet_pending_example (wc : WebCrypto) (lib : Library) :
  hasWallet (storage_with WALLET_KEY Standin.stored_record) = Pending.
Proof.
  rewrite hasWallet_outcome. unfold storage_with.
  cbn [Chrome.lastError Chrome.local]. rewrite lookup_singleton_eq.
  reflexivity.
Qed.

(** C5, at the record [encrypt] makes when the random bytes are zero. *)
Lemma hasWallet_pending_on_stored_wallet_witness :
  exists blob,
    @encrypt Standin.crypto Standin.zeros (js "wallet") (js "p1") = Resolved blob
    /\ @hasWallet Standin.crypto (storage_with WALLET_KEY blob) = Pending.
Proof.
  destruct (@encrypt_resolves Standin.crypto Standin.zeros (js "wallet") (js "p1"))
    as [blob H].
  exists blob. split; [exact H|].
  exact (@hasWallet_pending_on_stored_wallet Standin.crypto Standin.zeros
           (js "wallet") (js "p1") blob eq_refl H).
Defined.

(** With no wallet record in the storage, [hasWallet] answers [false]. *)
Theorem hasWallet_without_wallet (wc : WebCrypto) (chrome : env) :
  local chrome !! WALLET_KEY = None -> hasWallet chrome = Resolved false.
Proof. apply hasWallet_absent. Qed.

(** [hasWallet] on the empty storage. *)
Lemma hasWallet_without_wallet_witness :
  @hasWallet Standin.crypto empty_storage = Resolved false.
Proof.
  apply hasWallet_without_wallet. apply lookup_empty.
Defined.

Import Encoding Crypto JSON HdWallet Keyring Helpers ImportWallet.

(** ** Claims on phrases: [isValidMnemonic], [importFromMnemonic],
       [generateWallet] *)

Lemma split_whitespace_length (s : jsstring) (in_space : bool) (word : jsstring) :
  (length (split_whitespace in_space word s) + (if in_space then 1 else 0)
   = count_words in_space s + 1 + (if ends_in_space in_space s then 1 else 0))%nat.
Proof.
  revert in_space word. induction s as [|c s IH]; intros in_space word.
  - cbn. destruct in_space; lia.
  - cbn [split_whitespace count_words ends_in_space].
    destruct (is_whitespace c).
    + destruct in_space.
      * apply IH.
      * cbn [length]. specialize (IH true []). cbv iota in IH. lia.
    + specialize (IH false (word ++ [c])). cbv iota in IH. destruct in_space; lia.
Qed.

Lemma trimStart_spec (s : jsstring) :
  exists w, s = w ++ trimStart s
    /\ Forall (fun c => is_whitespace c = true) w
    /\ match trimStart s with
       | c :: _ => is_whitespace c = false
       | [] => True
       end.
Proof.
  induction s as [|c s [w [Hs [Hw Hh]]]].
  - exists []. repeat split. constructor.
  - cbn [trimStart]. destruct (is_whitespace c) eqn:E.
    + exists (c :: w). repeat split; [now rewrite Hs at 1 | now constructor | exact Hh].
    + exists []. repeat split; [constructor | exact E].
Qed.

Lemma count_words_leading (w s : jsstring) :
  Forall (fun c => is_whitespace c = true) w ->
  count_words true (w ++ s) = count_words true s.
Proof.
  induction 1 as [|c w Hc _ IH]; [reflexivity|].
  cbn [app count_words]. now rewrite Hc.
Qed.

Lemma count_words_trailing (s w : jsstring) (in_space : bool) :
  Forall (fun c => is_whitespace c = true) w ->
  count_words in_space (s ++ w) = count_words in_space s.
Proof.
  intros Hw. revert in_space. induction s as [|c s IH]; intros in_space.
  - cbn [app]. revert in_space.
    induction Hw as [|d w Hd _ IHw]; intros in_space; [reflexivity|].
    cbn [count_words]. rewrite Hd. apply IHw.
  - cbn [app count_words]. now rewrite !IH.
Qed.

Lemma ends_in_space_last (s : jsstring) (c : N) (in_space : bool) :
  ends_in_space in_space (s ++ [c]) = is_whitespace c.
Proof.
  revert in_space. induction s as [|d s IH]; intros in_space; [reflexivity|].
  cbn [app ends_in_space]. apply IH.
Qed.

(** What [trim] leaves: the string without the white space around it. *)
Lemma trim_spec (s : jsstring) :
  count_words true (trim s) = count_words true s
  /\ (trim s = []
      \/ exists c rest, trim s = c :: rest /\ is_whitespace c = false
                        /\ ends_in_space false rest = false).
Proof.
  unfold trim.
  destruct (trimStart_spec s) as [w [Hs [Hw Hh]]].
  set (u := trimStart s) in *. clearbody u.
  destruct (trimStart_spec (rev u)) as [v [Hu [Hv Hl]]].
  set (t := trimStart (rev u)) in *. clearbody t.
  assert (Hut : u = rev t ++ rev v).
  { rewrite <- rev_app_distr, <- Hu. now rewrite rev_involutive. }
  assert (Hrv : Forall (fun c => is_whitespace c = true) (rev v)).
  { apply Forall_forall. intros c Hc. rewrite Forall_forall in Hv.
    apply Hv. apply list_elem_of_In. apply in_rev. now apply list_elem_of_In. }
  split.
  - rewrite Hs, count_words_leading by assumption.
    rewrite Hut. now rewrite count_words_trailing by assumption.
  - destruct t as [|x t'] eqn:Et; [now left|]. right.
    cbn [rev] in *.
    destruct (rev t') as [|c rest] eqn:Er.
    + exists x, []. cbn [app]. repeat split. exact Hl.
    + exists c, (rest ++ [x]). cbn [app]. repeat split.
      * rewrite Hut in Hh. cbn [app] in Hh. exact Hh.
      * rewrite ends_in_space_last. exact Hl.
Qed.

(** [isValidMnemonic] accepts a string exactly when the number of its
    words, the runs of characters that are no white space, is allowed. *)
Lemma isValidMnemonic_counts (mnemonic : jsstring) :
  isValidMnemonic mnemonic
  = includes [12; 15; 18; 21; 24]%nat (count_words true mnemonic).
Proof.
  unfold isValidMnemonic. destruct mnemonic as [|c0 m0]; [reflexivity|].
  cbn [length Nat.eqb]. set (m := c0 :: m0). clearbody m.
  destruct (trim_spec m) as [Hcount [Hempty | [c [rest [Ht [Hc Hend]]]]]].
  - rewrite Hempty in Hcount |- *. cbn [count_words] in Hcount.
    rewrite <- Hcount. reflexivity.
  - rewrite <- Hcount, Ht. cbn [split_whitespace count_words]. rewrite Hc.
    pose proof (split_whitespace_length rest false ([] ++ [c])) as Hlen.
    rewrite Hend in Hlen. f_equal. lia.
Qed.

(** *** The phrase the import form cleans *)

Lemma split_space_replace_whitespace (s : jsstring) (in_space : bool) (word : jsstring) :
  split_space word (replace_whitespace in_space s) = split_whitespace in_space word s.
Proof.
  revert in_space word. induction s as [|c s IH]; intros in_space word; [reflexivity|].
  cbn [replace_whitespace split_whitespace].
  destruct (is_whitespace c) eqn:E.
  - destruct in_space; [apply IH|]. cbn [split_space]. now rewrite IH.
  - cbn [split_space].
    assert (Hc : (c =? 32) = false).
    { apply N.eqb_neq. intros ->. discriminate E. }
    now rewrite Hc, IH.
Qed.

Lemma is_whitespace_ascii_lower (c : N) :
  is_whitespace (ascii_lower c) = is_whitespace c.
Proof.
  unfold ascii_lower.
  destruct (N.leb_spec 65 c); [destruct (N.leb_spec c 90)|]; cbn [andb];
    try reflexivity.
  unfold is_whitespace. settle_cmp. reflexivity.
Qed.

Lemma count_words_ascii_lower (s : jsstring) (in_space : bool) :
  count_words in_space (map ascii_lower s) = count_words in_space s
  /\ ends_in_space in_space (map ascii_lower s) = ends_in_space in_space s.
Proof.
  revert in_space. induction s as [|c s IH]; intros in_space; [now split|].
  cbn [map count_words ends_in_space]. rewrite is_whitespace_ascii_lower.
  destruct (is_whitespace c);
    [destruct (IH true) as [-> ->] | destruct (IH false) as [-> ->]]; now split.
Qed.

Lemma matches_replace_whitespace (s : jsstring) (in_space : bool) :
  forallb lowered s = true ->
  matches_from (negb in_space) (replace_whitespace in_space s)
  = negb (ends_in_space in_space s).
Proof.
  revert in_space. induction s as [|c s IH]; intros in_space Hs; [reflexivity|].
  cbn [forallb] in Hs. apply andb_true_iff in Hs. destruct Hs as [Hc Hs].
  cbn [replace_whitespace ends_in_space]. destruct (is_whitespace c) eqn:E.
  - destruct in_space; [now apply (IH true)|].
    cbn [matches_from negb]. change (is_lower 32) with false.
    cbv iota. cbn [N.eqb Pos.eqb andb]. now apply (IH true).
  - unfold lowered in Hc. rewrite E, orb_false_r in Hc.
    cbn [matches_from]. rewrite Hc. now apply (IH false).
Qed.

Lemma trimStart_forallb (P : N -> bool) (s : jsstring) :
  forallb P s = true -> forallb P (trimStart s) = true.
Proof.
  induction s as [|c s IH]; [reflexivity|]. cbn [trimStart forallb].
  intros H. destruct (is_whitespace c); [|exact H].
  apply andb_true_iff in H. now apply IH.
Qed.

Lemma rev_forallb (P : N -> bool) (s : jsstring) :
  forallb P s = true -> forallb P (rev s) = true.
Proof.
  rewrite !forallb_forall. intros H x Hx. apply H. now apply in_rev.
Qed.

Lemma trim_forallb (P : N -> bool) (s : jsstring) :
  forallb P s = true -> forallb P (trim s) = true.
Proof.
  intros H. unfold trim.
  now apply rev_forallb, trimStart_forallb, rev_forallb, trimStart_forallb.
Qed.

(** A phrase typed plainly, once cleaned by the form, has the shape the
    matcher of the library asks for unless nothing is left of it, and as
    many words between single spaces as the validator of the form has
    counted. *)
Lemma cleanedMnemonic_counted (unicode : Unicode) (typed : jsstring) :
  typed_plainly typed = true ->
  mnemonicMatcher (cleanedMnemonic typed) = negb (Nat.eqb (length (trim typed)) 0)
  /\ includes [12; 15; 18; 21; 24]%nat (length (split_space [] (cleanedMnemonic typed)))
     = mnemonic_validated typed.
Proof.
  intros Hplain. unfold cleanedMnemonic, mnemonic_validated.
  apply (trim_forallb _ typed) in Hplain.
  destruct (trim_spec typed) as [_ Hshape].
  rewrite isValidMnemonic_counts.
  set (t := trim typed) in *. clearbody t.
  assert (Hascii : forallb (fun c => c <? 128) t = true).
  { rewrite forallb_forall in Hplain |- *. intros c Hc.
    specialize (Hplain c Hc). now apply andb_true_iff in Hplain. }
  unfold toLowerCase. rewrite Hascii.
  assert (Hlow : forallb lowered (map ascii_lower t) = true).
  { rewrite forallb_forall in Hplain |- *. intros c Hc.
    apply in_map_iff in Hc. destruct Hc as [d [<- Hd]].
    specialize (Hplain d Hd). unfold lowered. rewrite is_whitespace_ascii_lower.
    apply andb_true_iff in Hplain. destruct Hplain as [_ Hd'].
    destruct (is_whitespace d); [now rewrite orb_true_r|].
    rewrite orb_false_r in Hd' |- *. unfold ascii_lower, is_lower.
    destruct ((65 <=? d) && (d <=? 90)) eqn:E; [|exact Hd'].
    apply andb_true_iff in E. destruct E as [E1 E2].
    apply N.leb_le in E1, E2. settle_cmp. reflexivity. }
  rewrite split_space_replace_whitespace.
  destruct Hshape as [-> | [c [rest [-> [Hc Hend]]]]]; [now split|].
  cbn [length Nat.eqb negb andb]. split.
  - (* the matcher accepts *)
    pose proof (matches_replace_whitespace (map ascii_lower rest) false) as Hrest.
    cbn [map forallb] in Hlow. apply andb_true_iff in Hlow.
    destruct Hlow as [Hlc Hlrest]. specialize (Hrest Hlrest).
    destruct (count_words_ascii_lower rest false) as [_ Hends].
    rewrite Hends, Hend in Hrest. cbn [negb] in Hrest.
    cbn [map replace_whitespace]. rewrite is_whitespace_ascii_lower, Hc.
    unfold mnemonicMatcher. cbn [matches_from].
    unfold lowered in Hlc. rewrite is_whitespace_ascii_lower, Hc, orb_false_r in Hlc.
    now rewrite Hlc.
  - (* the words are as many *)
    f_equal.
    pose proof (split_whitespace_length (map ascii_lower (c :: rest)) false []) as Hlen.
    destruct (count_words_ascii_lower (c :: rest) false) as [Hcount Hends].
    rewrite Hcount, Hends in Hlen. cbv iota in Hlen.
    cbn [ends_in_space count_words] in Hlen |- *. rewrite Hc in Hlen |- *.
    rewrite Hend in Hlen. lia.
Qed.

Lemma replace_whitespace_forallb (P : N -> bool) (s : jsstring) (in_space : bool) :
  P 32 = true -> forallb P s = true -> forallb P (replace_whitespace in_space s) = true.
Proof.
  intros H32. revert in_space. induction s as [|c s IH]; intros in_space; [reflexivity|].
  cbn [forallb replace_whitespace]. intros [Hc Hs]%andb_true_iff.
  destruct (is_whitespace c); [destruct in_space|]; cbn [forallb];
    rewrite ?H32, ?Hc; now apply IH.
Qed.

(** A phrase typed plainly is, once cleaned, a string of ASCII. *)
Lemma cleanedMnemonic_ascii (unicode : Unicode) (typed : jsstring) :
  typed_plainly typed = true -> is_ascii (cleanedMnemonic typed) = true.
Proof.
  intros Hplain. unfold cleanedMnemonic, is_ascii.
  apply (trim_forallb _ typed) in Hplain.
  set (t := trim typed) in *. clearbody t.
  assert (Hascii : forallb (fun c => c <? 128) t = true).
  { rewrite forallb_forall in Hplain |- *. intros c Hc.
    specialize (Hplain c Hc). now apply andb_true_iff in Hplain. }
  unfold toLowerCase. rewrite Hascii.
  apply replace_whitespace_forallb; [reflexivity|].
  rewrite forallb_forall in Hascii |- *. intros c (d & <- & Hd)%in_map_iff.
  specialize (Hascii d Hd). apply N.ltb_lt in Hascii. apply N.ltb_lt.
  unfold ascii_lower.
  destruct ((65 <=? d) && (d <=? 90)) eqn:E; [|exact Hascii].
  apply andb_true_iff in E as [_ E]. apply N.leb_le in E. lia.
Qed.

(** *** The matcher, and phrases that are clean already *)







Section Phrases.

Context {lib : Library}.

Lemma EnglishMnemonic_ok (mnemonic checked : jsstring) :
  is_ascii mnemonic = true ->
  EnglishMnemonic mnemonic = Ok checked <->
  checked = mnemonic
  /\ includes allowedWordsLengths (length (split_space [] mnemonic)) = true
  /\ forallb in_wordlist (split_space [] mnemonic) = true
  /\ checksum_ok mnemonic = true.
Proof.
  intros Hascii. unfold EnglishMnemonic. rewrite Hascii. cbn [negb].
  destruct (includes allowedWordsLengths _); cbn [negb];
    [|split; [discriminate|intros (_ & ? & _); discriminate]].
  destruct (forallb in_wordlist _); cbn [negb];
    [|split; [discriminate|intros (_ & _ & ? & _); discriminate]].
  destruct (checksum_ok mnemonic); cbn [negb];
    [|split; [discriminate|intros (_ & _ & _ & ?); discriminate]].
  split; [intros [= <-]; auto | intros (-> & _); reflexivity].
Qed.




Lemma importFromMnemonic_outcome (mnemonic : jsstring) :
  importFromMnemonic mnemonic =
  match EnglishMnemonic mnemonic with
  | Ok checked =>
      Resolved {| mnemonic := checked;
                  accounts := derive checked keyring_paths (js "creata") |}
  | Throw _ => Rejected import_error
  end.
Proof.
  unfold importFromMnemonic, fromMnemonic.
  now destruct (EnglishMnemonic mnemonic).
Qed.

Lemma generateWallet_outcome (rng : RandomSource) (strength : option N) :
  generateWallet rng strength =
  match EnglishMnemonic (Bip39_encode (getRandomValues rng 0 32)) with
  | Ok checked =>
      Resolved {| mnemonic := checked;
                  accounts := derive checked keyring_paths (js "creata") |}
  | Throw _ => Rejected (Error "Wallet generation failed")
  end.
Proof.
  unfold generateWallet, generate, fromMnemonic.
  change (N.to_nat (4 * (11 * 24 / 33))) with 32%nat.
  now destruct (EnglishMnemonic _).
Qed.



(** C10. [generateWallet] does not read its argument: whatever the
    strength, it asks the library for 24 words, the library draws 32
    bytes (256 bits) of entropy, and the wallet has the phrase of 24 words
    of that entropy. *)
Theorem generateWallet_ignores_strength (correct : LibraryCorrect lib)
    (rng : RandomSource) (strength : option N) :
  generateWallet rng strength = generateWallet rng (Some 256)
  /\ exists wallet,
       generateWallet rng strength = Resolved wallet
       /\ HdWallet.mnemonic wallet = Bip39_encode (getRandomValues rng 0 32)
       /\ length (split_space [] (HdWallet.mnemonic wallet)) = 24%nat.
Proof.
  split; [reflexivity|]. rewrite generateWallet_outcome.
  destruct (Bip39_encode_checked (getRandomValues rng 0 32)) as [Hok Hcount].
  { rewrite getRandomValues_length. cbn. tauto. }
  rewrite Hok. eexists. split; [reflexivity|]. cbn [HdWallet.mnemonic].
  split; [reflexivity|]. rewrite Hcount, getRandomValues_length. reflexivity.
Qed.

End Phrases.

(** The stand-in for the library keeps what is assumed of the library. *)
Lemma standin_library_correct : LibraryCorrect Standin.library.
Proof.
  constructor. intros entropy Hlen.
  cbn [Bip39_encode Standin.library].
  cbn [In] in Hlen.
  destruct Hlen as [<-|[<-|[<-|[<-|[<-|[]]]]]]; split; reflexivity.
Qed.


(** C10, at the strength 128: the wallet has twenty-four words. *)
Lemma generateWallet_ignores_strength_witness :
  @generateWallet Standin.library Standin.zeros (Some 128)
  = @generateWallet Standin.library Standin.zeros (Some 256)
  /\ exists wallet,
       @generateWallet Standin.library Standin.zeros (Some 128) = Resolved wallet
       /\ HdWallet.mnemonic wallet
          = @Bip39_encode Standin.library (getRandomValues Standin.zeros 0 32)
       /\ length (split_space [] (HdWallet.mnemonic wallet)) = 24%nat.
Proof.
  exact (@generateWallet_ignores_strength Standin.library
           standin_library_correct Standin.zeros (Some 128)).
Defined.



(** ** Claims on the session state machine *)

Section Session.

Import Background.
Open Scope Z_scope.

Lemma sessionTimeoutCheck_frame (now : Z) (st : State) :
  network (sessionTimeoutCheck now st) = network st
  /\ lastActivity (sessionTimeoutCheck now st) = lastActivity st.
Proof.
  unfold sessionTimeoutCheck.
  now destruct (isUnlocked st && (now - lastActivity st >? SESSION_TIMEOUT)).
Qed.

Lemma sessionTimeoutCheck_locked (now : Z) (st : State) :
  isUnlocked st = false -> sessionTimeoutCheck now st = st.
Proof. intros H. unfold sessionTimeoutCheck. now rewrite H. Qed.

(** C3. With the wallet unlocked, a check of the timer that fires when
    more than thirty minutes have passed since the last activity locks
    the wallet, and a check that fires at the time of the last activity
    leaves it unlocked; the timer fires every sixty seconds. *)
Theorem session_timeout_check (now : Z) (st : State) :
  isUnlocked st = true ->
  (now - lastActivity st > SESSION_TIMEOUT ->
   isUnlocked (step st (TimerTick now)) = false)
  /\ (lastActivity st = now -> isUnlocked (step st (TimerTick now)) = true)
  /\ SESSION_TIMEOUT = 30 * 60 * 1000
  /\ CHECK_INTERVAL <= 60 * 1000.
Proof.
  intros Hu. cbn [step]. unfold sessionTimeoutCheck. rewrite Hu. cbn [andb].
  repeat split.
  - intros Hlate. apply Z.gtb_gt in Hlate. now rewrite Hlate.
  - intros Hnow. rewrite Hnow, Z.sub_diag. cbn. exact Hu.
  - unfold CHECK_INTERVAL. lia.
Qed.

(** C3, at a wallet unlocked at time 1000: a check one millisecond after
    the thirty minutes locks it, a check at time 1000 does not. *)
Lemma session_timeout_check_witness :
  let st := {| isUnlocked := true; network := "mainnet"; lastActivity := 1000 |} in
  isUnlocked (step st (TimerTick (1000 + SESSION_TIMEOUT + 1))) = false
  /\ isUnlocked (step st (TimerTick 1000)) = true.
Proof.
  intros st.
  destruct (session_timeout_check (1000 + SESSION_TIMEOUT + 1) st eq_refl)
    as [Hlate _].
  destruct (session_timeout_check 1000 st eq_refl) as [_ [Hnow _]].
  split; [apply Hlate; reflexivity | apply Hnow; reflexivity].
Defined.

(** Every message of [chrome.runtime.onMessage] sets the time of the last
    activity, whatever its type and whatever the answer. *)
Lemma onMessage_sets_lastActivity (now : Z) (message : Message) (st : State) :
  lastActivity (fst (onMessage now message st)) = now.
Proof.
  unfold onMessage.
  repeat match goal with
  | |- context [if ?b then _ else _] => destruct b
  | |- context [match ?o with Some _ => _ | None => _ end] => destruct o
  end; reflexivity.
Qed.

(** C7 (the part the code does not do). A request on the port of the
    content script leaves the time of the last activity as it was. *)
Theorem port_request_keeps_lastActivity (port_name : string) (message : Message)
    (st : State) :
  step st (PortRequest port_name message) = st.
Proof.
  cbn [step]. unfold onConnect. destruct (String.eqb port_name "content-script");
    [|reflexivity].
  unfold onPortMessage.
  destruct (equals (type message) "REQUEST_ACCOUNTS"); [|reflexivity].
  now destruct (isUnlocked st).
Qed.

(** C9 (as amended). A [REQUEST_ACCOUNTS] message on the port of the
    content script is answered by one message, and the state is left as
    it is: with the wallet unlocked, the answer [ACCOUNTS_RESPONSE] with
    the one string [creata12345...] that the code has in the place of the
    accounts, whatever wallet is stored; with the wallet locked, the
    error [Wallet is locked] and no account. *)
Theorem request_accounts_response (message : Message) (st : State) :
  type message = Some "REQUEST_ACCOUNTS"%string ->
  exists listener,
    onConnect "content-script" = Some listener
    /\ listener message st =
       (st,
        [if isUnlocked st
         then {| port_type := "ACCOUNTS_RESPONSE";
                 port_accounts := Some ["creata12345..."%string];
                 port_error := None |}
         else {| port_type := "ERROR";
                 port_accounts := None;
                 port_error := Some "Wallet is locked"%string |}]).
Proof.
  intros Htype. exists onPortMessage. split; [reflexivity|].
  unfold onPortMessage. rewrite Htype. cbn [equals].
  replace (String.eqb "REQUEST_ACCOUNTS" "REQUEST_ACCOUNTS") with true by reflexivity.
  now destruct (isUnlocked st).
Qed.

(** C9, at the state the script starts in, which is locked, and at this
    state once unlocked. *)
Lemma request_accounts_response_witness :
  let request := {| type := Some "REQUEST_ACCOUNTS"%string; msg_network := None |} in
  let unlocked := {| isUnlocked := true; network := "mainnet"; lastActivity := 0 |} in
  (exists listener,
     onConnect "content-script" = Some listener
     /\ listener request (initial 0)
        = (initial 0,
           [{| port_type := "ERROR"; port_accounts := None;
               port_error := Some "Wallet is locked"%string |}]))
  /\ (exists listener,
        onConnect "content-script" = Some listener
        /\ listener request unlocked
           = (unlocked,
              [{| port_type := "ACCOUNTS_RESPONSE";
                  port_accounts := Some ["creata12345..."%string];
                  port_error := None |}])).
Proof.
  intros request unlocked. split.
  - exact (request_accounts_response request (initial 0) eq_refl).
  - exact (request_accounts_response request unlocked eq_refl).
Defined.

(** C9 (as stated) fails: with the wallet unlocked, what is posted in
    the place of the accounts is no list of addresses. It is one string,
    the same whatever the state of an unlocked wallet, and no address:
    [isValidAddress] refuses it, an address having 44 characters. *)
Lemma request_accounts_posts_no_address :
  Helpers.isValidAddress (js "creata12345...") = false
  /\ forall (st : State),
       isUnlocked st = true ->
       snd (onPortMessage
              {| type := Some "REQUEST_ACCOUNTS"%string; msg_network := None |} st)
       = [{| port_type := "ACCOUNTS_RESPONSE";
             port_accounts := Some ["creata12345..."%string];
             port_error := None |}].
Proof.
  split; [reflexivity|]. intros st Hunlocked.
  unfold onPortMessage. cbn [type equals].
  replace (String.eqb "REQUEST_ACCOUNTS" "REQUEST_ACCOUNTS") with true by reflexivity.
  now rewrite Hunlocked.
Qed.

(** What a run of timer calls does to the state: nothing but locking, and
    the wallet stays unlocked only if every call came early enough. *)
Lemma run_timer_calls (times : list Z) (st : State) :
  lastActivity (run st (map TimerTick times)) = lastActivity st
  /\ isUnlocked (run st (map TimerTick times))
     = isUnlocked st
       && forallb (fun t => negb (t - lastActivity st >? SESSION_TIMEOUT)) times.
Proof.
  revert st. induction times as [|t times IH]; intros st.
  - cbn. now rewrite andb_true_r.
  - cbn [map run fold_left forallb]. fold (run (step st (TimerTick t)) (map TimerTick times)).
    destruct (IH (step st (TimerTick t))) as [Hl Hu]. rewrite Hl, Hu.
    cbn [step]. destruct (sessionTimeoutCheck_frame t st) as [_ ->].
    split; [reflexivity|]. unfold sessionTimeoutCheck.
    destruct (isUnlocked st) eqn:E; cbn [andb]; [|now rewrite E].
    destruct (t - lastActivity st >? SESSION_TIMEOUT); cbn [negb andb isUnlocked];
      [reflexivity | now rewrite E].
Qed.

(** With no message in between, the wallet is locked by the first call of
    the timer that comes more than thirty minutes after the last
    activity: after [n] calls it is still unlocked exactly when the last
    of them came within the thirty minutes. *)
Theorem timer_locks_after_timeout (start : Z) (n : nat) (st : State) :
  isUnlocked st = true ->
  (isUnlocked (run st (timer_ticks start n)) = true <->
   n = 0%nat \/ start + Z.of_nat n * CHECK_INTERVAL - lastActivity st <= SESSION_TIMEOUT).
Proof.
  intros Hu. unfold timer_ticks.
  rewrite <- (map_map (fun k => start + Z.of_nat k * CHECK_INTERVAL) TimerTick).
  destruct (run_timer_calls
              (map (fun k => start + Z.of_nat k * CHECK_INTERVAL) (seq 1 n)) st)
    as [_ ->].
  rewrite Hu. cbn [andb]. rewrite forallb_forall. unfold CHECK_INTERVAL. split.
  - intros Hall. destruct n as [|n]; [now left|right].
    specialize (Hall (start + Z.of_nat (S n) * 60000)).
    rewrite negb_true_iff, Z.gtb_ltb, Z.ltb_ge in Hall. apply Hall.
    apply in_map_iff. exists (S n). split; [reflexivity|]. apply in_seq. lia.
  - intros Hlast t Ht. apply in_map_iff in Ht. destruct Ht as [k [<- Hk]].
    apply in_seq in Hk. rewrite negb_true_iff, Z.gtb_ltb, Z.ltb_ge.
    destruct Hlast as [-> | Hlast]; lia.
Qed.

(** Thirty calls of the timer, one a minute, leave the wallet unlocked
    and the thirty-first locks it, for a script and an activity at time 0. *)
Lemma timer_locks_after_timeout_witness :
  let st := {| isUnlocked := true; network := "mainnet"; lastActivity := 0 |} in
  (isUnlocked (run st (timer_ticks 0 30)) = true <->
   30%nat = 0%nat \/ 0 + Z.of_nat 30 * CHECK_INTERVAL - 0 <= SESSION_TIMEOUT)
  /\ (isUnlocked (run st (timer_ticks 0 31)) = true <->
      31%nat = 0%nat \/ 0 + Z.of_nat 31 * CHECK_INTERVAL - 0 <= SESSION_TIMEOUT).
Proof.
  intros st. split.
  - exact (timer_locks_after_timeout 0 30 st eq_refl).
  - exact (timer_locks_after_timeout 0 31 st eq_refl).
Defined.

End Session.

Import Encoding JSON.

(** ** [JSON.parse] reads what [JSON.stringify] wrote *)

Lemma hex_digit_hex_char (d : N) : d < 16 -> hex_digit (hex_char d) = Some d.
Proof.
  intros Hd. unfold hex_digit, hex_char, is_digit.
  destruct (N.ltb_spec d 10); settle_cmp; cbn [andb]; f_equal; lia.
Qed.

Lemma parse_string_cons (c : N) (rest : jsstring) :
  parse_string (c :: rest) =
  if c =? 34 then Some ([], rest)
  else if c =? 92 then
    match rest with
    | e :: rest1 =>
        if e =? 117 then
          match rest1 with
          | h1 :: h2 :: h3 :: h4 :: rest2 =>
              match hex_digit h1, hex_digit h2, hex_digit h3, hex_digit h4 with
              | Some d1, Some d2, Some d3, Some d4 =>
                  match parse_string rest2 with
                  | Some (str, rest3) =>
                      Some (d1 * 4096 + d2 * 256 + d3 * 16 + d4 :: str, rest3)
                  | None => None
                  end
              | _, _, _, _ => None
              end
          | _ => None
          end
        else
          match unescape e, parse_string rest1 with
          | Some u, Some (str, rest2) => Some (u :: str, rest2)
          | _, _ => None
          end
    | [] => None
    end
  else if c <? 32 then None
  else
    match parse_string rest with
    | Some (str, rest1) => Some (c :: str, rest1)
    | None => None
    end.
Proof. reflexivity. Qed.

Lemma parse_string_plain (c : N) (rest : jsstring) :
  c <> 34 -> c <> 92 -> 32 <= c ->
  parse_string (c :: rest) = read_after c (parse_string rest).
Proof.
  intros H1 H2 H3. rewrite parse_string_cons. settle_cmp. reflexivity.
Qed.

Lemma parse_string_UnicodeEscape (c : N) (rest : jsstring) :
  c < 65536 ->
  parse_string (UnicodeEscape c ++ rest) = read_after c (parse_string rest).
Proof.
  intros Hc. unfold UnicodeEscape. cbn [app].
  rewrite parse_string_cons.
  change (92 =? 34) with false. change (92 =? 92) with true.
  change (117 =? 117) with true. cbv iota.
  rewrite !hex_digit_hex_char by lia.
  replace (c / 4096 * 4096 + c / 256 mod 16 * 256 + c / 16 mod 16 * 16 + c mod 16)
    with c by lia.
  reflexivity.
Qed.

Lemma unescape_escape_of (u e : N) :
  escape_of u = Some e -> unescape e = Some u /\ e <> 117.
Proof.
  unfold escape_of.
  repeat match goal with
  | |- context [N.eqb ?a ?b] => destruct (N.eqb_spec a b); [subst; intros [= <-]; now split|]
  end.
  discriminate.
Qed.

Lemma parse_string_escape (u e : N) (rest : jsstring) :
  escape_of u = Some e ->
  parse_string (92 :: e :: rest) = read_after u (parse_string rest).
Proof.
  intros H. apply unescape_escape_of in H as [H1 H2].
  rewrite parse_string_cons.
  change (92 =? 34) with false. change (92 =? 92) with true. cbv iota.
  settle_cmp. now rewrite H1.
Qed.

Lemma escape_of_none (u : N) :
  escape_of u = None -> u <> 34 /\ u <> 92.
Proof.
  unfold escape_of.
  repeat match goal with
  | |- context [N.eqb ?a ?b] => destruct (N.eqb_spec a b); [discriminate|]
  end.
  now split.
Qed.

Lemma quote_characters_cons (u : N) (rest : jsstring) :
  quote_characters (u :: rest) =
  match escape_of u with
  | Some e => 92 :: e :: quote_characters rest
  | None =>
      if u <? 32 then UnicodeEscape u ++ quote_characters rest
      else if is_lead u then
        match rest with
        | v :: rest' =>
            if is_trail v then u :: v :: quote_characters rest'
            else UnicodeEscape u ++ quote_characters rest
        | [] => UnicodeEscape u
        end
      else if is_trail u then UnicodeEscape u ++ quote_characters rest
      else u :: quote_characters rest
  end.
Proof. reflexivity. Qed.

Lemma is_string_cons (u : N) (s : jsstring) :
  is_string (u :: s) = true <-> u < 65536 /\ is_string s = true.
Proof.
  unfold is_string. cbn [forallb]. now rewrite andb_true_iff, N.ltb_lt.
Qed.

Lemma surrogate_plain (u : N) :
  is_lead u = true \/ is_trail u = true -> u <> 34 /\ u <> 92 /\ 32 <= u.
Proof.
  unfold is_lead, is_trail. rewrite !andb_true_iff, !N.leb_le. lia.
Qed.

(** The string literal that [QuoteJSONString] writes is read back as
    the string. *)
Lemma parse_string_quote_characters (s : jsstring) :
  is_string s = true ->
  forall tail, parse_string (quote_characters s ++ 34 :: tail) = Some (s, tail).
Proof.
  induction s as [|u|u v s IH1 IH2] using list_ind2.
  - intros _ tail. reflexivity.
  - intros [Hu _]%is_string_cons tail. rewrite quote_characters_cons.
    destruct (escape_of u) as [e|] eqn:He.
    + cbn [app quote_characters]. now rewrite (parse_string_escape u e).
    + destruct (escape_of_none u He) as [H34 H92].
      destruct (N.ltb_spec u 32).
      * now rewrite <- app_assoc, parse_string_UnicodeEscape.
      * destruct (is_lead u) eqn:Hl; [now rewrite parse_string_UnicodeEscape|].
        destruct (is_trail u) eqn:Ht.
        -- now rewrite <- app_assoc, parse_string_UnicodeEscape.
        -- cbn [app quote_characters]. now rewrite parse_string_plain.
  - intros [Hu Hs]%is_string_cons tail.
    pose proof Hs as [Hv Hs']%is_string_cons.
    rewrite quote_characters_cons.
    destruct (escape_of u) as [e|] eqn:He.
    + cbn [app]. now rewrite (parse_string_escape u e), IH2.
    + destruct (escape_of_none u He) as [H34 H92].
      destruct (N.ltb_spec u 32).
      * now rewrite <- app_assoc, parse_string_UnicodeEscape, IH2.
      * destruct (is_lead u) eqn:Hl.
        -- destruct (is_trail v) eqn:Htv.
           ++ cbn [app].
              destruct (surrogate_plain v (or_intror Htv)) as [? [? ?]].
              now rewrite !parse_string_plain, IH1.
           ++ now rewrite <- app_assoc, parse_string_UnicodeEscape, IH2.
        -- destruct (is_trail u) eqn:Ht.
           ++ now rewrite <- app_assoc, parse_string_UnicodeEscape, IH2.
           ++ cbn [app]. now rewrite parse_string_plain, IH2.
Qed.

(** *** Induction on values, through arrays and objects *)

Lemma JSValue_induction (P : JSValue -> Prop) :
  P JNull -> (forall b, P (JBool b)) -> (forall n, P (JNumber n)) ->
  (forall s, P (JString s)) ->
  (forall elements, Forall P elements -> P (JArray elements)) ->
  (forall members, Forall (fun member => P (snd member)) members -> P (JObject members)) ->
  forall v, P v.
Proof.
  intros Hnull Hbool Hnumber Hstring Harray Hobject.
  fix IH 1.
  intros [|b|n|s|elements|members].
  - apply Hnull.
  - apply Hbool.
  - apply Hnumber.
  - apply Hstring.
  - apply Harray.
    induction elements as [|v elements IHl]; constructor; [apply IH | apply IHl].
  - apply Hobject.
    induction members as [|[key v] members IHl]; constructor; [apply IH | apply IHl].
Qed.

Section Text.

Context {numbers : NumberText}.

Lemma stringify_array (elements : list JSValue) :
  stringify (JArray elements) = 91 :: join_comma (map stringify elements) ++ [93].
Proof. reflexivity. Qed.

Lemma stringify_object (members : list (jsstring * JSValue)) :
  stringify (JObject members) =
  123 :: join_comma
           (map (fun member => QuoteJSONString (fst member) ++ 58 :: stringify (snd member))
              members)
      ++ [125].
Proof. reflexivity. Qed.

Lemma without_numbers_array (elements : list JSValue) :
  without_numbers (JArray elements) = forallb without_numbers elements.
Proof. reflexivity. Qed.

Lemma without_numbers_object (members : list (jsstring * JSValue)) :
  without_numbers (JObject members) =
  keys_in_order (map fst members)
  && forallb (fun member => is_string (fst member) && without_numbers (snd member)) members.
Proof. reflexivity. Qed.

Lemma depth_array (elements : list JSValue) :
  depth (JArray elements) = S (fold_right (fun v d => Nat.max (depth v) d) 0%nat elements).
Proof. reflexivity. Qed.

Lemma depth_object (members : list (jsstring * JSValue)) :
  depth (JObject members) =
  S (fold_right (fun member d => Nat.max (depth (snd member)) d) 0%nat members).
Proof. reflexivity. Qed.

Lemma join_comma_cons (t : jsstring) (ts : list jsstring) :
  join_comma (t :: ts) = t ++ flat_map (fun x => 44 :: x) ts.
Proof.
  revert t. induction ts as [|t' ts IH]; intros t.
  - cbn. now rewrite app_nil_r.
  - change (join_comma (t :: t' :: ts)) with (t ++ 44 :: join_comma (t' :: ts)).
    now rewrite IH.
Qed.

Lemma stringify_opening (v : JSValue) :
  without_numbers v = true ->
  exists c rest, stringify v = c :: rest /\ opening c = true.
Proof.
  destruct v as [|[|]|n|s|elements|members]; intros H; try discriminate;
    try (eexists _, _; split; [reflexivity|reflexivity]).
Qed.

Lemma skip_whitespace_opening (c : N) (rest : jsstring) :
  opening c = true -> skip_whitespace (c :: rest) = c :: rest.
Proof.
  intros H. cbn [skip_whitespace]. unfold opening in H. unfold is_json_whitespace.
  repeat match type of H with
  | context [N.eqb ?a ?b] => destruct (N.eqb_spec a b); [subst; reflexivity|]
  end.
  discriminate.
Qed.

Lemma closes_opening (k c : N) (rest : jsstring) :
  opening c = true -> opening k = false -> closes k (c :: rest) = None.
Proof.
  intros H Hk. unfold closes. rewrite skip_whitespace_opening by assumption.
  destruct (N.eqb_spec c k); [subst; congruence | reflexivity].
Qed.

Lemma parse_value_cons (fuel : nat) (c : N) (rest : jsstring) :
  opening c = true ->
  parse_value (S fuel) (c :: rest) =
  if c =? 123 then
    match closes 125 rest with
    | Some rest1 => Some (JObject [], rest1)
    | None =>
        match parse_member (parse_value fuel) rest with
        | Some (key, v, rest1) =>
            match parse_members (parse_value fuel) (S (length rest1)) rest1 with
            | Some (ms, rest2) => Some (JObject (object_of ((key, v) :: ms)), rest2)
            | None => None
            end
        | None => None
        end
    end
  else if c =? 91 then
    match closes 93 rest with
    | Some rest1 => Some (JArray [], rest1)
    | None =>
        match parse_value fuel rest with
        | Some (v, rest1) =>
            match parse_elements (parse_value fuel) (S (length rest1)) rest1 with
            | Some (vs, rest2) => Some (JArray (v :: vs), rest2)
            | None => None
            end
        | None => None
        end
    end
  else if c =? 34 then
    match parse_string rest with
    | Some (str, rest1) => Some (JString str, rest1)
    | None => None
    end
  else if c =? 116 then
    match expect (js "rue") rest with
    | Some rest1 => Some (JBool true, rest1)
    | None => None
    end
  else if c =? 102 then
    match expect (js "alse") rest with
    | Some rest1 => Some (JBool false, rest1)
    | None => None
    end
  else if c =? 110 then
    match expect (js "ull") rest with
    | Some rest1 => Some (JNull, rest1)
    | None => None
    end
  else
    match parse_number (c :: rest) with
    | Some (n, rest1) => Some (JNumber n, rest1)
    | None => None
    end.
Proof.
  intros H. cbn [parse_value]. now rewrite skip_whitespace_opening.
Qed.

Lemma parse_elements_cons (inner : jsstring -> option (JSValue * jsstring))
    (fuel : nat) (c : N) (rest : jsstring) :
  is_json_whitespace c = false ->
  parse_elements inner (S fuel) (c :: rest) =
  if c =? 93 then Some ([], rest)
  else if c =? 44 then
    match inner rest with
    | Some (v, rest1) =>
        match parse_elements inner fuel rest1 with
        | Some (vs, rest2) => Some (v :: vs, rest2)
        | None => None
        end
    | None => None
    end
  else None.
Proof. intros H. cbn [parse_elements skip_whitespace]. now rewrite H. Qed.

Lemma parse_members_cons (inner : jsstring -> option (JSValue * jsstring))
    (fuel : nat) (c : N) (rest : jsstring) :
  is_json_whitespace c = false ->
  parse_members inner (S fuel) (c :: rest) =
  if c =? 125 then Some ([], rest)
  else if c =? 44 then
    match parse_member inner rest with
    | Some (key, v, rest1) =>
        match parse_members inner fuel rest1 with
        | Some (ms, rest2) => Some ((key, v) :: ms, rest2)
        | None => None
        end
    | None => None
    end
  else None.
Proof. intros H. cbn [parse_members skip_whitespace]. now rewrite H. Qed.

(** The elements after the first, each after its comma, are read back. *)
Lemma parse_elements_stringify (inner : jsstring -> option (JSValue * jsstring))
    (elements : list JSValue) :
  Forall (fun v => forall tail, inner (stringify v ++ tail) = Some (v, tail)) elements ->
  forall fuel tail, (length elements < fuel)%nat ->
  parse_elements inner fuel
    (flat_map (fun x => 44 :: x) (map stringify elements) ++ 93 :: tail)
  = Some (elements, tail).
Proof.
  induction 1 as [|v elements Hv _ IH]; intros [|fuel] tail Hfuel;
    cbn [length] in Hfuel; try lia.
  - cbn [map flat_map app]. now rewrite parse_elements_cons.
  - cbn [map flat_map app]. rewrite parse_elements_cons by reflexivity.
    change (44 =? 93) with false. change (44 =? 44) with true. cbv iota.
    rewrite <- app_assoc, Hv, IH by lia. reflexivity.
Qed.

(** One member, a key and a value, is read back. *)
Lemma parse_member_stringify (inner : jsstring -> option (JSValue * jsstring))
    (key : jsstring) (v : JSValue) (tail : jsstring) :
  is_string key = true ->
  (forall tail, inner (stringify v ++ tail) = Some (v, tail)) ->
  parse_member inner (QuoteJSONString key ++ 58 :: stringify v ++ tail)
  = Some (key, v, tail).
Proof.
  intros Hkey Hv. unfold parse_member, QuoteJSONString.
  cbn [app]. rewrite skip_whitespace_opening by reflexivity.
  change (34 =? 34) with true. cbv iota.
  rewrite <- app_assoc. cbn [app].
  rewrite parse_string_quote_characters by assumption.
  cbn [skip_whitespace]. change (is_json_whitespace 58) with false. cbv iota.
  change (58 =? 58) with true. cbv iota.
  now rewrite Hv.
Qed.

Lemma parse_members_stringify (inner : jsstring -> option (JSValue * jsstring))
    (members : list (jsstring * JSValue)) :
  Forall (fun member =>
            is_string (fst member) = true
            /\ forall tail, inner (stringify (snd member) ++ tail) = Some (snd member, tail))
    members ->
  forall fuel tail, (length members < fuel)%nat ->
  parse_members inner fuel
    (flat_map (fun x => 44 :: x)
       (map (fun member => QuoteJSONString (fst member) ++ 58 :: stringify (snd member))
          members)
     ++ 125 :: tail)
  = Some (members, tail).
Proof.
  induction 1 as [|[key v] members [Hkey Hv] _ IH]; intros [|fuel] tail Hfuel;
    cbn [length] in Hfuel; try lia.
  - cbn [map flat_map app]. now rewrite parse_members_cons.
  - cbn [map flat_map app fst snd]. rewrite parse_members_cons by reflexivity.
    change (44 =? 125) with false. change (44 =? 44) with true. cbv iota.
    rewrite <- !app_assoc. cbn [app].
    rewrite (parse_member_stringify inner key v) by assumption.
    now rewrite IH by lia.
Qed.

Lemma flat_map_comma_length (texts : list jsstring) :
  (length texts <= length (flat_map (fun x : jsstring => 44%N :: x) texts))%nat.
Proof.
  induction texts as [|t texts IH]; cbn [flat_map length]; [lia|].
  rewrite length_app. cbn [length]. lia.
Qed.

Lemma fold_max_bound {A : Type} (f : A -> nat) (l : list A) (x : A) :
  In x l -> (f x <= fold_right (fun y d => Nat.max (f y) d) 0%nat l)%nat.
Proof.
  induction l as [|y l IH]; [contradiction|].
  intros [-> | H]; cbn [fold_right]; [lia|]. specialize (IH H). lia.
Qed.

(** *** The object of members that are in order *)

Lemma define_property_last (members : list (jsstring * JSValue)) (key : jsstring)
    (value : JSValue) :
  Forall (fun member => fst member <> key /\ comes_before key (fst member) = false)
    members ->
  define_property members key value = members ++ [(key, value)].
Proof.
  induction 1 as [|[k w] members [Hk Hbefore] _ IH]; [reflexivity|].
  cbn [define_property app fst] in *.
  rewrite bool_decide_eq_false_2 by assumption. now rewrite Hbefore, IH.
Qed.

Lemma keys_in_order_before (earlier later : list jsstring) (key : jsstring) :
  keys_in_order (earlier ++ key :: later) = true ->
  Forall (fun k => k <> key /\ comes_before key k = false) earlier.
Proof.
  induction earlier as [|k earlier IH]; [constructor|].
  cbn [app keys_in_order]. intros [Hk Hrest]%andb_true_iff.
  constructor; [|now apply IH].
  rewrite forallb_forall in Hk.
  assert (Hin : In key (earlier ++ key :: later)) by (apply in_or_app; right; now left).
  specialize (Hk key Hin).
  apply andb_true_iff in Hk as [Hne Hbefore]. split.
  - intros ->. now rewrite bool_decide_eq_true_2 in Hne.
  - now apply negb_true_iff.
Qed.

(** Members whose keys are in order make the object that has them as
    they stand. *)
Lemma object_of_in_order (members : list (jsstring * JSValue)) :
  keys_in_order (map fst members) = true -> object_of members = members.
Proof.
  unfold object_of.
  enough (H : forall object,
             keys_in_order (map fst (object ++ members)) = true ->
             fold_left (fun object member =>
                          define_property object (fst member) (snd member))
               members object
             = object ++ members) by (intros Hk; now apply (H [])).
  induction members as [|[key value] members IH]; intros object Hk.
  - now rewrite app_nil_r.
  - cbn [fold_left fst snd]. rewrite define_property_last.
    + rewrite IH; rewrite <- app_assoc; [reflexivity | exact Hk].
    + rewrite map_app in Hk. cbn [map fst] in Hk.
      apply keys_in_order_before in Hk.
      apply Forall_forall. intros [k w] Hin. rewrite List.Forall_forall in Hk.
      apply (Hk k). apply list_elem_of_In in Hin.
      change k with (fst (k, w)). now apply in_map.
Qed.

(** The text of a value without numbers, before any other text, is read
    back as the value, given fuel for its depth. *)
Lemma parse_value_stringify (v : JSValue) :
  without_numbers v = true ->
  forall fuel tail, (depth v < fuel)%nat ->
  parse_value fuel (stringify v ++ tail) = Some (v, tail).
Proof.
  induction v as [|b|n|s|elements IH|members IH] using JSValue_induction;
    intros Hv [|fuel] tail Hfuel; try lia; try discriminate.
  - reflexivity.
  - destruct b; reflexivity.
  - cbn [stringify]. unfold QuoteJSONString. cbn [app].
    rewrite parse_value_cons by reflexivity.
    change (34 =? 123) with false. change (34 =? 91) with false.
    change (34 =? 34) with true. cbv iota.
    rewrite <- app_assoc. cbn [app].
    now rewrite parse_string_quote_characters.
  - rewrite stringify_array. cbn [app].
    rewrite parse_value_cons by reflexivity.
    change (91 =? 123) with false. change (91 =? 91) with true. cbv iota.
    rewrite without_numbers_array in Hv. rewrite depth_array in Hfuel.
    destruct elements as [|v elements]; [reflexivity|].
    cbn [map]. rewrite join_comma_cons, <- !app_assoc. cbn [app].
    cbn [forallb] in Hv. apply andb_true_iff in Hv as [Hv Hvs].
    destruct (stringify_opening v Hv) as [c [rest [Hc Hopen]]].
    rewrite Hc. cbn [app]. rewrite closes_opening by (assumption || reflexivity).
    rewrite app_comm_cons, <- Hc.
    assert (Hinner : Forall (fun v => forall tail,
                parse_value fuel (stringify v ++ tail) = Some (v, tail)) (v :: elements)).
    { apply Forall_forall. intros x Hx tail'.
      rewrite List.Forall_forall in IH. apply IH.
      - now apply list_elem_of_In.
      - assert (forallb without_numbers (v :: elements) = true) as Hall
          by (cbn [forallb]; now rewrite Hv, Hvs).
        rewrite forallb_forall in Hall. apply Hall. now apply list_elem_of_In.
      - pose proof (fold_max_bound depth (v :: elements) x) as Hb.
        apply list_elem_of_In in Hx. specialize (Hb Hx). lia. }
    inversion Hinner as [|? ? Hfirst Hrest]; subst.
    rewrite Hfirst.
    rewrite parse_elements_stringify; [reflexivity | assumption |].
    rewrite length_app.
    pose proof (flat_map_comma_length (map stringify elements)) as Hl.
    rewrite length_map in Hl. lia.
  - rewrite stringify_object. cbn [app].
    rewrite parse_value_cons by reflexivity.
    change (123 =? 123) with true. cbv iota.
    rewrite without_numbers_object in Hv. rewrite depth_object in Hfuel.
    destruct members as [|[key v] members]; [reflexivity|].
    apply andb_true_iff in Hv as [Hkeys Hv].
    assert (Hinner : Forall (fun member =>
                is_string (fst member) = true
                /\ forall tail, parse_value fuel (stringify (snd member) ++ tail)
                                = Some (snd member, tail)) ((key, v) :: members)).
    { apply Forall_forall. intros x Hx.
      rewrite forallb_forall in Hv. apply list_elem_of_In in Hx.
      specialize (Hv x Hx). apply andb_true_iff in Hv as [Hk Hxv].
      split; [assumption|]. intros tail'.
      rewrite List.Forall_forall in IH. apply IH; [assumption | assumption |].
      pose proof (fold_max_bound (fun m => depth (snd m)) ((key, v) :: members) x Hx) as Hb.
      cbn beta in Hb. lia. }
    inversion Hinner as [|? ? [Hkey Hfirst] Hrest]; subst.
    cbn [map fst snd] in *. rewrite join_comma_cons, <- !app_assoc. cbn [app].
    unfold QuoteJSONString at 1. cbn [app].
    rewrite closes_opening by reflexivity.
    rewrite (parse_member_stringify (parse_value fuel) key v) by assumption.
    rewrite (parse_members_stringify (parse_value fuel) members Hrest);
      [now rewrite object_of_in_order|].
    rewrite length_app.
    pose proof (flat_map_comma_length
                  (map (fun member => QuoteJSONString (fst member)
                                      ++ 58 :: stringify (snd member)) members)) as Hl.
    rewrite length_map in Hl. lia.
Qed.

Lemma join_comma_length (texts : list jsstring) (t : jsstring) :
  In t texts -> (length t <= length (join_comma texts))%nat.
Proof.
  destruct texts as [|t0 texts]; [contradiction|].
  rewrite join_comma_cons, length_app. intros [-> | H]; [lia|].
  induction texts as [|t1 texts IH]; [contradiction|].
  change (flat_map (fun x : jsstring => 44 :: x) (t1 :: texts))
    with ((44 :: t1) ++ flat_map (fun x : jsstring => 44 :: x) texts).
  rewrite length_app. cbn [length].
  destruct H as [-> | H]; [lia|]. specialize (IH H). lia.
Qed.

Lemma depth_length (v : JSValue) : (depth v <= length (stringify v))%nat.
Proof.
  induction v as [|b|n|s|elements IH|members IH] using JSValue_induction;
    try (cbn [depth]; lia).
  - rewrite depth_array, stringify_array. cbn [length]. rewrite length_app.
    cbn [length]. apply le_n_S.
    transitivity (length (join_comma (map stringify elements))); [|lia].
    induction IH as [|v elements Hv _ IHl]; cbn [fold_right]; [lia|].
    apply Nat.max_lub.
    + etransitivity; [exact Hv|]. apply join_comma_length. now left.
    + etransitivity; [exact IHl|]. cbn [map]. rewrite join_comma_cons, length_app.
      destruct elements as [|v' elements]; [cbn; lia|].
      cbn [map]. rewrite join_comma_cons. cbn [flat_map]. rewrite !length_app.
      cbn [length]. lia.
  - rewrite depth_object, stringify_object. cbn [length]. rewrite length_app.
    cbn [length]. apply le_n_S.
    set (text := fun member : jsstring * JSValue =>
                   QuoteJSONString (fst member) ++ 58 :: stringify (snd member)).
    transitivity (length (join_comma (map text members))); [|lia].
    induction IH as [|m members Hm _ IHl]; cbn [fold_right]; [lia|].
    apply Nat.max_lub.
    + transitivity (length (text m)).
      * unfold text. rewrite length_app. cbn [length]. lia.
      * apply join_comma_length. now left.
    + etransitivity; [exact IHl|]. cbn [map]. rewrite join_comma_cons, length_app.
      destruct members as [|m' members]; [cbn; lia|].
      cbn [map]. rewrite join_comma_cons. cbn [flat_map]. rewrite !length_app.
      cbn [length]. lia.
Qed.

(** [JSON.parse(JSON.stringify(value))] is the value, for a value
    without numbers. *)
Lemma parse_stringify (v : JSValue) :
  without_numbers v = true -> JSON.parse (stringify v) = Ok v.
Proof.
  intros Hv. unfold JSON.parse.
  pose proof (parse_value_stringify v Hv (S (length (stringify v))) []) as H.
  rewrite app_nil_r in H. rewrite H; [reflexivity|].
  pose proof (depth_length v). lia.
Qed.

End Text.

(** *** The text of [JSON.stringify] is a well-formed string *)

Lemma isWellFormed_app (a b : jsstring) :
  isWellFormed a = true -> isWellFormed b = true -> isWellFormed (a ++ b) = true.
Proof.
  induction a as [|u|u v a IH1 IH2] using list_ind2; intros Ha Hb.
  - exact Hb.
  - cbn [app]. rewrite isWellFormed_cons in *.
    destruct (is_lead u); [discriminate|].
    apply andb_true_iff in Ha as [Hu _]. now rewrite Hu.
  - change ((u :: v :: a) ++ b) with (u :: v :: a ++ b).
    rewrite isWellFormed_cons in *.
    destruct (is_lead u).
    + apply andb_true_iff in Ha as [Hv Ha]. rewrite Hv. now apply IH1.
    + apply andb_true_iff in Ha as [Hu Ha]. rewrite Hu. now apply IH2.
Qed.

Lemma below_surrogates_string (s : jsstring) :
  below_surrogates s = true -> is_string s = true /\ isWellFormed s = true.
Proof.
  induction s as [|c s IH]; [now split|].
  unfold below_surrogates. cbn [forallb]. intros [Hc Hs]%andb_true_iff.
  destruct (IH Hs) as [IH1 IH2]. apply N.ltb_lt in Hc. split.
  - apply is_string_cons. split; [lia | assumption].
  - rewrite isWellFormed_cons. unfold is_lead, is_trail. settle_cmp. exact IH2.
Qed.

Lemma hex_char_bound (d : N) : d < 16 -> hex_char d < 128.
Proof. intros H. unfold hex_char. destruct (N.ltb_spec d 10); lia. Qed.

Lemma UnicodeEscape_below (c : N) :
  c < 65536 -> below_surrogates (UnicodeEscape c) = true.
Proof.
  intros Hc. unfold UnicodeEscape, below_surrogates. cbn [forallb].
  pose proof (hex_char_bound (c / 4096)).
  pose proof (hex_char_bound ((c / 256) mod 16)).
  pose proof (hex_char_bound ((c / 16) mod 16)).
  pose proof (hex_char_bound (c mod 16)).
  rewrite !andb_true_iff, !N.ltb_lt. lia.
Qed.

Lemma escape_of_bound (u e : N) : escape_of u = Some e -> e < 128.
Proof.
  unfold escape_of.
  repeat match goal with
  | |- context [N.eqb ?a ?b] => destruct (N.eqb_spec a b); [intros [= <-]; lia|]
  end.
  discriminate.
Qed.

Lemma quote_characters_string (s : jsstring) :
  is_string s = true ->
  is_string (quote_characters s) = true /\ isWellFormed (quote_characters s) = true.
Proof.
  assert (Hescape : forall u t, u < 65536 ->
            is_string t = true /\ isWellFormed t = true ->
            is_string (UnicodeEscape u ++ t) = true
            /\ isWellFormed (UnicodeEscape u ++ t) = true).
  { intros u t Hu [Ht1 Ht2].
    destruct (below_surrogates_string _ (UnicodeEscape_below u Hu)) as [H1 H2]. split.
    - unfold is_string in *. now rewrite forallb_app, H1, Ht1.
    - now apply isWellFormed_app. }
  assert (Hplain : forall c t, c < 65536 -> is_lead c = false -> is_trail c = false ->
            is_string t = true /\ isWellFormed t = true ->
            is_string (c :: t) = true /\ isWellFormed (c :: t) = true).
  { intros c t Hc Hl Ht [Ht1 Ht2]. split.
    - now apply is_string_cons.
    - rewrite isWellFormed_cons, Hl, Ht. exact Ht2. }
  assert (Hlow : forall c, c < 128 -> c < 65536 /\ is_lead c = false /\ is_trail c = false).
  { intros c Hc. unfold is_lead, is_trail. settle_cmp. repeat split. lia. }
  induction s as [|u|u v s IH1 IH2] using list_ind2.
  - now split.
  - intros [Hu _]%is_string_cons. rewrite quote_characters_cons.
    destruct (escape_of u) as [e|] eqn:He.
    + pose proof (escape_of_bound u e He) as Heb.
      destruct (Hlow e Heb) as [? [? ?]]. destruct (Hlow 92 ltac:(lia)) as [? [? ?]].
      apply Hplain; try assumption. apply Hplain; try assumption. now split.
    + destruct (N.ltb_spec u 32); [apply Hescape; [assumption | now split]|].
      destruct (is_lead u) eqn:Hl.
      * rewrite <- (app_nil_r (UnicodeEscape u)). apply Hescape; [assumption | now split].
      * destruct (is_trail u) eqn:Ht; [apply Hescape; [assumption | now split]|].
        apply Hplain; try assumption. now split.
  - intros [Hu Hs]%is_string_cons.
    pose proof Hs as [Hv Hs']%is_string_cons.
    specialize (IH1 Hs'). specialize (IH2 Hs).
    rewrite quote_characters_cons.
    destruct (escape_of u) as [e|] eqn:He.
    + pose proof (escape_of_bound u e He) as Heb.
      destruct (Hlow e Heb) as [? [? ?]]. destruct (Hlow 92 ltac:(lia)) as [? [? ?]].
      apply Hplain; try assumption. now apply Hplain.
    + destruct (N.ltb_spec u 32); [now apply Hescape|].
      destruct (is_lead u) eqn:Hl.
      * destruct (is_trail v) eqn:Htv; [|now apply Hescape].
        destruct IH1 as [IH1a IH1b]. split.
        -- apply is_string_cons. split; [assumption|]. now apply is_string_cons.
        -- rewrite isWellFormed_cons, Hl, Htv. exact IH1b.
      * destruct (is_trail u) eqn:Ht; [now apply Hescape|].
        now apply Hplain.
Qed.

Lemma is_text_spec (s : jsstring) :
  is_text s = true <->
  is_string s = true /\ isWellFormed s = true /\ starts_with_bom s = false /\ s <> [].
Proof.
  unfold is_text. rewrite !andb_true_iff, !negb_true_iff, Nat.eqb_neq.
  destruct s; cbn [length]; intuition (congruence || lia).
Qed.

(** Text in brackets, with a low character in front and at the end. *)
Lemma is_text_enclosed (c d : N) (s : jsstring) :
  c < 128 -> d < 128 ->
  is_string s = true /\ isWellFormed s = true ->
  is_text (c :: s ++ [d]) = true.
Proof.
  intros Hc Hd [Hs1 Hs2]. apply is_text_spec. repeat split.
  - apply is_string_cons. split; [lia|]. unfold is_string in *.
    rewrite forallb_app, Hs1. cbn [forallb]. now settle_cmp.
  - rewrite isWellFormed_cons. unfold is_lead, is_trail. settle_cmp. cbn [andb negb].
    apply isWellFormed_app; [assumption|].
    rewrite isWellFormed_cons. unfold is_lead, is_trail. now settle_cmp.
  - cbn [starts_with_bom]. now settle_cmp.
  - discriminate.
Qed.

Lemma QuoteJSONString_text (s : jsstring) :
  is_string s = true -> is_text (QuoteJSONString s) = true.
Proof.
  intros Hs. unfold QuoteJSONString. apply is_text_enclosed; try lia.
  now apply quote_characters_string.
Qed.

Lemma is_text_app (a b : jsstring) :
  is_text a = true -> is_string b = true /\ isWellFormed b = true ->
  is_text (a ++ b) = true.
Proof.
  intros (Ha1 & Ha2 & Ha3 & Ha4)%is_text_spec [Hb1 Hb2]. apply is_text_spec.
  repeat split.
  - unfold is_string in *. now rewrite forallb_app, Ha1, Hb1.
  - now apply isWellFormed_app.
  - destruct a; [contradiction | exact Ha3].
  - destruct a; [contradiction | discriminate].
Qed.

Lemma is_text_string (s : jsstring) :
  is_text s = true -> is_string s = true /\ isWellFormed s = true.
Proof. intros (H1 & H2 & _)%is_text_spec. now split. Qed.

Section WrittenText.

Context {numbers : NumberText}.

Lemma join_comma_string (texts : list jsstring) :
  Forall (fun t => is_text t = true) texts ->
  is_string (join_comma texts) = true /\ isWellFormed (join_comma texts) = true.
Proof.
  induction 1 as [|t texts Ht Hall IH]; [now split|].
  destruct texts as [|t' texts]; [now apply is_text_string|].
  change (join_comma (t :: t' :: texts)) with (t ++ 44 :: join_comma (t' :: texts)).
  apply is_text_string, is_text_app; [assumption|].
  destruct IH as [IH1 IH2]. split.
  - apply is_string_cons. split; [lia | assumption].
  - rewrite isWellFormed_cons. unfold is_lead, is_trail. now settle_cmp.
Qed.

(** The text of a value without numbers is a well-formed string, not
    empty, without byte order mark in front. *)
Lemma stringify_text (v : JSValue) :
  without_numbers v = true -> is_text (stringify v) = true.
Proof.
  induction v as [|b|n|s|elements IH|members IH] using JSValue_induction; intros Hv.
  - reflexivity.
  - destruct b; reflexivity.
  - discriminate.
  - now apply QuoteJSONString_text.
  - rewrite stringify_array. apply is_text_enclosed; try lia.
    apply join_comma_string. rewrite without_numbers_array in Hv.
    rewrite forallb_forall in Hv. rewrite List.Forall_forall in IH.
    apply List.Forall_forall. intros t (v & <- & Hin)%in_map_iff.
    apply IH; [assumption|]. now apply Hv.
  - rewrite stringify_object. apply is_text_enclosed; try lia.
    apply join_comma_string. rewrite without_numbers_object in Hv.
    apply andb_true_iff in Hv as [_ Hv].
    rewrite forallb_forall in Hv. rewrite List.Forall_forall in IH.
    apply List.Forall_forall. intros t (m & <- & Hin)%in_map_iff.
    specialize (Hv m Hin). apply andb_true_iff in Hv as [Hk Hm].
    apply is_text_app; [now apply QuoteJSONString_text|].
    destruct (is_text_string _ (IH m Hin Hm)) as [H1 H2]. split.
    + apply is_string_cons. split; [lia | assumption].
    + rewrite isWellFormed_cons. unfold is_lead, is_trail. now settle_cmp.
Qed.

End WrittenText.

Import Encoding Base64 Crypto JSON Storage Chrome HdWallet Keyring Browser.

(** ** What is saved is what is read: [saveData], [getData], [removeData] *)

Lemma no_failure_next (b : browser) : no_failure b -> next_report b = None.
Proof.
  unfold no_failure, next_report. destruct (reports b) as [|r rest]; [reflexivity|].
  now intros [-> _]%Forall_cons.
Qed.

Lemma promise_of_callback_outcome
    (change : gmap string (list N) -> gmap string (list N)) (b : browser) :
  promise_of_callback (storage_call change) b =
  match next_report b with
  | Some e =>
      (Rejected (LastError e),
       {| items := items b; reports := tl (reports b); random := random b |})
  | None =>
      (Resolved tt,
       {| items := change (items b); reports := tl (reports b); random := random b |})
  end.
Proof.
  unfold promise_of_callback, storage_call. now destruct (next_report b).
Qed.

Lemma no_failure_tl (b : browser) (stored : gmap string (list N)) (rng : RandomSource) :
  no_failure b ->
  no_failure {| items := stored; reports := tl (reports b); random := rng |}.
Proof.
  unfold no_failure. cbn [reports]. destruct (reports b) as [|r rest]; [easy|].
  now intros [_ H]%Forall_cons.
Qed.

Lemma no_failure_drawn (n : nat) (b : browser) : no_failure b -> no_failure (drawn n b).
Proof. easy. Qed.

Section Saved.

Context {wc : WebCrypto} {numbers : NumberText}.

(** What [saveData] does, case by case. *)
Lemma saveData_outcome (key : string) (value : JSValue) (secure : bool)
    (password : option jsstring) (b : browser) :
  saveData key value secure password b =
  if secure then
    if no_password password
    then (Rejected (Error "Password is required for secure storage"), b)
    else
      match encrypt (random b) (stringify value) (default [] password) with
      | Resolved blob => promise_of_callback (storage_set key blob) (drawn 28 b)
      | Rejected e => (Rejected e, drawn 28 b)
      | Pending => (Pending, drawn 28 b)
      end
  else promise_of_callback (storage_set key (stringify value)) b.
Proof.
  unfold saveData, catch, bind, encrypt_call, throw, ret.
  destruct secure.
  - destruct (no_password password); [reflexivity|].
    destruct (encrypt _ _ _) as [blob| |]; [|reflexivity..].
    unfold storage_set. rewrite promise_of_callback_outcome.
    now destruct (next_report _).
  - unfold storage_set. rewrite promise_of_callback_outcome.
    now destruct (next_report _).
Qed.

(** What [encrypt] made of a text is read back by [decrypt] with the
    same password, and is not empty. *)
Lemma decrypt_encrypted (correct : WebCryptoCorrect wc) (rng : RandomSource)
    (data password blob : jsstring) :
  is_text data = true ->
  encrypt rng data password = Resolved blob ->
  decrypt blob password = Resolved data /\ blob <> [].
Proof.
  intros (Hs & Hwf & Hbom & _)%is_text_spec Hblob. split.
  - pose proof (decrypt_after_encrypt rng data password password) as H.
    cbv zeta in H. rewrite Hblob in H. cbn [await] in H. rewrite H.
    rewrite AES_GCM_decrypt_encrypt. f_equal.
    apply TextDecoder_decode_encode; [|assumption..].
    apply Forall_forall. intros u Hu. unfold is_string in Hs.
    rewrite forallb_forall in Hs. apply N.ltb_lt, Hs. now apply list_elem_of_In.
  - intros ->. unfold encrypt in Hblob.
    match type of Hblob with
    | context [btoa (String_fromCharCode ?arr)] =>
        destruct (atob_btoa (String_fromCharCode arr) (fromCharCode_bounded _))
          as [text [Hbtoa _]]; rewrite Hbtoa in Hblob; cbn [try_catch] in Hblob;
        injection Hblob as ->; revert Hbtoa
    end.
    unfold btoa. destruct (forallb _ _); [|discriminate].
    unfold getRandomValues. cbn [seq map app String_fromCharCode sextets_of_bytes].
    discriminate.
Qed.

(** [getData] on a record that [encrypt] made of the text of a value. *)
Lemma getData_encrypted (correct : WebCryptoCorrect wc) (rng : RandomSource)
    (chrome : env) (key : string) (value : JSValue) (password blob : jsstring) :
  without_numbers value = true ->
  password <> [] ->
  encrypt rng (stringify value) password = Resolved blob ->
  lastError chrome = None ->
  local chrome !! key = Some blob ->
  getData chrome key true (Some password) = Resolved value.
Proof.
  intros Hv Hp Hblob Herr Hkey. unfold getData. rewrite Herr, Hkey.
  destruct (decrypt_encrypted correct rng _ _ _ (stringify_text value Hv) Hblob)
    as [Hdec Hne].
  destruct blob as [|c blob]; [contradiction|].
  destruct password as [|p password]; [contradiction|].
  cbn [length Nat.eqb no_password].
  change (default [] (Some (p :: password))) with (p :: password).
  rewrite Hdec. cbn [await]. now rewrite parse_stringify.
Qed.

(** [getData] on the text of a value, stored as it is. *)
Lemma getData_plain (chrome : env) (key : string) (value : JSValue)
    (password : option jsstring) :
  without_numbers value = true ->
  lastError chrome = None ->
  local chrome !! key = Some (stringify value) ->
  getData chrome key false password = Resolved value.
Proof.
  intros Hv Herr Hkey. unfold getData. rewrite Herr, Hkey.
  pose proof (stringify_text value Hv) as (_ & _ & _ & Hne)%is_text_spec.
  destruct (stringify value) as [|c text] eqn:Htext; [contradiction|].
  cbn [length Nat.eqb]. rewrite <- Htext. now rewrite parse_stringify.
Qed.

(** [getData] on a key that is not stored. *)
Lemma getData_absent (chrome : env) (key : string) (secure : bool)
    (password : option jsstring) :
  lastError chrome = None ->
  local chrome !! key = None ->
  getData chrome key secure password = Resolved JNull.
Proof. intros Herr Hkey. unfold getData. now rewrite Herr, Hkey. Qed.

End Saved.

Section SavedAndRead.

Context {wc : WebCrypto} {numbers : NumberText}.

(** A value without numbers that [saveData] stored with a password is
    what [getData] reads with the password, when the storage does not
    fail. *)
Theorem saveData_getData_secure (correct : WebCryptoCorrect wc) (key : string)
    (value : JSValue) (password : jsstring) (b : browser) :
  without_numbers value = true -> password <> [] -> no_failure b ->
  exists b',
    saveData key value true (Some password) b = (Resolved tt, b')
    /\ getData (env_of b') key true (Some password) = Resolved value.
Proof.
  intros Hv Hp Hb. rewrite saveData_outcome.
  destruct password as [|p password]; [contradiction|].
  cbn [no_password length Nat.eqb].
  change (default [] (Some (p :: password))) with (p :: password).
  destruct (encrypt_resolves (random b) (stringify value) (p :: password))
    as [blob Hblob].
  rewrite Hblob. unfold storage_set. rewrite promise_of_callback_outcome.
  rewrite (no_failure_next (drawn 28 b)) by now apply no_failure_drawn.
  eexists. split; [reflexivity|].
  apply (getData_encrypted correct (random b) _ _ _ _ blob); try assumption.
  - apply no_failure_next. now apply no_failure_tl.
  - cbn [env_of local items]. apply lookup_insert_eq.
Qed.

(** A value without numbers that [saveData] stored as it is, is what
    [getData] reads without decryption, when the storage does not fail. *)
Theorem saveData_getData_plain (key : string) (value : JSValue)
    (password password' : option jsstring) (b : browser) :
  without_numbers value = true -> no_failure b ->
  exists b',
    saveData key value false password b = (Resolved tt, b')
    /\ getData (env_of b') key false password' = Resolved value.
Proof.
  intros Hv Hb. rewrite saveData_outcome.
  unfold storage_set. rewrite promise_of_callback_outcome.
  rewrite (no_failure_next b) by assumption.
  eexists. split; [reflexivity|].
  apply getData_plain; [assumption | |].
  - apply no_failure_next. now apply no_failure_tl.
  - cbn [env_of local items]. apply lookup_insert_eq.
Qed.

Lemma saveData_frame (key : string) (value : JSValue) (secure : bool)
    (password : option jsstring) (b : browser) :
  let '(settled, b') := saveData key value secure password b in
  settled <> Pending
  /\ (settled <> Resolved tt -> items b' = items b)
  /\ (forall other, other <> key -> items b' !! other = items b !! other).
Proof.
  rewrite saveData_outcome. unfold storage_set.
  destruct secure.
  - destruct (no_password password); [now repeat split|].
    destruct (encrypt_resolves (random b) (stringify value) (default [] password))
      as [blob ->].
    rewrite promise_of_callback_outcome.
    destruct (next_report _); cbn [items drawn]; repeat split; try easy.
    intros other Hother. now apply lookup_insert_ne.
  - rewrite promise_of_callback_outcome.
    destruct (next_report _); cbn [items]; repeat split; try easy.
    intros other Hother. now apply lookup_insert_ne.
Qed.

(** [saveData] always settles; it stores under its key or, when it
    fails, leaves the items as they were; no other key is ever touched. *)
Theorem saveData_touches_one_key (key : string) (value : JSValue) (secure : bool)
    (password : option jsstring) (b : browser) :
  let '(settled, b') := saveData key value secure password b in
  settled <> Pending
  /\ (settled <> Resolved tt -> items b' = items b)
  /\ (forall other, other <> key -> items b' !! other = items b !! other).
Proof. apply saveData_frame. Qed.


End SavedAndRead.

Import Encoding Base64 Crypto JSON Storage Chrome HdWallet Keyring Browser.

(** ** The stored wallet: [storeWallet], [loadWallet], [getAccounts],
       [removeWallet] *)

Lemma no_failure_written (key : string) (data : list N) (b : browser) :
  no_failure b -> no_failure (written key data b).
Proof. apply no_failure_tl. Qed.

Lemma hex_of_bytes_string (bytes : list byte) : is_string (hex_of_bytes bytes) = true.
Proof.
  induction bytes as [|b bytes IH]; [reflexivity|].
  unfold hex_of_bytes. cbn [flat_map app].
  pose proof (Byte.to_N_bounded b) as Hb.
  pose proof (hex_char_bound (Byte.to_N b / 16)).
  pose proof (hex_char_bound (Byte.to_N b mod 16)).
  apply is_string_cons. split; [lia|]. apply is_string_cons. split; [lia|]. exact IH.
Qed.

(** Looking up one of the keys of the keyring after items were set. *)
Ltac lookup_stored :=
  cbn [items written drawn];
  repeat first
    [ rewrite lookup_insert_eq
    | rewrite lookup_insert_ne
        by (unfold WALLET_KEY, ACCOUNTS_KEY, CURRENT_ACCOUNT_KEY; discriminate)
    | rewrite lookup_delete_eq
    | rewrite lookup_delete_ne
        by (unfold WALLET_KEY, ACCOUNTS_KEY, CURRENT_ACCOUNT_KEY; discriminate) ];
  try reflexivity.

Section Stored.

Context {wc : WebCrypto} {numbers : NumberText} {lib : Library}
        {methods : WalletMethods lib}.

(** [saveData] with a password, when the storage does not fail: the
    record it stores is what [encrypt] makes of the text of the value. *)
Lemma saveData_secure_stored (key : string) (value : JSValue) (password : jsstring)
    (b : browser) :
  password <> [] -> no_failure b ->
  exists blob,
    encrypt (random b) (stringify value) password = Resolved blob
    /\ saveData key value true (Some password) b
       = (Resolved tt, written key blob (drawn 28 b)).
Proof.
  intros Hp Hb. rewrite saveData_outcome.
  destruct password as [|p password]; [contradiction|].
  cbn [no_password length Nat.eqb].
  change (default [] (Some (p :: password))) with (p :: password).
  destruct (encrypt_resolves (random b) (stringify value) (p :: password))
    as [blob Hblob].
  exists blob. split; [assumption|]. rewrite Hblob.
  unfold storage_set. rewrite promise_of_callback_outcome.
  now rewrite (no_failure_next (drawn 28 b)) by now apply no_failure_drawn.
Qed.

Lemma account_info_without_numbers (correct : WalletMethodsCorrect lib methods)
    (acc : Account) :
  without_numbers (account_info acc) = true.
Proof.
  unfold account_info. rewrite without_numbers_object.
  destruct (account_strings acc) as [Ha Hg].
  cbn [map fst snd forallb without_numbers].
  rewrite Ha, Hg, hex_of_bytes_string. reflexivity.
Qed.

Lemma accounts_info_without_numbers (correct : WalletMethodsCorrect lib methods)
    (accounts : list Account) :
  without_numbers (JArray (map account_info accounts)) = true.
Proof.
  rewrite without_numbers_array. apply forallb_forall.
  intros v (acc & <- & _)%in_map_iff. now apply account_info_without_numbers.
Qed.

(** The browser that [storeWallet] leaves when nothing fails: three
    records, each the encryption of the text of what is stored. *)
Lemma storeWallet_stored (correct : WalletMethodsCorrect lib methods)
    (wallet : Wallet Account) (password serialization : jsstring) (b : browser) :
  password <> [] -> no_failure b ->
  serialize wallet password = Resolved serialization ->
  exists blob1 blob2 b',
    storeWallet wallet password b = (Resolved tt, b')
    /\ no_failure b'
    /\ encrypt (random b) (stringify (JString serialization)) password = Resolved blob1
    /\ encrypt (random (drawn 28 b))
         (stringify (JArray (map account_info (accounts wallet)))) password
       = Resolved blob2
    /\ items b' !! WALLET_KEY = Some blob1
    /\ items b' !! ACCOUNTS_KEY = Some blob2
    /\ match accounts wallet with
       | first :: _ =>
           exists blob3,
             encrypt (random (drawn 28 (drawn 28 b)))
               (stringify (JString (account_address first))) password
             = Resolved blob3
             /\ items b' !! CURRENT_ACCOUNT_KEY = Some blob3
       | [] => items b' !! CURRENT_ACCOUNT_KEY = items b !! CURRENT_ACCOUNT_KEY
       end.
Proof.
  intros Hp Hb Hser. unfold storeWallet, catch, bind, lift. rewrite Hser.
  destruct (saveData_secure_stored WALLET_KEY (JString serialization) password b Hp Hb)
    as [blob1 [Hblob1 ->]].
  set (b1 := written WALLET_KEY blob1 (drawn 28 b)).
  assert (Hb1 : no_failure b1) by now apply no_failure_written, no_failure_drawn.
  destruct (saveData_secure_stored ACCOUNTS_KEY
              (JArray (map account_info (accounts wallet))) password b1 Hp Hb1)
    as [blob2 [Hblob2 ->]].
  set (b2 := written ACCOUNTS_KEY blob2 (drawn 28 b1)).
  assert (Hb2 : no_failure b2) by now apply no_failure_written, no_failure_drawn.
  exists blob1, blob2.
  destruct (accounts wallet) as [|first others] eqn:Haccounts.
  - exists b2. unfold ret. repeat split; try assumption; subst b2 b1; lookup_stored.
  - destruct (saveData_secure_stored CURRENT_ACCOUNT_KEY
                (JString (account_address first)) password b2 Hp Hb2)
      as [blob3 [Hblob3 ->]].
    eexists. repeat split; try assumption.
    + now apply no_failure_written, no_failure_drawn.
    + subst b2 b1. lookup_stored.
    + subst b2 b1. lookup_stored.
    + exists blob3. split; [assumption | apply lookup_insert_eq].
Qed.

End Stored.

Section StoredAndLoaded.

Context {wc : WebCrypto} {numbers : NumberText} {lib : Library}
        {methods : WalletMethods lib}.

Lemma loadWallet_after_store (crypto_ok : WebCryptoCorrect wc)
    (methods_ok : WalletMethodsCorrect lib methods)
    (wallet : Wallet Account) (password serialization : jsstring) (b : browser) :
  password <> [] -> no_failure b ->
  serialize wallet password = Resolved serialization ->
  exists b',
    storeWallet wallet password b = (Resolved tt, b')
    /\ no_failure b'
    /\ loadWallet (env_of b') (Some password) = Resolved wallet.
Proof.
  intros Hp Hb Hser.
  destruct (storeWallet_stored methods_ok wallet password serialization b Hp Hb Hser)
    as (blob1 & blob2 & b' & Hstore & Hb' & Hblob1 & _ & Hwallet & _).
  exists b'. split; [assumption|]. split; [assumption|].
  destruct (deserialize_serialize wallet password serialization Hser)
    as (Hstring & Hne & Hde).
  unfold loadWallet.
  rewrite (getData_encrypted crypto_ok (random b) (env_of b') WALLET_KEY
             (JString serialization) password blob1);
    try assumption; [|now apply no_failure_next].
  cbn [await truthy]. destruct serialization as [|c rest]; [contradiction|].
  cbn [length Nat.eqb negb]. now rewrite Hde.
Qed.

(** A wallet that [storeWallet] stored under a password is the wallet
    that [loadWallet] returns for the password, when the storage does not
    fail. *)
Theorem storeWallet_then_loadWallet (crypto_ok : WebCryptoCorrect wc)
    (methods_ok : WalletMethodsCorrect lib methods)
    (wallet : Wallet Account) (password serialization : jsstring) (b : browser) :
  password <> [] -> no_failure b ->
  serialize wallet password = Resolved serialization ->
  exists b',
    storeWallet wallet password b = (Resolved tt, b')
    /\ loadWallet (env_of b') (Some password) = Resolved wallet.
Proof.
  intros Hp Hb Hser.
  destruct (loadWallet_after_store crypto_ok methods_ok wallet password serialization
              b Hp Hb Hser) as (b' & H1 & _ & H2).
  now exists b'.
Qed.

(** After [storeWallet], [getAccounts] returns the address, the
    algorithm and the public key in hexadecimal of each account of the
    wallet, and [getCurrentAccount] the address of the first; for a wallet
    without accounts the record of the current account is left as it was. *)
Theorem storeWallet_then_getAccounts (crypto_ok : WebCryptoCorrect wc)
    (methods_ok : WalletMethodsCorrect lib methods)
    (wallet : Wallet Account) (password serialization : jsstring) (b : browser) :
  password <> [] -> no_failure b ->
  serialize wallet password = Resolved serialization ->
  exists b',
    storeWallet wallet password b = (Resolved tt, b')
    /\ getAccounts (env_of b') (Some password)
       = Resolved (JArray (map account_info (accounts wallet)))
    /\ match accounts wallet with
       | first :: _ =>
           getCurrentAccount (env_of b') (Some password)
           = Resolved (JString (account_address first))
       | [] => items b' !! CURRENT_ACCOUNT_KEY = items b !! CURRENT_ACCOUNT_KEY
       end.
Proof.
  intros Hp Hb Hser.
  destruct (storeWallet_stored methods_ok wallet password serialization b Hp Hb Hser)
    as (blob1 & blob2 & b' & Hstore & Hb' & _ & Hblob2 & _ & Haccounts & Hcurrent).
  exists b'. split; [assumption|]. split.
  - unfold getAccounts.
    rewrite (getData_encrypted crypto_ok (random (drawn 28 b)) (env_of b') ACCOUNTS_KEY
               (JArray (map account_info (accounts wallet))) password blob2);
      try assumption; [reflexivity | | now apply no_failure_next].
    now apply accounts_info_without_numbers.
  - destruct (accounts wallet) as [|first others]; [assumption|].
    destruct Hcurrent as (blob3 & Hblob3 & Hcurrent).
    unfold getCurrentAccount.
    rewrite (getData_encrypted crypto_ok (random (drawn 28 (drawn 28 b))) (env_of b')
               CURRENT_ACCOUNT_KEY (JString (account_address first)) password blob3);
      try assumption; [reflexivity | | now apply no_failure_next].
    apply (account_strings first).
Qed.

End StoredAndLoaded.

Section StoreFailures.

Context {wc : WebCrypto} {numbers : NumberText} {lib : Library}
        {methods : WalletMethods lib}.

(** [storeWallet] ends in one of three ways and keeps to its keys. *)
Lemma storeWallet_frame (wallet : Wallet Account) (password : jsstring) (b : browser) :
  let '(settled, b') := storeWallet wallet password b in
  (settled = Resolved tt
   \/ settled = Rejected (Error "Failed to securely store wallet")
   \/ (settled = Pending /\ serialize wallet password = Pending))
  /\ (forall key, key <> WALLET_KEY -> key <> ACCOUNTS_KEY ->
                  key <> CURRENT_ACCOUNT_KEY -> items b' !! key = items b !! key).
Proof.
  unfold storeWallet, catch, bind, lift, throw, ret.
  destruct (serialize wallet password) as [serialization|e|]; [|now auto..].
  pose proof (saveData_frame WALLET_KEY (JString serialization) true (Some password) b)
    as H1.
  destruct (saveData WALLET_KEY _ true (Some password) b) as [[[]|e1|] b1].
  2: { destruct H1 as (_ & _ & H1). split; [auto|]. intros key Hw _ _. now apply H1. }
  2: { now destruct H1 as [H1 _]. }
  destruct H1 as (_ & _ & H1).
  pose proof (saveData_frame ACCOUNTS_KEY (JArray (map account_info (accounts wallet)))
                true (Some password) b1) as H2.
  destruct (saveData ACCOUNTS_KEY _ true (Some password) b1) as [[[]|e2|] b2].
  2: { destruct H2 as (_ & _ & H2). split; [auto|]. intros key Hw Ha _.
       now rewrite H2, H1. }
  2: { now destruct H2 as [H2 _]. }
  destruct H2 as (_ & _ & H2).
  destruct (accounts wallet) as [|first others].
  - split; [auto|]. intros key Hw Ha _. now rewrite H2, H1.
  - pose proof (saveData_frame CURRENT_ACCOUNT_KEY (JString (account_address first))
                  true (Some password) b2) as H3.
    destruct (saveData CURRENT_ACCOUNT_KEY _ true (Some password) b2) as [[[]|e3|] b3].
    + destruct H3 as (_ & _ & H3). split; [auto|]. intros key Hw Ha Hc.
      now rewrite H3, H2, H1.
    + destruct H3 as (_ & _ & H3). split; [auto|]. intros key Hw Ha Hc.
      now rewrite H3, H2, H1.
    + now destruct H3 as [H3 _].
Qed.

(** Whatever fails in [storeWallet], the error it throws is the one of
    its [catch] clause; it touches no other key than the three of the
    keyring; and with an empty password it stores nothing. *)
Theorem storeWallet_fails_with_one_error (wallet : Wallet Account)
    (password : jsstring) (b : browser) :
  let '(settled, b') := storeWallet wallet password b in
  (settled = Resolved tt
   \/ settled = Rejected (Error "Failed to securely store wallet")
   \/ (settled = Pending /\ serialize wallet password = Pending))
  /\ (forall key, key <> WALLET_KEY -> key <> ACCOUNTS_KEY ->
                  key <> CURRENT_ACCOUNT_KEY -> items b' !! key = items b !! key)
  /\ (password = [] -> settled <> Resolved tt /\ b' = b).
Proof.
  pose proof (storeWallet_frame wallet password b) as H.
  destruct (storeWallet wallet password b) as [settled b'] eqn:Hstore.
  destruct H as [H1 H2]. split; [assumption|]. split; [assumption|].
  intros ->. revert Hstore. unfold storeWallet, catch, bind, lift, throw.
  destruct (serialize wallet []) as [serialization|e|].
  - rewrite saveData_outcome. cbn [no_password length Nat.eqb].
    intros [= <- <-]. now split.
  - intros [= <- <-]. now split.
  - intros [= <- <-]. now split.
Qed.

(** [storeWallet] is not all or nothing: when the second call of the
    storage fails, it throws its error, the new wallet is stored and can
    be loaded, and the records of the accounts are those of before. *)
Theorem storeWallet_is_not_atomic (crypto_ok : WebCryptoCorrect wc)
    (methods_ok : WalletMethodsCorrect lib methods)
    (wallet : Wallet Account) (password serialization : jsstring)
    (e : string) (later : list (option string)) (b : browser) :
  password <> [] ->
  serialize wallet password = Resolved serialization ->
  reports b = None :: Some e :: later ->
  Forall (fun report => report = None) later ->
  exists b',
    storeWallet wallet password b
    = (Rejected (Error "Failed to securely store wallet"), b')
    /\ loadWallet (env_of b') (Some password) = Resolved wallet
    /\ items b' !! ACCOUNTS_KEY = items b !! ACCOUNTS_KEY
    /\ items b' !! CURRENT_ACCOUNT_KEY = items b !! CURRENT_ACCOUNT_KEY.
Proof.
  intros Hp Hser Hreports Hlater.
  destruct (deserialize_serialize wallet password serialization Hser)
    as (Hstring & Hne & Hde).
  unfold storeWallet, catch, bind, lift, throw. rewrite Hser.
  rewrite !saveData_outcome.
  destruct password as [|p password]; [contradiction|].
  cbn [no_password length Nat.eqb].
  change (default [] (Some (p :: password))) with (p :: password).
  destruct (encrypt_resolves (random b) (stringify (JString serialization))
              (p :: password)) as [blob1 Hblob1].
  rewrite Hblob1. unfold storage_set at 1. rewrite promise_of_callback_outcome.
  unfold next_report at 1. cbn [drawn reports]. rewrite Hreports.
  rewrite saveData_outcome. cbn [no_password length Nat.eqb random].
  change (default [] (Some (p :: password))) with (p :: password).
  match goal with
  | |- context [encrypt ?rng ?data (p :: password)] =>
      destruct (encrypt_resolves rng data (p :: password)) as [blob2 Hblob2]
  end.
  rewrite Hblob2. unfold storage_set. rewrite promise_of_callback_outcome.
  unfold next_report at 1. cbn [drawn reports tl].
  eexists. split; [reflexivity|]. split; [|split; lookup_stored].
  unfold loadWallet.
  rewrite (getData_encrypted crypto_ok (random b) _ WALLET_KEY
             (JString serialization) (p :: password) blob1);
    try assumption.
  - cbn [await truthy]. destruct serialization as [|c rest]; [contradiction|].
    cbn [length Nat.eqb negb]. now rewrite Hde.
  - cbn [env_of lastError reports next_report tl].
    destruct later as [|r later']; [reflexivity|].
    now apply Forall_cons in Hlater as [-> _].
  - cbn [env_of local]. lookup_stored.
Qed.

(** After [removeWallet] no wallet is found: [hasWallet] answers
    [false], [loadWallet] fails, [getAccounts] and [getCurrentAccount]
    return [null]; the other keys hold what they held. *)
Theorem removeWallet_then_no_wallet (password : option jsstring) (b : browser) :
  no_failure b ->
  exists b',
    removeWallet b = (Resolved tt, b')
    /\ hasWallet (env_of b') = Resolved false
    /\ loadWallet (env_of b') password = Rejected load_error
    /\ getAccounts (env_of b') password = Resolved JNull
    /\ getCurrentAccount (env_of b') password = Resolved JNull
    /\ (forall key, key <> WALLET_KEY -> key <> ACCOUNTS_KEY ->
                    key <> CURRENT_ACCOUNT_KEY -> items b' !! key = items b !! key).
Proof.
  intros Hb. unfold removeWallet, catch, bind, removeData, storage_remove.
  rewrite promise_of_callback_outcome, (no_failure_next b) by assumption.
  set (b1 := {| items := delete WALLET_KEY (items b) |}).
  assert (Hb1 : no_failure b1) by now apply no_failure_tl.
  rewrite promise_of_callback_outcome, (no_failure_next b1) by assumption.
  set (b2 := {| items := delete ACCOUNTS_KEY (items b1) |}).
  assert (Hb2 : no_failure b2) by now apply no_failure_tl.
  rewrite promise_of_callback_outcome, (no_failure_next b2) by assumption.
  set (b3 := {| items := delete CURRENT_ACCOUNT_KEY (items b2) |}).
  assert (Hb3 : no_failure b3) by now apply no_failure_tl.
  pose proof (no_failure_next b3 Hb3) as Hnext.
  assert (Hw : local (env_of b3) !! WALLET_KEY = None)
    by (cbn [env_of local]; subst b3 b2 b1; lookup_stored).
  assert (Ha : local (env_of b3) !! ACCOUNTS_KEY = None)
    by (cbn [env_of local]; subst b3 b2 b1; lookup_stored).
  assert (Hc : local (env_of b3) !! CURRENT_ACCOUNT_KEY = None)
    by (cbn [env_of local]; subst b3 b2 b1; lookup_stored).
  exists b3. split; [reflexivity|]. repeat split.
  - now apply hasWallet_absent.
  - unfold loadWallet. now rewrite getData_absent.
  - unfold getAccounts. now rewrite getData_absent.
  - unfold getCurrentAccount. now rewrite getData_absent.
  - intros key H1 H2 H3. subst b3 b2 b1. cbn [items].
    now rewrite !lookup_delete_ne by congruence.
Qed.

End StoreFailures.

Import Encoding JSON Helpers.

(** ** The helpers: [truncateAddress], [generateColorFromString],
       [withRetry] *)

Lemma relative_index_inside (len index : Z) :
  (0 <= index <= len)%Z -> relative_index len index = index.
Proof.
  intros H. unfold relative_index.
  destruct (Z.ltb_spec index 0); lia.
Qed.

Lemma relative_index_from_end (len index : Z) :
  (0 < index <= len)%Z -> relative_index len (- index) = (len - index)%Z.
Proof.
  intros H. unfold relative_index.
  destruct (Z.ltb_spec (- index) 0); lia.
Qed.

(** [truncateAddress] on an address longer than the two counts, the
    first not negative and the second positive: the first characters,
    three dots, the last characters. The result has three characters
    more than the counts ask for, which can be more than the address
    has. *)
Theorem truncateAddress_shape (address : jsstring) (startChars endChars : Z) :
  (0 <= startChars)%Z -> (0 < endChars)%Z ->
  (startChars + endChars < Z.of_nat (length address))%Z ->
  truncateAddress address startChars endChars
  = firstn (Z.to_nat startChars) address ++ js "..."
    ++ skipn (length address - Z.to_nat endChars) address
  /\ length (truncateAddress address startChars endChars)
     = (Z.to_nat startChars + 3 + Z.to_nat endChars)%nat.
Proof.
  intros Hs He Hlen.
  assert (Heq : truncateAddress address startChars endChars
                = firstn (Z.to_nat startChars) address ++ js "..."
                  ++ skipn (length address - Z.to_nat endChars) address).
  { unfold truncateAddress.
    destruct (Nat.eqb_spec (length address) 0) as [H0|_]; [lia|].
    destruct (Z.leb_spec (Z.of_nat (length address)) (startChars + endChars)); [lia|].
    unfold slice.
    rewrite (relative_index_inside _ 0), (relative_index_inside _ startChars) by lia.
    rewrite relative_index_from_end by lia.
    rewrite Z.sub_0_r. change (Z.to_nat 0) with 0%nat. rewrite skipn_O.
    f_equal. f_equal.
    replace (Z.to_nat (Z.of_nat (length address) - endChars))
      with (length address - Z.to_nat endChars)%nat by lia.
    apply firstn_all2. rewrite length_skipn. lia. }
  split; [exact Heq|]. rewrite Heq.
  rewrite !length_app, length_firstn, length_skipn.
  change (length (js "...")) with 3%nat. lia.
Qed.

(** [truncateAddress] with a last count of zero: [slice(-0)] is the whole
    string, so the whole address follows the dots. *)
Theorem truncateAddress_without_end (address : jsstring) (startChars : Z) :
  (0 <= startChars < Z.of_nat (length address))%Z ->
  truncateAddress address startChars 0
  = firstn (Z.to_nat startChars) address ++ js "..." ++ address.
Proof.
  intros Hs. unfold truncateAddress.
  destruct (Nat.eqb_spec (length address) 0) as [H0|_]; [lia|].
  destruct (Z.leb_spec (Z.of_nat (length address)) (startChars + 0)); [lia|].
  unfold slice. change (- 0)%Z with 0%Z.
  rewrite (relative_index_inside _ 0), (relative_index_inside _ startChars) by lia.
  rewrite !Z.sub_0_r. change (Z.to_nat 0) with 0%nat. rewrite !skipn_O.
  f_equal. f_equal. apply firstn_all2. lia.
Qed.

(** *** The colour of a string *)

Section Colour.

Open Scope Z_scope.

(** Two integers with the same remainder modulo [2^32] differ by a
    multiple of it. *)
Lemma congruent_offset (a b : Z) :
  a mod 4294967296 = b mod 4294967296 -> exists k, a = b + k * 4294967296.
Proof.
  intros H. exists (a / 4294967296 - b / 4294967296).
  pose proof (Z.div_mod a 4294967296 ltac:(discriminate)) as Ha.
  pose proof (Z.div_mod b 4294967296 ltac:(discriminate)) as Hb.
  revert H Ha Hb.
  generalize (a / 4294967296) (a mod 4294967296) (b / 4294967296) (b mod 4294967296).
  intros qa ra qb rb H Ha Hb. lia.
Qed.

Lemma offset_congruent (a b k : Z) :
  a = b + k * 4294967296 -> a mod 4294967296 = b mod 4294967296.
Proof. intros ->. apply Z_mod_plus_full. Qed.

Lemma ToInt32_offset (x : Z) :
  (exists k, ToInt32 x = x + k * 4294967296) /\ -2147483648 <= ToInt32 x < 2147483648.
Proof.
  unfold ToInt32. change (2 ^ 32) with 4294967296. change (2 ^ 31) with 2147483648.
  cbv zeta. rewrite Z.geb_leb.
  pose proof (Z.div_mod x 4294967296 ltac:(discriminate)) as Hx.
  pose proof (Z.mod_pos_bound x 4294967296 ltac:(reflexivity)) as Hb.
  revert Hx Hb. generalize (x / 4294967296) (x mod 4294967296). intros q r Hx Hb.
  destruct (Z.leb_spec 2147483648 r).
  - split; [exists (- q - 1) | ]; lia.
  - split; [exists (- q) | ]; lia.
Qed.

Lemma shift_left_5 (x : Z) : exists k, shift_left x 5 = 32 * x + k * 4294967296.
Proof.
  unfold shift_left. change (2 ^ (5 mod 32)) with 32.
  destruct (ToInt32_offset x) as [[k Hk] _].
  destruct (ToInt32_offset (ToInt32 x * 32)) as [[k' Hk'] _].
  exists (32 * k + k'). lia.
Qed.

(** The hash of the code and the hash with multiplier 31 agree modulo
    [2^32]. *)
Lemma string_hash_congruent (input : jsstring) (h p : Z) :
  (exists k, h = p + k * 4294967296) ->
  exists k,
    fold_left (fun hash c => Z.of_N c + (shift_left hash 5 - hash)) input h
    = fold_left (fun hash c => 31 * hash + Z.of_N c) input p + k * 4294967296.
Proof.
  revert h p. induction input as [|c input IH]; intros h p [k Hk].
  - now exists k.
  - cbn [fold_left]. apply IH.
    destruct (shift_left_5 h) as [k' Hk'].
    exists (k' + 31 * k). lia.
Qed.

Lemma string_hash_polynomial (input : jsstring) :
  exists k, string_hash input = polynomial_hash input + k * 4294967296.
Proof. apply string_hash_congruent. now exists 0. Qed.

(** The three low bytes of two integers that agree modulo [2^32]. *)
Lemma bytes_of_offset (a b k : Z) :
  a = b + k * 4294967296 ->
  a mod 256 = b mod 256
  /\ (a / 256) mod 256 = (b / 256) mod 256
  /\ (a / 65536) mod 256 = (b / 65536) mod 256.
Proof.
  intros ->. repeat split.
  - replace (b + k * 4294967296) with (b + (k * 16777216) * 256) by lia.
    apply Z_mod_plus_full.
  - replace (b + k * 4294967296) with (b + (k * 16777216) * 256) by lia.
    rewrite Z_div_plus_full by discriminate.
    replace (b / 256 + k * 16777216) with (b / 256 + (k * 65536) * 256) by lia.
    apply Z_mod_plus_full.
  - replace (b + k * 4294967296) with (b + (k * 65536) * 65536) by lia.
    rewrite Z_div_plus_full by discriminate.
    replace (b / 65536 + k * 65536) with (b / 65536 + (k * 256) * 256) by lia.
    apply Z_mod_plus_full.
Qed.

(** [(hash >> n) & 0xFF] is the byte of [hash] at bit [n]. *)
Lemma byte_at (hash n : Z) :
  n = 0 \/ n = 8 \/ n = 16 ->
  bit_and (shift_right hash n) 255 = (hash / 2 ^ n) mod 256.
Proof.
  intros Hn. unfold bit_and, shift_right.
  change (ToInt32 255) with 255. change 255 with (Z.ones 8).
  rewrite Z.land_ones by lia. change (2 ^ 8) with 256.
  destruct (ToInt32_offset (ToInt32 hash / 2 ^ (n mod 32))) as [[k Hk] _].
  destruct (bytes_of_offset _ _ _ Hk) as [-> _].
  destruct (ToInt32_offset hash) as [[k' Hk'] _].
  destruct (bytes_of_offset _ _ _ Hk') as (H0 & H8 & H16).
  destruct Hn as [-> | [-> | ->]].
  - change (2 ^ (0 mod 32)) with 1. change (2 ^ 0) with 1. now rewrite !Z.div_1_r.
  - exact H8.
  - exact H16.
Qed.

End Colour.

(** The last two characters of [00] and the hexadecimal digits of a
    byte are its two digits: checked on the 256 bytes. *)
Lemma two_digits_checked :
  forallb
    (fun n => bool_decide
                (substr (js "00" ++ toString16 (Z.to_N (Z.of_nat n))) (-2)
                 = hex_byte (Z.of_nat n)))
    (seq 0 256) = true.
Proof. vm_compute. reflexivity. Qed.

Lemma two_digits (value : Z) :
  (0 <= value < 256)%Z ->
  substr (js "00" ++ toString16 (Z.to_N value)) (-2) = hex_byte value.
Proof.
  intros Hv. pose proof two_digits_checked as H.
  rewrite forallb_forall in H. specialize (H (Z.to_nat value)).
  rewrite Z2Nat.id in H by lia.
  apply bool_decide_eq_true in H; [exact H|].
  apply in_seq. lia.
Qed.

Lemma string_hash_bound (input : jsstring) (h : Z) :
  is_string input = true ->
  (Z.abs (fold_left (fun hash c => Z.of_N c + (shift_left hash 5 - hash)) input h)
   <= Z.abs h + Z.of_nat (length input) * 2147549184)%Z.
Proof.
  revert h. induction input as [|c input IH]; intros h Hs.
  - cbn [fold_left length]. lia.
  - apply is_string_cons in Hs as [Hc Hs]. cbn [fold_left length].
    specialize (IH (Z.of_N c + (shift_left h 5 - h))%Z Hs).
    unfold shift_left in *.
    destruct (ToInt32_offset (ToInt32 h * 2 ^ (5 mod 32))) as [_ Hrange].
    revert IH Hrange. generalize (ToInt32 (ToInt32 h * 2 ^ (5 mod 32))).
    intros sl IH Hrange. lia.
Qed.

(** The colour of a string is [#] and the three low bytes, the lowest
    first, of its hash with multiplier 31, each as two hexadecimal digits;
    and on a string shorter than [2^21] the hash of the code stays below
    [2^53], where the sums of doubles are exact. *)
Theorem generateColorFromString_colour (input : jsstring) :
  is_string input = true -> (Z.of_nat (length input) < 2097152)%Z ->
  (Z.abs (string_hash input) < 2 ^ 53)%Z
  /\ generateColorFromString input
     = 35 :: hex_byte (polynomial_hash input mod 256)
          ++ hex_byte ((polynomial_hash input / 256) mod 256)
          ++ hex_byte ((polynomial_hash input / 65536) mod 256).
Proof.
  intros Hs Hlen. split.
  - pose proof (string_hash_bound input 0 Hs) as H. unfold string_hash.
    change (2 ^ 53)%Z with 9007199254740992%Z. lia.
  - unfold generateColorFromString.
    destruct input as [|c input]; [reflexivity|].
    cbn [length Nat.eqb fold_left].
    destruct (string_hash_polynomial (c :: input)) as [k Hk].
    destruct (bytes_of_offset _ _ _ Hk) as (H0 & H8 & H16).
    change (0 * 8)%Z with 0%Z. change (1 * 8)%Z with 8%Z. change (2 * 8)%Z with 16%Z.
    change 0xFF%Z with 255%Z.
    rewrite !byte_at by auto.
    change (2 ^ 0)%Z with 1%Z. change (2 ^ 8)%Z with 256%Z.
    change (2 ^ 16)%Z with 65536%Z. rewrite Z.div_1_r.
    rewrite H0, H8, H16.
    rewrite !two_digits by (apply Z.mod_pos_bound; reflexivity).
    rewrite <- !app_assoc. reflexivity.
Qed.

(** The colour of the string [creata]. *)
Lemma generateColorFromString_colour_witness :
  (Z.abs (string_hash (js "creata")) < 2 ^ 53)%Z
  /\ generateColorFromString (js "creata")
     = 35 :: hex_byte (polynomial_hash (js "creata") mod 256)
          ++ hex_byte ((polynomial_hash (js "creata") / 256) mod 256)
          ++ hex_byte ((polynomial_hash (js "creata") / 65536) mod 256).
Proof.
  apply generateColorFromString_colour; reflexivity.
Defined.

(** *** Retrying *)

Section Retrying.

Context {World A : Type}.

Lemma delays_waited_succ (baseDelay : Z) (attempt count : nat) :
  delays_waited baseDelay attempt (S count)
  = delays_waited baseDelay (S attempt) count
    ++ [(baseDelay * 2 ^ Z.of_nat attempt)%Z].
Proof.
  unfold delays_waited. rewrite <- cons_seq, <- seq_shift.
  cbn [rev]. rewrite map_app. cbn [map]. rewrite Nat.add_0_r.
  f_equal. rewrite <- map_rev, map_map. apply map_ext. intros k.
  now replace (attempt + S k)%nat with (S attempt + k)%nat by lia.
Qed.

Lemma last_of_cons {B : Type} (x : B) (l : list B) : exists y, last (x :: l) = Some y.
Proof.
  revert x. induction l as [|z l IH]; intros x; [now exists x|].
  destruct (IH z) as [y Hy]. exists y. exact Hy.
Qed.

(** The loop after [count] failures in a row. *)
Lemma retry_from_failures (fn : World -> outcome A * World) (baseDelay : Z)
    (count more attempt : nat) (lastError : option JSError) (world world' : World)
    (errors : list JSError) (delays : list Z) :
  failures fn count world = Some (errors, world') ->
  retry_from fn baseDelay (count + more) attempt lastError world delays
  = retry_from fn baseDelay more (attempt + count)
      (match last errors with Some e => Some e | None => lastError end)
      world' (delays_waited baseDelay attempt count ++ delays).
Proof.
  revert attempt lastError world errors delays.
  induction count as [|count IH]; intros attempt lastError world errors delays H.
  - cbn [failures] in H. injection H as <- <-.
    cbn [last]. now rewrite Nat.add_0_r.
  - cbn [failures] in H. cbn [Nat.add retry_from].
    destruct (fn world) as [[a|error|] world1]; try discriminate.
    destruct (failures fn count world1) as [[errors1 world2]|] eqn:Hrest;
      [|discriminate].
    injection H as <- <-.
    rewrite (IH (S attempt) (Some error) world1 errors1 _ Hrest).
    rewrite delays_waited_succ, <- app_assoc. cbn [app].
    replace (S attempt + count)%nat with (attempt + S count)%nat by lia.
    f_equal.
    destruct errors1 as [|e1 errors1]; [reflexivity|].
    change (last (error :: e1 :: errors1)) with (last (e1 :: errors1)).
    destruct (last_of_cons e1 errors1) as [e ->]. reflexivity.
Qed.

End Retrying.

Section RetryingResults.

Context {World A : Type}.

(** When [fn] fails [maxRetries] times in a row, [withRetry] throws the
    error of the last call, after a wait that doubles from one failure
    to the next and that follows the last failure as well; when
    [maxRetries] is not positive, [fn] is not called and what is thrown
    is [undefined]. *)
Theorem withRetry_gives_up (fn : World -> outcome A * World)
    (maxRetries baseDelay : Z) (world world' : World) (errors : list JSError) :
  failures fn (Z.to_nat maxRetries) world = Some (errors, world') ->
  withRetry fn maxRetries baseDelay world
  = (GaveUp (last errors), world', delays_waited baseDelay 0 (Z.to_nat maxRetries))
  /\ ((maxRetries <= 0)%Z -> last errors = None /\ world' = world).
Proof.
  intros H. split.
  - unfold withRetry.
    rewrite <- (Nat.add_0_r (Z.to_nat maxRetries)) at 1.
    rewrite (retry_from_failures fn baseDelay _ 0 0 None world world' errors [] H).
    cbn [retry_from]. rewrite app_nil_r. now destruct (last errors).
  - intros Hmax. replace (Z.to_nat maxRetries) with 0%nat in H by lia.
    cbn [failures] in H. now injection H as <- <-.
Qed.

(** When [fn] fails some times in a row, fewer than [maxRetries], and
    then returns, [withRetry] returns what [fn] returned, after the
    doubling waits of the failures. *)
Theorem withRetry_returns (fn : World -> outcome A * World)
    (maxRetries baseDelay : Z) (count : nat) (world world1 world' : World)
    (errors : list JSError) (value : A) :
  failures fn count world = Some (errors, world1) ->
  fn world1 = (Resolved value, world') ->
  (count < Z.to_nat maxRetries)%nat ->
  withRetry fn maxRetries baseDelay world
  = (Returned value, world', delays_waited baseDelay 0 count).
Proof.
  intros Hfail Hok Hcount. unfold withRetry.
  replace (Z.to_nat maxRetries) with (count + S (Z.to_nat maxRetries - S count))%nat
    by lia.
  rewrite (retry_from_failures fn baseDelay _ _ 0 None world world1 errors [] Hfail).
  cbn [retry_from]. rewrite Hok. now rewrite app_nil_r.
Qed.

End RetryingResults.

(** ** The session state over a run of the background script *)

Section SessionRuns.

Import Background.
Open Scope Z_scope.

(** What a message of [chrome.runtime.onMessage] does to the state. *)
Lemma onMessage_state (now : Z) (message : Message) (st : State) :
  let st' := fst (onMessage now message st) in
  lastActivity st' = now
  /\ (network st' = network st \/ network st' = "mainnet"%string
      \/ network st' = "testnet"%string)
  /\ isUnlocked st' =
     if equals (type message) "GET_STATE" then isUnlocked st
     else if equals (type message) "UNLOCK_WALLET" then true
     else if equals (type message) "LOCK_WALLET" then false
     else isUnlocked st.
Proof.
  unfold onMessage.
  destruct (equals (type message) "GET_STATE"); [now auto|].
  destruct (equals (type message) "UNLOCK_WALLET"); [now auto|].
  destruct (equals (type message) "LOCK_WALLET"); [now auto|].
  destruct (equals (type message) "SWITCH_NETWORK").
  - destruct (msg_network message) as [n|]; [|now auto].
    destruct (String.eqb n "") eqn:He; cbn [negb andb]; [now auto|].
    destruct (String.eqb_spec n "mainnet") as [->|_]; cbn [orb fst network]; [now auto|].
    destruct (String.eqb_spec n "testnet") as [->|_]; cbn [orb fst network]; now auto.
  - destruct (equals (type message) "CONNECT_SITE"); now auto.
Qed.

Lemma step_network (st : State) (ev : Event) :
  network (step st ev) = network st \/ network (step st ev) = "mainnet"%string
  \/ network (step st ev) = "testnet"%string.
Proof.
  destruct ev as [now message | port_name message | now]; cbn [step].
  - apply onMessage_state.
  - unfold onConnect. destruct (String.eqb port_name "content-script"); [|now left].
    unfold onPortMessage.
    destruct (equals (type message) "REQUEST_ACCOUNTS"); [|now left].
    destruct (isUnlocked st); now left.
  - unfold sessionTimeoutCheck.
    destruct (isUnlocked st && (now - lastActivity st >? SESSION_TIMEOUT)); now left.
Qed.

(** Whatever messages, port requests and timer calls reach the script,
    the network of its state is [mainnet] or [testnet]. *)
Theorem network_is_known (start : Z) (events : list Event) :
  network (run (initial start) events) = "mainnet"%string
  \/ network (run (initial start) events) = "testnet"%string.
Proof.
  unfold run.
  assert (H : forall st, (network st = "mainnet"%string \/ network st = "testnet"%string) ->
                         network (fold_left step events st) = "mainnet"%string
                         \/ network (fold_left step events st) = "testnet"%string).
  { induction events as [|ev events IH]; intros st Hst; [exact Hst|].
    cbn [fold_left]. apply IH.
    destruct (step_network st ev) as [-> | [-> | ->]]; auto. }
  apply H. now left.
Qed.

Lemma timer_keeps_locked (now : Z) (st : State) :
  isUnlocked st = false -> sessionTimeoutCheck now st = st.
Proof. intros H. unfold sessionTimeoutCheck. now rewrite H. Qed.

Lemma step_unlocks (st : State) (ev : Event) :
  isUnlocked st = false -> isUnlocked (step st ev) = true ->
  exists now message,
    ev = RuntimeMessage now message /\ type message = Some "UNLOCK_WALLET"%string.
Proof.
  intros Hlocked Hunlocked.
  destruct ev as [now message | port_name message | now]; cbn [step] in Hunlocked.
  - exists now, message. split; [reflexivity|].
    destruct (onMessage_state now message st) as (_ & _ & Hu).
    cbv zeta in Hu. rewrite Hu, Hlocked in Hunlocked.
    destruct (equals (type message) "GET_STATE"); [discriminate|].
    destruct (equals (type message) "UNLOCK_WALLET") eqn:He.
    + unfold equals in He. destruct (type message) as [t|]; [|discriminate].
      now apply String.eqb_eq in He as ->.
    + now destruct (equals (type message) "LOCK_WALLET").
  - unfold onConnect in Hunlocked.
    destruct (String.eqb port_name "content-script"); [|congruence].
    unfold onPortMessage in Hunlocked.
    destruct (equals (type message) "REQUEST_ACCOUNTS");
      [|cbn [fst] in Hunlocked; congruence].
    rewrite Hlocked in Hunlocked. cbn [fst] in Hunlocked. congruence.
  - rewrite timer_keeps_locked in Hunlocked; congruence.
Qed.

(** The wallet is unlocked only by a message of type [UNLOCK_WALLET] on
    [chrome.runtime.onMessage]: when a run that starts locked ends
    unlocked, such a message is among its events. Neither a request on a
    port nor the timer unlocks. *)
Theorem unlocked_only_by_message (start : Z) (events : list Event) :
  isUnlocked (run (initial start) events) = true ->
  exists now message,
    In (RuntimeMessage now message) events
    /\ type message = Some "UNLOCK_WALLET"%string.
Proof.
  unfold run.
  assert (H : forall st, isUnlocked st = false ->
            isUnlocked (fold_left step events st) = true ->
            exists now message,
              In (RuntimeMessage now message) events
              /\ type message = Some "UNLOCK_WALLET"%string).
  { induction events as [|ev events IH]; intros st Hst Hend.
    - cbn [fold_left] in Hend. congruence.
    - cbn [fold_left] in Hend.
      destruct (isUnlocked (step st ev)) eqn:Hstep.
      + destruct (step_unlocks st ev Hst Hstep) as (now & message & -> & Htype).
        exists now, message. split; [now left | assumption].
      + destruct (IH (step st ev) Hstep Hend) as (now & message & Hin & Htype).
        exists now, message. split; [now right | assumption]. }
  apply H. reflexivity.
Qed.

(** Any message of [chrome.runtime.onMessage] but [LOCK_WALLET] keeps an
    unlocked wallet unlocked at the checks of the next thirty minutes,
    be it a message of an unknown type or a request that is refused. *)
Theorem message_keeps_session (now later : Z) (message : Message) (st : State) :
  isUnlocked st = true ->
  equals (type message) "LOCK_WALLET" = false ->
  later - now <= SESSION_TIMEOUT ->
  isUnlocked (run st [RuntimeMessage now message; TimerTick later]) = true.
Proof.
  intros Hu Hlock Hlater. unfold run. cbn [fold_left step].
  destruct (onMessage_state now message st) as (Hactivity & _ & Hunlocked).
  cbv zeta in Hactivity, Hunlocked.
  assert (Hstill : isUnlocked (fst (onMessage now message st)) = true).
  { rewrite Hunlocked, Hu, Hlock.
    destruct (equals (type message) "GET_STATE"); [reflexivity|].
    now destruct (equals (type message) "UNLOCK_WALLET"). }
  unfold sessionTimeoutCheck. rewrite Hstill, Hactivity. cbn [andb].
  destruct (Z.gtb_spec (later - now) SESSION_TIMEOUT); [lia | exact Hstill].
Qed.

End SessionRuns.

Import Encoding Base64 Crypto JSON Storage Chrome HdWallet Keyring Browser.

(** ** The pages of the popup *)

Section Pages.

Context {wc : WebCrypto} {numbers : NumberText} {lib : Library}
        {methods : WalletMethods lib}.

Lemma loadWallet_no_password (chrome : env) (password : option jsstring) :
  no_password password = true -> loadWallet chrome password = Rejected load_error.
Proof.
  intros Hp. unfold loadWallet, getData.
  destruct (lastError chrome); [reflexivity|].
  destruct (local chrome !! WALLET_KEY) as [data|]; [|reflexivity].
  destruct (Nat.eqb (length data) 0); [reflexivity|].
  now rewrite Hp.
Qed.

(** Without a password, [null] or the empty string, [loadWallet]
    fails with its one error, whatever the storage holds. *)
Theorem loadWallet_without_password (chrome : env) (password : option jsstring) :
  no_password password = true -> loadWallet chrome password = Rejected load_error.
Proof. apply loadWallet_no_password. Qed.

(** [handleLogin] with a password always comes to an end. It calls
    [onLogin] and shows no error, or it counts one more attempt and says
    that the password is wrong, with the hint to reset the wallet from the
    third failure on; it says so as well when no wallet is stored. *)
Theorem handleLogin_outcomes (chrome : env) (st : Login.LoginState) :
  Login.password st <> [] ->
  let '(st', called) := Login.handleLogin chrome st in
  Login.loading st' = false
  /\ ((called = true /\ Login.error st' = None
       /\ Login.attempts st' = Login.attempts st)
      \/ (called = false /\ Login.attempts st' = S (Login.attempts st)
          /\ Login.error st'
             = Some (if (2 <=? Login.attempts st)%nat
                     then "Wrong password. Please try again or reset your wallet."%string
                     else "Wrong password. Please try again."%string)))
  /\ (local chrome !! WALLET_KEY = None -> called = false).
Proof.
  intros Hp. unfold Login.handleLogin.
  destruct (Login.password st) as [|c password] eqn:Hpw; [contradiction|].
  cbn [length Nat.eqb].
  destruct (loadWallet_settles chrome (Some (c :: password))) as [[wallet Hw] | Hw].
  - rewrite Hw. cbn [Login.loading Login.error Login.attempts].
    split; [reflexivity|]. split; [now left|].
    intros Habsent. revert Hw. unfold loadWallet, getData.
    destruct (lastError chrome); [discriminate|]. rewrite Habsent. discriminate.
  - rewrite Hw. cbn [Login.loading Login.error Login.attempts].
    split; [reflexivity|]. split; [|reflexivity]. right.
    now destruct (2 <=? Login.attempts st)%nat.
Qed.

(** When the library accepts the phrase a form holds, once cleaned, the
    password has eight characters or more and is confirmed, and nothing
    fails, [handleImportWallet] stores the wallet of the cleaned phrase,
    calls [onSuccess] and shows no error; [loadWallet] then returns this
    wallet for the password. *)
Theorem handleImportWallet_stores_wallet (unicode : ImportWallet.Unicode)
    (crypto_ok : WebCryptoCorrect wc) (methods_ok : WalletMethodsCorrect lib methods)
    (st : ImportWallet.Form) (phrase serialization : jsstring) (b : browser) :
  let wallet := {| mnemonic := phrase;
                   accounts := derive phrase keyring_paths (js "creata") |} in
  ImportWallet.typed_plainly (ImportWallet.form_mnemonic st) = true ->
  EnglishMnemonic (ImportWallet.cleanedMnemonic (ImportWallet.form_mnemonic st))
  = Ok phrase ->
  (8 <= length (ImportWallet.form_password st))%nat ->
  ImportWallet.form_confirmPassword st = ImportWallet.form_password st ->
  no_failure b ->
  serialize wallet (ImportWallet.form_password st) = Resolved serialization ->
  exists st' b',
    ImportWallet.handleImportWallet st b = (st', true, b')
    /\ ImportWallet.form_error st' = None
    /\ ImportWallet.form_loading st' = false
    /\ loadWallet (env_of b') (Some (ImportWallet.form_password st)) = Resolved wallet.
Proof.
  intros wallet Hplain Hlib Hlen Hconfirm Hb Hser.
  pose proof Hlib as Hchecked.
  apply EnglishMnemonic_ok in Hchecked as (-> & Hcount & _);
    [|now apply cleanedMnemonic_ascii].
  pose proof (cleanedMnemonic_counted unicode _ Hplain) as [_ Hvalid].
  unfold allowedWordsLengths in Hcount. rewrite Hcount in Hvalid.
  symmetry in Hvalid. unfold ImportWallet.mnemonic_validated in Hvalid.
  apply andb_true_iff in Hvalid as [Hne Hwords]. apply negb_true_iff in Hne.
  assert (Hp : ImportWallet.form_password st <> []).
  { intros Hnil. rewrite Hnil in Hlen. cbn in Hlen. lia. }
  destruct (loadWallet_after_store crypto_ok methods_ok wallet
              (ImportWallet.form_password st) serialization b Hp Hb Hser)
    as (b' & Hstore & _ & Hload).
  unfold ImportWallet.handleImportWallet, ImportWallet.validateForm.
  unfold ImportWallet.mnemonic_error, ImportWallet.password_error.
  rewrite Hne, Hwords, Hconfirm. cbn [negb].
  destruct (Nat.eqb_spec (length (ImportWallet.form_password st)) 0) as [H0|_]; [lia|].
  destruct (Nat.ltb_spec (length (ImportWallet.form_password st)) 8) as [H8|_]; [lia|].
  rewrite bool_decide_eq_true_2 by reflexivity. cbn [negb].
  unfold bind, lift. rewrite importFromMnemonic_outcome, Hlib.
  fold wallet. rewrite Hstore.
  eexists _, b'. split; [reflexivity|]. now repeat split.
Qed.

(** The phrase [createWallet] shows is the phrase of the 32 random
    bytes drawn then; [handleCreateWallet] stores, and [loadWallet] then
    returns, the wallet of the 32 random bytes drawn when it is called:
    another wallet than the one whose phrase was shown, whenever the two
    draws give different phrases. *)
Theorem handleCreateWallet_stores_new_wallet (lib_ok : LibraryCorrect lib)
    (crypto_ok : WebCryptoCorrect wc) (methods_ok : WalletMethodsCorrect lib methods)
    (st0 : CreateWallet.CreateWalletState) (b0 b1 : browser)
    (password serialization : jsstring) :
  let phrase0 := Bip39_encode (getRandomValues (random b0) 0 32) in
  let phrase1 := Bip39_encode (getRandomValues (random b1) 0 32) in
  let wallet := {| mnemonic := phrase1;
                   accounts := derive phrase1 keyring_paths (js "creata") |} in
  let st := {| CreateWallet.mnemonic :=
                 CreateWallet.mnemonic (fst (CreateWallet.createWallet st0 b0));
               CreateWallet.password := password;
               CreateWallet.loading := false;
               CreateWallet.error := None |} in
  password <> [] -> no_failure b1 ->
  serialize wallet password = Resolved serialization ->
  phrase0 <> phrase1 ->
  CreateWallet.mnemonic st = phrase0
  /\ exists st' b',
       CreateWallet.handleCreateWallet st b1 = (st', true, b')
       /\ loadWallet (env_of b') (Some password) = Resolved wallet
       /\ mnemonic wallet <> CreateWallet.mnemonic st.
Proof.
  intros phrase0 phrase1 wallet st Hp Hb Hser Hdiff.
  assert (Hshown : CreateWallet.mnemonic st = phrase0).
  { subst st. cbn [CreateWallet.mnemonic].
    unfold CreateWallet.createWallet, CreateWallet.generateWallet_call.
    rewrite generateWallet_outcome.
    destruct (Bip39_encode_checked (getRandomValues (random b0) 0 32)) as [Hok _].
    { rewrite getRandomValues_length. cbn. tauto. }
    now rewrite Hok. }
  split; [exact Hshown|].
  assert (Hb' : no_failure (drawn 32 b1)) by now apply no_failure_drawn.
  destruct (loadWallet_after_store crypto_ok methods_ok wallet password serialization
              (drawn 32 b1) Hp Hb' Hser) as (b' & Hstore & _ & Hload).
  unfold CreateWallet.handleCreateWallet, CreateWallet.generateWallet_call, bind.
  rewrite generateWallet_outcome.
  destruct (Bip39_encode_checked (getRandomValues (random b1) 0 32)) as [Hok _].
  { rewrite getRandomValues_length. cbn. tauto. }
  rewrite Hok. fold phrase1. fold wallet.
  subst st. cbn [CreateWallet.password]. rewrite Hstore.
  eexists _, b'. split; [reflexivity|]. split; [exact Hload|].
  cbn [mnemonic wallet]. rewrite Hshown. congruence.
Qed.

(** Once a wallet with an account is stored, [loadAddress] of the page
    Receive does not show its address: it asks the storage for the item
    [creata_session], which [storeWallet] does not write, reads the record
    of the current account with an empty password, and ends with its
    error. *)
Theorem loadAddress_after_store (methods_ok : WalletMethodsCorrect lib methods)
    (wallet : Wallet Account) (password serialization : jsstring)
    (st : Receive.ReceiveState) (b : browser) :
  password <> [] -> no_failure b ->
  serialize wallet password = Resolved serialization ->
  accounts wallet <> [] ->
  items b !! "creata_session"%string = None ->
  exists b',
    storeWallet wallet password b = (Resolved tt, b')
    /\ fst (Receive.loadAddress st b')
       = {| Receive.address := Receive.address st;
            Receive.loading := false;
            Receive.error := Some "Failed to load wallet address. Please try again."%string |}.
Proof.
  intros Hp Hb Hser Haccounts Hsession.
  destruct (storeWallet_stored methods_ok wallet password serialization b Hp Hb Hser)
    as (blob1 & blob2 & b' & Hstore & Hb' & _ & _ & _ & _ & Hcurrent).
  exists b'. split; [assumption|].
  destruct (accounts wallet) as [|first others]; [contradiction|].
  destruct Hcurrent as (blob3 & Hblob3 & Hcurrent).
  pose proof (storeWallet_frame wallet password b) as Hframe.
  rewrite Hstore in Hframe. destruct Hframe as [_ Hframe].
  assert (Hsession' : items b' !! "creata_session"%string = None).
  { rewrite Hframe; [assumption | discriminate..]. }
  assert (Hne : blob3 <> []).
  { intros ->. revert Hblob3.
    match goal with
    | |- encrypt ?rng ?data _ = _ -> _ =>
        destruct (encrypt_first_character rng data password) as [rest ->]
    end.
    discriminate. }
  unfold Receive.loadAddress, bind, Receive.storage_get, Receive.getCurrentAccount_call.
  rewrite (no_failure_next b' Hb'), Hsession'.
  unfold getCurrentAccount, getData. cbn [env_of lastError local items reports].
  rewrite no_failure_next by now apply no_failure_tl.
  rewrite Hcurrent. destruct blob3 as [|c blob3]; [contradiction|]. reflexivity.
Qed.

(** At the start of the popup, [checkWallet] opens the page Welcome
    when no wallet is stored; on the wallet record that [encrypt] makes
    when the first random byte is below 104, the promise of [hasWallet] is
    never settled and the popup keeps loading. *)
Theorem checkWallet_pages (chrome : env) (rng : RandomSource)
    (data password blob : jsstring) :
  (local chrome !! WALLET_KEY = None ->
   App.checkWallet chrome App.first_render
   = {| App.initialized := false; App.loading := false;
        App.currentPage := "welcome"; App.error := None |})
  /\ (Byte.to_N (rng 0%nat) < 104 ->
      encrypt rng data password = Resolved blob ->
      App.checkWallet (storage_with WALLET_KEY blob) App.first_render
      = App.first_render).
Proof.
  split.
  - intros Habsent. unfold App.checkWallet.
    destruct (hasWallet_absent chrome) as [_ H]. now rewrite (H Habsent).
  - intros Hfirst Hblob. unfold App.checkWallet.
    destruct (encrypt_first_character rng data password) as [rest Hrest].
    rewrite Hrest in Hblob. injection Hblob as <-.
    rewrite hasWallet_outcome. unfold storage_with.
    cbn [lastError local]. rewrite lookup_singleton_eq.
    cbn [length Nat.eqb]. rewrite parse_capital; [reflexivity|].
    unfold alphabet. settle_cmp. lia.
Qed.

End Pages.

Import Encoding Base64 Crypto JSON Storage Chrome HdWallet Keyring Browser.

(** ** The stand-in for a library whose wallets are written and read *)

Lemma standin_vault_library_correct : LibraryCorrect Standin.vault_library.
Proof.
  constructor. intros entropy Hin.
  destruct entropy as [|first rest]; [cbn in Hin; intuition discriminate|].
  cbn [Bip39_encode Standin.vault_library Standin.phrase_of].
  assert (Hlen : In (length (first :: rest)) [16; 20; 24; 28; 32]%nat) by exact Hin.
  revert Hlen. generalize (length (first :: rest)). intros n Hn.
  destruct (Byte.eqb first x00);
    destruct Hn as [<- | [<- | [<- | [<- | [<- | []]]]]];
    vm_compute; split; reflexivity.
Qed.

Lemma lines_line (line text rest : jsstring) :
  forallb (fun c => (c <? 65536) && negb (c =? 10)) text = true ->
  Standin.lines line (text ++ 10 :: rest) = (line ++ text) :: Standin.lines [] rest.
Proof.
  revert line. induction text as [|c text IH]; intros line Htext.
  - cbn [app Standin.lines]. change (10 =? 10) with true. cbv iota.
    now rewrite app_nil_r.
  - cbn [forallb] in Htext. apply andb_true_iff in Htext as [Hc Htext].
    apply andb_true_iff in Hc as [_ Hc]. apply negb_true_iff in Hc.
    cbn [app Standin.lines]. rewrite Hc, IH by assumption.
    now rewrite <- app_assoc.
Qed.

Lemma lines_written (texts : list jsstring) :
  forallb (forallb (fun c => (c <? 65536) && negb (c =? 10))) texts = true ->
  Standin.lines [] (flat_map (fun t => t ++ [10]) texts) = texts
  /\ is_string (flat_map (fun t => t ++ [10]) texts) = true.
Proof.
  induction texts as [|t texts IH]; intros H; [now split|].
  cbn [forallb] in H. apply andb_true_iff in H as [Ht Hrest].
  destruct (IH Hrest) as [IH1 IH2]. cbn [flat_map]. split.
  - rewrite <- app_assoc. cbn [app]. rewrite lines_line by assumption.
    now rewrite IH1.
  - unfold is_string in *. rewrite !forallb_app, IH2. cbn [forallb].
    rewrite andb_true_r. change (10 <? 65536) with true. rewrite andb_true_r.
    apply forallb_forall. intros c Hc. rewrite forallb_forall in Ht.
    specialize (Ht c Hc). now apply andb_true_iff in Ht as [Ht _].
Qed.

Lemma standin_vault_methods_correct :
  WalletMethodsCorrect Standin.vault_library Standin.vault_methods.
Proof.
  constructor.
  - intros [phrase addresses] password serialization.
    cbn [serialize Standin.vault_methods Standin.write_wallet].
    unfold Standin.write_wallet. cbn [mnemonic accounts].
    destruct (forallb _ _) eqn:Htexts; [|discriminate].
    intros [= <-]. destruct (lines_written _ Htexts) as [Hlines Hstring].
    split; [exact Hstring|]. split.
    + cbn [flat_map]. now destruct phrase.
    + cbn [deserialize Standin.vault_library Standin.read_wallet].
      cbn [flat_map] in Hlines. rewrite Hlines. f_equal. f_equal.
      rewrite map_map. rewrite <- (map_id addresses) at 2.
      apply map_ext. intros a. apply Uint8Array_from_fromCharCode.
  - intros account. split; [|reflexivity].
    cbn [account_address Standin.vault_methods].
    pose proof (fromCharCode_bounded account) as H.
    apply forallb_forall. intros c Hc. apply N.ltb_lt.
    rewrite List.Forall_forall in H. specialize (H c Hc). cbv beta in H. lia.
Qed.

(** ** The theorems of the storage and of the keyring at the stand-ins *)

(** [saveData] and [getData] with a password, at an object whose keys
    are array indices and a word. *)
Lemma saveData_getData_secure_witness :
  let value :=
    JObject [(js "0", JString (js "creata1")); (js "10", JNull);
             (js "current", JBool true)] in
  exists b',
    @saveData Standin.crypto Standin.numbers CURRENT_ACCOUNT_KEY
      value true (Some (js "p1")) Standin.fresh
    = (Resolved tt, b')
    /\ @getData Standin.crypto (env_of b') CURRENT_ACCOUNT_KEY true (Some (js "p1"))
       = Resolved value.
Proof.
  intros value.
  apply (@saveData_getData_secure Standin.crypto Standin.numbers
           standin_crypto_correct);
    [reflexivity | discriminate | constructor].
Defined.

(** [saveData] and [getData] without a password, at an object with an
    array index among its keys. *)
Lemma saveData_getData_plain_witness :
  let value :=
    JObject [(js "0", JString (js "mainnet"));
             (js "networks", JArray [JString (js "mainnet"); JBool true; JNull])] in
  exists b',
    @saveData Standin.crypto Standin.numbers "creata_active_network"
      value false None Standin.fresh
    = (Resolved tt, b')
    /\ @getData Standin.crypto (env_of b') "creata_active_network" false None
       = Resolved value.
Proof.
  intros value.
  apply (@saveData_getData_plain Standin.crypto Standin.numbers);
    [reflexivity | constructor].
Defined.


(** [storeWallet] and [loadWallet], at the wallet of twelve words. *)
Lemma storeWallet_then_loadWallet_witness :
  exists b',
    @storeWallet Standin.crypto Standin.numbers Standin.vault_library
      Standin.vault_methods Standin.wallet (js "password1") Standin.fresh
    = (Resolved tt, b')
    /\ @loadWallet Standin.crypto Standin.vault_library (env_of b')
         (Some (js "password1"))
       = Resolved Standin.wallet.
Proof.
  eapply (@storeWallet_then_loadWallet Standin.crypto Standin.numbers
            Standin.vault_library Standin.vault_methods
            standin_crypto_correct standin_vault_methods_correct);
    [discriminate | constructor | reflexivity].
Defined.

(** [storeWallet] and [getAccounts], at the wallet of twelve words. *)
Lemma storeWallet_then_getAccounts_witness :
  exists b',
    @storeWallet Standin.crypto Standin.numbers Standin.vault_library
      Standin.vault_methods Standin.wallet (js "password1") Standin.fresh
    = (Resolved tt, b')
    /\ @getAccounts Standin.crypto (env_of b') (Some (js "password1"))
       = Resolved
           (JArray [JObject [(js "address", JString (js "creata"));
                             (js "algo", JString (js "secp256k1"));
                             (js "pubkey", JString (js "637265617461"))]])
    /\ @getCurrentAccount Standin.crypto (env_of b') (Some (js "password1"))
       = Resolved (JString (js "creata")).
Proof.
  eapply (@storeWallet_then_getAccounts Standin.crypto Standin.numbers
            Standin.vault_library Standin.vault_methods
            standin_crypto_correct standin_vault_methods_correct
            Standin.wallet);
    [discriminate | constructor | reflexivity].
Defined.

(** [storeWallet] when the second call of the storage fails. *)
Lemma storeWallet_is_not_atomic_witness :
  let b := {| items := ∅; reports := [None; Some "QUOTA_BYTES quota exceeded"%string];
              random := Standin.zeros |} in
  exists b',
    @storeWallet Standin.crypto Standin.numbers Standin.vault_library
      Standin.vault_methods Standin.wallet (js "password1") b
    = (Rejected (Error "Failed to securely store wallet"), b')
    /\ @loadWallet Standin.crypto Standin.vault_library (env_of b')
         (Some (js "password1"))
       = Resolved Standin.wallet
    /\ items b' !! ACCOUNTS_KEY = items b !! ACCOUNTS_KEY
    /\ items b' !! CURRENT_ACCOUNT_KEY = items b !! CURRENT_ACCOUNT_KEY.
Proof.
  intros b.
  eapply (@storeWallet_is_not_atomic Standin.crypto Standin.numbers
            Standin.vault_library Standin.vault_methods
            standin_crypto_correct standin_vault_methods_correct
            Standin.wallet (js "password1"));
    [discriminate | reflexivity | reflexivity | constructor].
Defined.

(** [removeWallet] of a browser that holds a wallet record. *)
Lemma removeWallet_then_no_wallet_witness :
  exists b',
    removeWallet Standin.holding = (Resolved tt, b')
    /\ @hasWallet Standin.crypto (env_of b') = Resolved false
    /\ @loadWallet Standin.crypto Standin.vault_library (env_of b')
         (Some (js "password1"))
       = Rejected load_error
    /\ @getAccounts Standin.crypto (env_of b') (Some (js "password1")) = Resolved JNull
    /\ @getCurrentAccount Standin.crypto (env_of b') (Some (js "password1"))
       = Resolved JNull
    /\ (forall key, key <> WALLET_KEY -> key <> ACCOUNTS_KEY ->
                    key <> CURRENT_ACCOUNT_KEY ->
                    items b' !! key = items Standin.holding !! key).
Proof.
  apply (@removeWallet_then_no_wallet Standin.crypto Standin.vault_library).
  constructor.
Defined.

(** ** The theorems of the helpers at examples *)

(** [truncateAddress] of an address of eleven characters: thirteen
    characters. *)
Lemma truncateAddress_shape_witness :
  Helpers.truncateAddress (js "creata1qypq") 6 4 = js "creata...qypq"
  /\ length (Helpers.truncateAddress (js "creata1qypq") 6 4) = 13%nat.
Proof.
  apply (truncateAddress_shape (js "creata1qypq") 6 4);
    [lia | lia | vm_compute; reflexivity].
Defined.

(** [truncateAddress] with no character asked for at the end. *)
Lemma truncateAddress_without_end_witness :
  Helpers.truncateAddress (js "creata1qypq") 6 0 = js "creata...creata1qypq".
Proof.
  apply (truncateAddress_without_end (js "creata1qypq") 6).
  split; [lia | vm_compute; reflexivity].
Defined.

(** [withRetry] with two retries on a function that fails twice. *)
Lemma withRetry_gives_up_witness :
  Helpers.withRetry Standin.flaky 2 1000 0%nat
  = (Helpers.GaveUp (Some (Error "Network Error")), 2%nat, [2000; 1000]%Z)
  /\ ((2 <= 0)%Z -> last [Error "Network Error"; Error "Network Error"] = None
                     /\ 2%nat = 0%nat).
Proof.
  apply (withRetry_gives_up Standin.flaky 2 1000 0%nat 2%nat
           [Error "Network Error"; Error "Network Error"]).
  reflexivity.
Defined.

(** [withRetry] with three retries on a function that fails twice. *)
Lemma withRetry_returns_witness :
  Helpers.withRetry Standin.flaky 3 1000 0%nat
  = (Helpers.Returned 2%nat, 3%nat, [2000; 1000]%Z).
Proof.
  apply (withRetry_returns Standin.flaky 3 1000 2 0%nat 2%nat 3%nat
           [Error "Network Error"; Error "Network Error"] 2%nat);
    [reflexivity | reflexivity | cbn; lia].
Defined.

(** ** The theorems of the session at examples *)

(** A run that ends unlocked: a message unlocked the wallet. *)
Lemma unlocked_only_by_message_witness :
  let unlock := {| Background.type := Some "UNLOCK_WALLET"%string;
                   Background.msg_network := None |} in
  let events := [Background.TimerTick 60000;
                 Background.RuntimeMessage 61000 unlock;
                 Background.PortRequest "content-script"
                   {| Background.type := Some "REQUEST_ACCOUNTS"%string;
                      Background.msg_network := None |}] in
  exists now message,
    In (Background.RuntimeMessage now message) events
    /\ Background.type message = Some "UNLOCK_WALLET"%string.
Proof.
  intros unlock events.
  apply (unlocked_only_by_message 0 events). reflexivity.
Defined.

(** A message of an unknown type, one minute before a check. *)
Lemma message_keeps_session_witness :
  Background.isUnlocked
    (Background.run
       {| Background.isUnlocked := true; Background.network := "mainnet";
          Background.lastActivity := 0 |}
       [Background.RuntimeMessage 3600000
          {| Background.type := Some "PING"%string; Background.msg_network := None |};
        Background.TimerTick 3660000])
  = true.
Proof.
  apply message_keeps_session;
    [reflexivity | reflexivity | unfold Background.SESSION_TIMEOUT; lia].
Defined.

(** ** The theorems of the pages at the stand-ins *)

(** [loadWallet] with the empty string on a stored wallet. *)
Lemma loadWallet_without_password_witness :
  @loadWallet Standin.crypto Standin.vault_library
    (storage_with WALLET_KEY Standin.stored_record) (Some [])
  = Rejected load_error.
Proof.
  apply (@loadWallet_without_password Standin.crypto Standin.vault_library).
  reflexivity.
Defined.

(** The third failed attempt of [handleLogin], no wallet being stored. *)
Lemma handleLogin_outcomes_witness :
  let st := {| Login.password := js "password1"; Login.loading := false;
               Login.error := None; Login.attempts := 2 |} in
  let '(st', called) :=
    @Login.handleLogin Standin.crypto Standin.vault_library empty_storage st in
  Login.loading st' = false
  /\ ((called = true /\ Login.error st' = None
       /\ Login.attempts st' = Login.attempts st)
      \/ (called = false /\ Login.attempts st' = S (Login.attempts st)
          /\ Login.error st'
             = Some (if (2 <=? Login.attempts st)%nat
                     then "Wrong password. Please try again or reset your wallet."%string
                     else "Wrong password. Please try again."%string)))
  /\ (local empty_storage !! WALLET_KEY = None -> called = false).
Proof.
  intros st.
  apply (@handleLogin_outcomes Standin.crypto Standin.vault_library
           empty_storage st).
  discriminate.
Defined.

(** [handleImportWallet] on that form. *)
Lemma handleImportWallet_stores_wallet_witness :
  let wallet := {| mnemonic := js "a b a a a a a a a a a b";
                   accounts := @derive Standin.vault_library
                                 (js "a b a a a a a a a a a b")
                                 (@keyring_paths Standin.vault_library)
                                 (js "creata") |} in
  exists st' b',
    @ImportWallet.handleImportWallet Standin.crypto Standin.numbers
      Standin.vault_library Standin.vault_methods Standin.unicode
      Standin.form Standin.fresh
    = (st', true, b')
    /\ ImportWallet.form_error st' = None
    /\ ImportWallet.form_loading st' = false
    /\ @loadWallet Standin.crypto Standin.vault_library (env_of b')
         (Some (js "password1"))
       = Resolved wallet.
Proof.
  intros wallet.
  eapply (@handleImportWallet_stores_wallet Standin.crypto Standin.numbers
            Standin.vault_library Standin.vault_methods Standin.unicode
            standin_crypto_correct standin_vault_methods_correct
            Standin.form (js "a b a a a a a a a a a b"));
    [reflexivity | reflexivity | cbn; lia | reflexivity | constructor | reflexivity].
Defined.

(** [createWallet] when the random bytes are zero, then
    [handleCreateWallet] when they are one. *)
Lemma handleCreateWallet_stores_new_wallet_witness :
  let b0 := Standin.fresh in
  let b1 := {| items := ∅; reports := []; random := Standin.ones |} in
  let phrase0 := @Bip39_encode Standin.vault_library
                   (getRandomValues (random b0) 0 32) in
  let phrase1 := @Bip39_encode Standin.vault_library
                   (getRandomValues (random b1) 0 32) in
  let wallet := {| mnemonic := phrase1;
                   accounts := @derive Standin.vault_library phrase1
                                 (@keyring_paths Standin.vault_library)
                                 (js "creata") |} in
  let st0 := {| CreateWallet.mnemonic := []; CreateWallet.password := [];
                CreateWallet.loading := false; CreateWallet.error := None |} in
  let st := {| CreateWallet.mnemonic :=
                 CreateWallet.mnemonic
                   (fst (@CreateWallet.createWallet Standin.vault_library st0 b0));
               CreateWallet.password := js "password1";
               CreateWallet.loading := false;
               CreateWallet.error := None |} in
  CreateWallet.mnemonic st = phrase0
  /\ exists st' b',
       @CreateWallet.handleCreateWallet Standin.crypto Standin.numbers
         Standin.vault_library Standin.vault_methods st b1
       = (st', true, b')
       /\ @loadWallet Standin.crypto Standin.vault_library (env_of b')
            (Some (js "password1"))
          = Resolved wallet
       /\ mnemonic wallet <> CreateWallet.mnemonic st.
Proof.
  intros b0 b1 phrase0 phrase1 wallet st0 st.
  eapply (@handleCreateWallet_stores_new_wallet Standin.crypto Standin.numbers
            Standin.vault_library Standin.vault_methods
            standin_vault_library_correct standin_crypto_correct
            standin_vault_methods_correct st0 b0 b1 (js "password1"));
    [discriminate | constructor | reflexivity | discriminate].
Defined.

(** [loadAddress] after the wallet of twelve words was stored. *)
Lemma loadAddress_after_store_witness :
  let st := {| Receive.address := JString []; Receive.loading := true;
               Receive.error := None |} in
  exists b',
    @storeWallet Standin.crypto Standin.numbers Standin.vault_library
      Standin.vault_methods Standin.wallet (js "password1") Standin.fresh
    = (Resolved tt, b')
    /\ fst (@Receive.loadAddress Standin.crypto st b')
       = {| Receive.address := Receive.address st;
            Receive.loading := false;
            Receive.error := Some "Failed to load wallet address. Please try again."%string |}.
Proof.
  intros st.
  eapply (@loadAddress_after_store Standin.crypto Standin.numbers
            Standin.vault_library Standin.vault_methods
            standin_vault_methods_correct Standin.wallet (js "password1"));
    [discriminate | constructor | reflexivity | discriminate | reflexivity].
Defined.

(** [checkWallet] on the empty storage, and on the record [encrypt]
    makes when the random bytes are zero. *)
Lemma checkWallet_pages_witness :
  @App.checkWallet Standin.crypto Standin.vault_library empty_storage
    App.first_render
  = {| App.initialized := false; App.loading := false;
       App.currentPage := "welcome"; App.error := None |}
  /\ exists blob,
       @encrypt Standin.crypto Standin.zeros (js "wallet") (js "p1")
       = Resolved blob
       /\ @App.checkWallet Standin.crypto Standin.vault_library
            (storage_with WALLET_KEY blob) App.first_render
          = App.first_render.
Proof.
  destruct (@encrypt_resolves Standin.crypto Standin.zeros (js "wallet") (js "p1"))
    as [blob H].
  destruct (@checkWallet_pages Standin.crypto Standin.vault_library
              empty_storage Standin.zeros (js "wallet") (js "p1") blob)
    as [Hwelcome Hloading].
  split; [exact (Hwelcome eq_refl)|].
  exists blob. split; [exact H|]. exact (Hloading eq_refl H).
Defined.

(** ** The request of the page for the accounts *)

(** [requestAccounts] of the injected provider is never answered: what
    the background posts on the port carries no [requestId], so
    [handleResponse] takes none of the messages, whatever the state of
    the wallet, and the promise is rejected with [Request timeout]. *)
Theorem requestAccounts_times_out (requestId : jsstring)
    (message : Background.Message) (st : Background.State) :
  ContentScript.requestAccounts requestId
    (ContentScript.window_messages requestId message st)
  = ContentScript.TimedOut.
Proof.
  unfold ContentScript.window_messages, Background.onPortMessage.
  destruct (Background.equals (Background.type message) "REQUEST_ACCOUNTS");
    [destruct (Background.isUnlocked st)|]; reflexivity.
Qed.
